(** * dstgo/dontstarve, package [proc]: a process supervisor with named streams

    A shallow embedding of [src/pkg/proc]: the closable [Channel] of
    helper.go, the stream binding and the output reader of pipe.go, and the
    life cycle of [Proc] (NewProc, Start, close, Signal, Terminate,
    Interrupt, Kill) of proc.go.

    Go code is embedded as state-passing functions.  A call either returns,
    panics, or parks its goroutine for ever; the three are the constructors
    of [outcome].  What the operating system, the worker pool and the other
    goroutines answer is read from an explicit environment record. *)

From Stdlib Require Import ZArith Lia List Bool.
From stdpp Require Import base option gmap strings list fin_maps.

Set Warnings "-register-all".
Set Default Proof Using "Type".
Open Scope Z_scope.

(* ===================================================================== *)
(** ** Results of a Go call *)
(* ===================================================================== *)

Inductive outcome (A : Type) : Type :=
  | Ret (a : A)            (* the call returned [a] *)
  | Panic (msg : string)   (* a run-time panic unwinds the goroutine *)
  | Block.                 (* the goroutine is parked and nothing wakes it *)
Arguments Ret {A} a.
Arguments Panic {A} msg.
Arguments Block {A}.

(** A method with receiver state [S]: the state it leaves and how it ended.
    On [Panic] and [Block] the state is the one reached at that point. *)
Definition M (S A : Type) : Type := S -> S * outcome A.

Definition ret {S A} (a : A) : M S A := fun s => (s, Ret a).
Definition panic {S A} (msg : string) : M S A := fun s => (s, Panic msg).
Definition block {S A} : M S A := fun s => (s, Block).

Definition bind {S A B} (m : M S A) (k : A -> M S B) : M S B :=
  fun s =>
    match m s with
    | (s', Ret a) => k a s'
    | (s', Panic msg) => (s', Panic msg)
    | (s', Block) => (s', Block)
    end.

Definition get {S} : M S S := fun s => (s, Ret s).
Definition put {S} (s : S) : M S unit := fun _ => (s, Ret tt).
Definition modify {S} (f : S -> S) : M S unit := fun s => (f s, Ret tt).

Notation "'let*' x := m 'in' k" := (bind m (fun x => k))
  (at level 10, x pattern, m at level 200, k at level 200).
Notation "'run' m 'then' k" := (bind m (fun _ => k))
  (at level 10, m at level 200, k at level 200).

(** Run a method of a part of the state ([get_part], [set_part] are the
    field projection and update). *)
Definition zoom {S P A} (get_part : S -> P) (set_part : P -> S -> S)
    (m : M P A) : M S A :=
  fun s => let '(p', r) := m (get_part s) in (set_part p' s, r).

(** [for _, x := range xs { body x }] *)
Fixpoint for_each {S X} (xs : list X) (body : X -> M S unit) : M S unit :=
  match xs with
  | [] => ret tt
  | x :: rest => run body x then for_each rest body
  end.

(* ===================================================================== *)
(** ** Errors *)
(* ===================================================================== *)

(** Go [error] values.  [nil] is [None] of [option error]. *)
Inductive error : Type :=
  | Canceled                               (* context.Canceled *)
  | DeadlineExceeded                       (* context.DeadlineExceeded *)
  | ErrTooLong                             (* bufio.ErrTooLong *)
  | ErrOther (msg : string)                (* any other error value *)
  | Wrapped (prefix : string) (e : error)  (* fmt.Errorf("%s: %w", prefix, e) *)
  | Joined (es : list error).              (* what errors.Join builds *)

(** [errors.Is(e, context.Canceled)]: the chain of [e] is searched through
    [Unwrap() error] and [Unwrap() []error]. *)
Fixpoint is_Canceled (e : error) : bool :=
  match e with
  | Canceled => true
  | Wrapped _ inner => is_Canceled inner
  | Joined es => existsb is_Canceled es
  | _ => false
  end.

(** [fmt.Errorf("%s: %w", name, err)] *)
Definition Errorf (name : string) (err : error) : error := Wrapped name err.

(** [errors.Join(errs...)]: nil errors are discarded; nil when none is left. *)
Definition errors_Join (errs : list (option error)) : option error :=
  match omap id errs with
  | [] => None
  | es => Some (Joined es)
  end.

(** The errors a caller can reach from [e] by unwrapping. *)
Inductive reaches : error -> error -> Prop :=
  | reaches_refl e : reaches e e
  | reaches_wrapped p e x : reaches e x -> reaches (Wrapped p e) x
  | reaches_joined es e x : In e es -> reaches e x -> reaches (Joined es) x.

(* ===================================================================== *)
(** ** helper.go: Atomic and Channel *)
(* ===================================================================== *)

(** [Atomic[T]]: a value behind a [sync.Mutex].  [Locker] is true while the
    mutex is held. *)
Record Atomic (T : Type) : Type := mkAtomic { Locker : bool; val : T }.
Arguments mkAtomic {T} Locker val.
Arguments Locker {T} a.
Arguments val {T} a.

(** [sync.Mutex.Lock] *)
Definition Lock {T} : M (Atomic T) unit :=
  fun a => if Locker a then (a, Block) else (mkAtomic true (val a), Ret tt).

(** [sync.Mutex.Unlock] *)
Definition Unlock {T} : M (Atomic T) unit :=
  fun a =>
    if Locker a then (mkAtomic false (val a), Ret tt)
    else (a, Panic "sync: unlock of unlocked mutex").

(** [func (v *Atomic[T]) Load() T] *)
Definition Load {T} : M (Atomic T) T :=
  run Lock then let* a := get in run Unlock then ret (val a).

(** [func (v *Atomic[T]) Store(val T)] *)
Definition Store {T} (x : T) : M (Atomic T) unit :=
  run Lock then run modify (fun a => mkAtomic (Locker a) x) then Unlock.

(** A Go channel [chan T] as the run time keeps it. *)
Record chan (T : Type) : Type := mkChan {
  chan_cap : nat;        (* make(chan T, cap) *)
  chan_buf : list T;     (* buffered items, oldest first *)
  chan_closed : bool     (* close(ch) has run *)
}.
Arguments mkChan {T} chan_cap chan_buf chan_closed.
Arguments chan_cap {T} c.
Arguments chan_buf {T} c.
Arguments chan_closed {T} c.

Section GoChan.
Context {T : Type}.
(** The zero value of [T] ([var v T]). *)
Variable zero : T.

Definition has_room (q : chan T) : bool :=
  (length (chan_buf q) <? chan_cap q)%nat.

Definition enqueue (v : T) (q : chan T) : chan T :=
  mkChan (chan_cap q) (chan_buf q ++ [v]) (chan_closed q).

(** [q <- v] with no receiver waiting. *)
Definition chan_send (v : T) : M (chan T) unit :=
  fun q =>
    if chan_closed q then (q, Panic "send on closed channel")
    else if has_room q then (enqueue v q, Ret tt)
    else (q, Block).

(** [select { case q <- v: true; default: false }] *)
Definition chan_send_default (v : T) : M (chan T) bool :=
  fun q =>
    if chan_closed q then (q, Panic "send on closed channel")
    else if has_room q then (enqueue v q, Ret true)
    else (q, Ret false).

(** [x, ok := <-q] with no sender waiting. *)
Definition chan_recv : M (chan T) (T * bool) :=
  fun q =>
    match chan_buf q with
    | x :: rest => (mkChan (chan_cap q) rest (chan_closed q), Ret (x, true))
    | [] => if chan_closed q then (q, Ret (zero, false)) else (q, Block)
    end.

(** [select { case x := <-q: Some x; default: None }]: a receive from a
    closed, drained channel is ready and yields the zero value. *)
Definition chan_recv_default : M (chan T) (option T) :=
  fun q =>
    match chan_buf q with
    | x :: rest => (mkChan (chan_cap q) rest (chan_closed q), Ret (Some x))
    | [] => if chan_closed q then (q, Ret (Some zero)) else (q, Ret None)
    end.

(** [close(q)] *)
Definition chan_close : M (chan T) unit :=
  fun q =>
    if chan_closed q then (q, Panic "close of closed channel")
    else (mkChan (chan_cap q) (chan_buf q) true, Ret tt).

(** [type Channel[T any] struct { closed Atomic[bool]; ch chan T }] *)
Record Channel : Type := mkChannel { closed : Atomic bool; ch : chan T }.

Definition on_closed {A} (m : M (Atomic bool) A) : M Channel A :=
  zoom closed (fun a c => mkChannel a (ch c)) m.
Definition on_ch {A} (m : M (chan T) A) : M Channel A :=
  zoom ch (fun q c => mkChannel (closed c) q) m.

(** [func MakeChannel[T any](buffer int) *Channel[T]]; [make] panics on a
    negative size. *)
Definition MakeChannel (buffer : Z) : outcome Channel :=
  if buffer <? 0 then Panic "makechan: size out of range"
  else Ret (mkChannel (mkAtomic false false)
                      (mkChan (Z.to_nat buffer) [] false)).

(** [func (c *Channel[T]) TrySend(v T) bool] *)
Definition TrySend (v : T) : M Channel bool :=
  let* b := on_closed Load in
  if b then ret false
  else
    let* sent := on_ch (chan_send_default v) in
    if sent then ret true else ret false.

(** [func (c *Channel[T]) Send(v T)] *)
Definition Send (v : T) : M Channel unit :=
  let* b := on_closed Load in
  if b then ret tt
  else on_ch (chan_send v).

(** [func (c *Channel[T]) TryRecv() (T, bool)] *)
Definition TryRecv : M Channel (T * bool) :=
  let* b := on_closed Load in
  if b then ret (zero, false)
  else
    let* r := on_ch chan_recv_default in
    match r with
    | Some rVal => ret (rVal, true)
    | None => ret (zero, false)
    end.

(** [func (c *Channel[T]) Recv() (T, bool)] *)
Definition Recv : M Channel (T * bool) :=
  let* b := on_closed Load in
  if b then ret (zero, false)
  else
    let* r := on_ch chan_recv in
    let '(rVal, ok) := r in
    if negb ok then ret (zero, false) else ret (rVal, true).

(** [func (c *Channel[T]) Closed() bool] *)
Definition Closed : M Channel bool := on_closed Load.

(** [func (c *Channel[T]) Close()] *)
Definition Close : M Channel unit :=
  let* b := on_closed Load in
  if b then ret tt
  else
    run on_closed Lock then
    run on_ch chan_close then
    run on_closed Unlock then
    on_closed (Store true).

(** [Close(); ...; Close()], [n] calls one after the other. *)
Fixpoint Close_times (n : nat) : M Channel unit :=
  match n with
  | O => ret tt
  | S k => run Close then Close_times k
  end.

(** A receive of either kind, for sequences of receives. *)
Inductive recv_kind : Type := ByRecv | ByTryRecv.

Definition recv_by (k : recv_kind) : M Channel (T * bool) :=
  match k with ByRecv => Recv | ByTryRecv => TryRecv end.

(** The results of the receives [ks], in order, stopping at the first
    that does not return. *)
Fixpoint recv_all (ks : list recv_kind) : M Channel (list (T * bool)) :=
  match ks with
  | [] => ret []
  | k :: rest =>
      let* r := recv_by k in let* rs := recv_all rest in ret (r :: rs)
  end.

(** No goroutine is inside a method of the channel: the mutex is free and
    the flag agrees with the run-time channel. *)
Definition quiescent (c : Channel) : Prop :=
  Locker (closed c) = false /\ val (closed c) = chan_closed (ch c).

End GoChan.

Arguments Channel T : clear implicits.
Arguments mkChannel {T} closed ch.
Arguments closed {T} c.
Arguments ch {T} c.

(* ===================================================================== *)
(** ** A sender racing a closer *)
(* ===================================================================== *)

(** One goroutine runs [Send(v)] while another runs [Close()] on the same
    channel.  Each goroutine advances by the atomic actions of the source
    text: taking or releasing the mutex, reading or writing the flag, the
    channel send, the channel close. *)

Inductive send_pc : Type :=
  | SendEntry                    (* at c.closed.Load(): Locker.Lock() *)
  | SendLoadLocked               (* in Load, mutex held, before reading val *)
  | SendLoadRead (b : bool)      (* in Load, val read, before the deferred Unlock *)
  | SendChan                     (* at c.ch <- v *)
  | SendReturned (sent : bool)   (* Send returned; [sent]: v was handed over *)
  | SendPanicked (msg : string).

Inductive close_pc : Type :=
  | CloseEntry                   (* at c.closed.Load(): Locker.Lock() *)
  | CloseLoadLocked
  | CloseLoadRead (b : bool)
  | CloseLock                    (* at c.closed.Locker.Lock() *)
  | CloseChan                    (* at close(c.ch), mutex held *)
  | CloseUnlock                  (* at c.closed.Locker.Unlock() *)
  | CloseStore                   (* at c.closed.Store(true): Locker.Lock() *)
  | CloseStoreLocked             (* in Store, mutex held, before v.val = val *)
  | CloseStoreWritten            (* in Store, before the deferred Unlock *)
  | CloseReturned
  | ClosePanicked (msg : string).

Inductive goroutine : Type := Sender | Closer.

Section Race.
Context {T : Type}.
Variable v : T.

Record race : Type := mkRace {
  shared : Channel T;
  sender : send_pc;
  closer : close_pc
}.

Definition with_flag (a : Atomic bool) (c : Channel T) : Channel T :=
  mkChannel a (ch c).

(** The next atomic action of the sender; [None] when it has none (it is
    parked, or it has finished). *)
Definition step_sender (s : race) : option race :=
  let c := shared s in
  match sender s with
  | SendEntry =>
      match Lock (closed c) with
      | (a, Ret _) => Some (mkRace (with_flag a c) SendLoadLocked (closer s))
      | _ => None
      end
  | SendLoadLocked =>
      Some (mkRace c (SendLoadRead (val (closed c))) (closer s))
  | SendLoadRead b =>
      match Unlock (closed c) with
      | (a, Ret _) =>
          Some (mkRace (with_flag a c)
                       (if b then SendReturned false else SendChan) (closer s))
      | (a, Panic msg) => Some (mkRace (with_flag a c) (SendPanicked msg) (closer s))
      | _ => None
      end
  | SendChan =>
      match chan_send v (ch c) with
      | (q, Ret _) => Some (mkRace (mkChannel (closed c) q) (SendReturned true) (closer s))
      | (q, Panic msg) => Some (mkRace (mkChannel (closed c) q) (SendPanicked msg) (closer s))
      | (_, Block) => None
      end
  | SendReturned _ | SendPanicked _ => None
  end.

(** The next atomic action of the closer. *)
Definition step_closer (s : race) : option race :=
  let c := shared s in
  let lock_to (pc : close_pc) :=
    match Lock (closed c) with
    | (a, Ret _) => Some (mkRace (with_flag a c) (sender s) pc)
    | _ => None
    end in
  let unlock_to (pc : close_pc) :=
    match Unlock (closed c) with
    | (a, Ret _) => Some (mkRace (with_flag a c) (sender s) pc)
    | (a, Panic msg) => Some (mkRace (with_flag a c) (sender s) (ClosePanicked msg))
    | _ => None
    end in
  match closer s with
  | CloseEntry => lock_to CloseLoadLocked
  | CloseLoadLocked =>
      Some (mkRace c (sender s) (CloseLoadRead (val (closed c))))
  | CloseLoadRead b => unlock_to (if b then CloseReturned else CloseLock)
  | CloseLock => lock_to CloseChan
  | CloseChan =>
      match chan_close (ch c) with
      | (q, Ret _) => Some (mkRace (mkChannel (closed c) q) (sender s) CloseUnlock)
      | (q, Panic msg) => Some (mkRace (mkChannel (closed c) q) (sender s) (ClosePanicked msg))
      | (_, Block) => None
      end
  | CloseUnlock => unlock_to CloseStore
  | CloseStore => lock_to CloseStoreLocked
  | CloseStoreLocked =>
      Some (mkRace (with_flag (mkAtomic (Locker (closed c)) true) c)
                   (sender s) CloseStoreWritten)
  | CloseStoreWritten => unlock_to CloseReturned
  | CloseReturned | ClosePanicked _ => None
  end.

Definition step (g : goroutine) (s : race) : option race :=
  match g with Sender => step_sender s | Closer => step_closer s end.

(** Run the goroutines in the order the scheduler picks them; [None] when
    it picks one that cannot move. *)
Fixpoint schedule (gs : list goroutine) (s : race) : option race :=
  match gs with
  | [] => Some s
  | g :: rest =>
      match step g s with
      | Some s' => schedule rest s'
      | None => None
      end
  end.

(** Both calls are about to start on channel [c]. *)
Definition race_start (c : Channel T) : race := mkRace c SendEntry CloseEntry.

End Race.

Arguments race T : clear implicits.

(* ===================================================================== *)
(** ** Contexts, timers and select *)
(* ===================================================================== *)

(** What a [context.Context] shows at an instant: [ctx.Err()], nil ([None])
    while [ctx.Done()] is still open. *)
Definition ctx_state : Type := option error.

(** [func isCtxDone(ctx context.Context) (bool, error)] *)
Definition isCtxDone (ctx : ctx_state) : bool * option error :=
  match ctx with
  | Some err => if is_Canceled err then (true, None) else (true, Some err)
  | None => (false, None)
  end.

(** [time.Duration]: nanoseconds. *)
Definition Duration : Type := Z.
Definition Second : Duration := 1000000000.

(** [time.After(d)] delivers [d] after the call, at once when [d <= 0]. *)
Definition time_After (d : Duration) : option Z := Some (Z.max 0 d).

(** A blocking [select].  Each case is given by the instant, counted from
    the entry into the select, at which its communication can proceed
    ([None]: never).  The select proceeds at the earliest such instant with
    one of the cases ready then; [pick] stands for the run time's random
    choice among them.  With no case ever ready it parks for ever. *)
Fixpoint earliest (cases : list (option Z)) : option Z :=
  match cases with
  | [] => None
  | c :: rest =>
      match c, earliest rest with
      | Some t, Some u => Some (Z.min t u)
      | Some t, None => Some t
      | None, r => r
      end
  end.

Fixpoint ready_from (i : nat) (cases : list (option Z)) (t : Z) : list nat :=
  match cases with
  | [] => []
  | c :: rest =>
      let tl := ready_from (S i) rest t in
      match c with
      | Some u => if u =? t then i :: tl else tl
      | None => tl
      end
  end.

Definition select (cases : list (option Z)) (pick : nat) : outcome (nat * Z) :=
  match earliest cases with
  | None => Block
  | Some t =>
      let rs := ready_from 0 cases t in
      Ret (nth (pick mod length rs)%nat rs 0%nat, t)
  end.

(* ===================================================================== *)
(** ** pipe.go: the reader of an output direction *)
(* ===================================================================== *)

Definition bytes : Type := list Byte.byte.

(** [type Stream = Channel[[]byte]]; the zero value of [[]byte] is nil. *)
Definition Stream : Type := Channel bytes.
Definition nil_bytes : bytes := [].

(** One round of [for scanner.Scan() { ... }]: the token the scanner
    produced, what the context shows when the loop body tests it, and what
    the worker pool answers to [Submit] for each subscriber. *)
Record tick : Type := mkTick {
  tick_bytes : bytes;
  tick_ctx : ctx_state;
  tick_submit : string -> option error
}.

(** What the task handed over to the worker pool gets to run with. *)
Record dispatch_env : Type := mkDispatchEnv {
  done_at : option Z;   (* when <-ctx.Done() can proceed *)
  send_at : option Z;   (* when readCh.ch <- ... can proceed *)
  send_closed : bool;   (* the channel is closed when the send proceeds *)
  dispatch_pick : nat
}.

Inductive dispatched : Type :=
  | CtxFired      (* case <-ctx.Done() *)
  | Dropped       (* case <-time.After(time.Second * 20) *)
  | Enqueued.     (* case readCh.ch <- buffer.Bytes() *)

(** The closure given to [p.workerPool.Submit] (helper.go, second part):
    the select over the context, a 20 second timer and the send.  The
    result is what happened to the chunk and when the task was over. *)
Definition dispatch_deadline : Duration := Second * 20.

Definition dispatch_task (e : dispatch_env) : outcome (dispatched * Z) :=
  match select [done_at e; time_After dispatch_deadline; send_at e]
               (dispatch_pick e) with
  | Ret (0%nat, t) => Ret (CtxFired, t)
  | Ret (1%nat, t) => Ret (Dropped, t)
  | Ret (_, t) =>
      if send_closed e then Panic "send on closed channel"
      else Ret (Enqueued, t)
  | Panic msg => Panic msg
  | Block => Block
  end.

(** [for name, readCh := range readChs { err := p.workerPool.Submit(...) }]:
    the tasks handed over, and the error that ended the loop. *)
Fixpoint submit_all (submit : string -> option error) (bs : bytes)
    (names : list string) : list (string * bytes) * option error :=
  match names with
  | [] => ([], None)
  | name :: rest =>
      match submit name with
      | Some err => ([], Some (Errorf name err))
      | None =>
          let '(tasks, r) := submit_all submit bs rest in
          ((name, bs) :: tasks, r)
      end
  end.

(** The function given to [p.group.Go] by [listenOutStream] (helper.go,
    second part, lines 220-258).  [names] is the order in which the range
    over [readChs] visits the subscribers, [ticks] the rounds in which
    [scanner.Scan()] returned true, and [scan_err] the value of
    [scanner.Err()] after it returned false (nil at end of file).  The
    result is the tasks submitted and the error the function returns. *)
Fixpoint listenOutStream (names : list string) (ticks : list tick)
    (scan_err : option error) : list (string * bytes) * option error :=
  match ticks with
  | [] => ([], scan_err)
  | t :: rest =>
      let '(done, err) := isCtxDone (tick_ctx t) in
      if done then ([], err)
      else
        match submit_all (tick_submit t) (tick_bytes t) names with
        | (tasks, Some e) => (tasks, Some e)
        | (tasks, None) =>
            let '(more, r) := listenOutStream names rest scan_err in
            (tasks ++ more, r)
        end
  end.

(** The earlier text of the same functions kept in pipe.go. *)
Module PipeGo.

(** pipe.go lines 118-133, [for name, ch := range readChs { err :=
    p.workerPool.Submit(func() { ... }) ... }]: the closure handed over
    captures the scanner and the subscriber's stream, not the bytes of the
    round, so a submitted task is known by its subscriber alone. *)
Fixpoint submit_all (submit : string -> option error) (names : list string)
    : list string * option error :=
  match names with
  | [] => ([], None)
  | name :: rest =>
      match submit name with
      | Some err => ([], Some (Errorf name err))
      | None =>
          let '(tasks, r) := submit_all submit rest in
          (name :: tasks, r)
      end
  end.

(** pipe.go lines 108-139: the loop ends with [return nil], so
    [scanner.Err()] ([scan_err]) is never looked at.  The result is the
    subscribers a task was submitted for, in order, and the error the
    function returns. *)
Fixpoint listenOutStream (names : list string) (ticks : list tick)
    (scan_err : option error) : list string * option error :=
  match ticks with
  | [] => ([], None)
  | t :: rest =>
      let '(done, err) := isCtxDone (tick_ctx t) in
      if done then ([], err)
      else
        match submit_all (tick_submit t) names with
        | (tasks, Some e) => (tasks, Some e)
        | (tasks, None) =>
            let '(more, r) := listenOutStream names rest scan_err in
            (tasks ++ more, r)
        end
  end.

(** What the submitted closure works on when the pool runs it: the token
    the scanner holds at that moment, and the subscriber's stream. *)
Record task_env : Type := mkTaskEnv {
  scanner_Bytes : bytes;
  task_stream : Stream
}.

(** The closure of pipe.go lines 120-128:
    [buffer.Write(scanner.Bytes()); ch.Send(buffer.Bytes())], the token
    being read when the task runs, and the send being the blocking one. *)
Definition dispatch_task : M task_env unit :=
  fun e =>
    let '(c, r) := Send (scanner_Bytes e) (task_stream e) in
    (mkTaskEnv (scanner_Bytes e) c, r).

End PipeGo.

(* ===================================================================== *)
(** ** options.go *)
(* ===================================================================== *)

Record Options : Type := mkOptions {
  Name : string;
  Args : list string;
  WorkDir : string;
  Env : list string;
  Stdin : bool;            (* create stdin pipe *)
  Stdout : bool;           (* create stdout pipe *)
  Stderr : bool;           (* create stderr pipe *)
  MaxWaitTime : Duration   (* max wait time before stop the process *)
}.

(** [var opts Options] *)
Definition zero_Options : Options :=
  mkOptions "" [] "" [] false false false 0.

(** [type Option func(o *Options)]: an update of the options. *)
Definition Option : Type := Options -> Options.

Definition WithCommand (name : string) (args : list string) : Option :=
  fun o => mkOptions name args (WorkDir o) (Env o)
                     (Stdin o) (Stdout o) (Stderr o) (MaxWaitTime o).

Definition WithWorkDir (dir : string) : Option :=
  fun o => mkOptions (Name o) (Args o) dir (Env o)
                     (Stdin o) (Stdout o) (Stderr o) (MaxWaitTime o).

Definition WithStdin : Option :=
  fun o => mkOptions (Name o) (Args o) (WorkDir o) (Env o)
                     true (Stdout o) (Stderr o) (MaxWaitTime o).

Definition WithStdout : Option :=
  fun o => mkOptions (Name o) (Args o) (WorkDir o) (Env o)
                     (Stdin o) true (Stderr o) (MaxWaitTime o).

Definition WithStderr : Option :=
  fun o => mkOptions (Name o) (Args o) (WorkDir o) (Env o)
                     (Stdin o) (Stdout o) true (MaxWaitTime o).

Definition WithMaxWaitTime (t : Duration) : Option :=
  fun o => mkOptions (Name o) (Args o) (WorkDir o) (Env o)
                     (Stdin o) (Stdout o) (Stderr o) t.

(** [for _, opt := range procOptions { opt(&opts) }] *)
Definition apply_options (procOptions : list Option) : Options :=
  fold_left (fun o opt => opt o) procOptions zero_Options.

(* ===================================================================== *)
(** ** proc.go: the supervisor *)
(* ===================================================================== *)

Inductive direction : Type := DirStdin | DirStdout | DirStderr.

(** [syscall.Signal] *)
Inductive Signal_t : Type := SIGTERM | SIGINT | SIGKILL | SIGNUM (n : Z).

(** Streams live on the Go heap and are shared by address between the
    registry and the subscriber that bound them. *)
Definition loc : Type := nat.

(** What [p.group.Go] was given. *)
Inductive task : Type :=
  | StdinWriter (name : string) (stream : loc)   (* listenStdinPipe *)
  | OutReader (d : direction).                   (* listenOutStream *)

(** What the supervisor does to the outside, in the order it does it. *)
Inductive event : Type :=
  | EvSpawn (pid : Z)               (* p.cmd.Start() succeeded *)
  | EvGo (t : task)                 (* p.group.Go(...) *)
  | EvCloseStream (l : loc)         (* stream.Close() *)
  | EvClosePipe (d : direction)     (* p.stdinPipe.Close() and the like *)
  | EvCancel                        (* p.cancel() *)
  | EvGroupWait                     (* p.group.Wait() *)
  | EvCmdWait                       (* go func() { done <- p.cmd.Wait() } *)
  | EvPoolRelease                   (* p.workerPool.Release() *)
  | EvSignal (sig : Signal_t).      (* p.proc.Signal(sig) *)

(** The fields of [type Proc struct] the modelled methods read or write.
    A field holding a pointer, an interface or a function value is kept as
    [true] when it is not nil; a map is [None] when it is the nil map. *)
Record Proc : Type := mkProc {
  proc : option Z;                          (* *os.Process, by its Pid *)
  process : option Z;                       (* *process.Process, by its pid *)
  stdinPipe : bool;
  stdinChs : option (gmap string loc);
  stdoutPipe : bool;
  stdoutChs : option (gmap string loc);
  stderrPipe : bool;
  stderrChs : option (gmap string loc);
  group : bool;
  workerPool : bool;
  cancel : bool;
  options : Options
}.

(** The supervisor together with the heap of streams and the record of its
    effects. *)
Record Sys : Type := mkSys {
  self : Proc;
  heap : gmap loc Stream;
  log : list event
}.

(** The answers of the collaborators. *)
Record World : Type := mkWorld {
  cmd_StdinPipe : option error;     (* procCmd.StdinPipe() *)
  cmd_StdoutPipe : option error;    (* procCmd.StdoutPipe() *)
  cmd_StderrPipe : option error;    (* procCmd.StderrPipe() *)
  ants_NewPool : option error;      (* ants.NewPool(20, ...) *)
  cmd_Start : error + Z;            (* p.cmd.Start(): an error, or the Pid *)
  process_NewProcess : option error;
  (** the tasks of p.group: the results of those that return, in the order
      in which they return, and whether one of them never returns *)
  group_returned : list (option error);
  group_stuck : bool;
  (** p.cmd.Wait() in the goroutine of close: when [done] can be received
      from, counted from the entry into the select, and the error sent *)
  cmd_Wait_at : option Z;
  cmd_Wait_err : option error;
  select_pick : nat;
  proc_Signal : Signal_t -> option error   (* p.proc.Signal(sig) *)
}.

Definition nil_deref : string :=
  "runtime error: invalid memory address or nil pointer dereference".

Definition set_self (f : Proc -> Proc) : M Sys unit :=
  modify (fun s => mkSys (f (self s)) (heap s) (log s)).

Definition emit (e : event) : M Sys unit :=
  modify (fun s => mkSys (self s) (heap s) (log s ++ [e])).

Definition enabled (d : direction) (o : Options) : bool :=
  match d with DirStdin => Stdin o | DirStdout => Stdout o | DirStderr => Stderr o end.

Definition pipe_of (d : direction) (p : Proc) : bool :=
  match d with
  | DirStdin => stdinPipe p | DirStdout => stdoutPipe p | DirStderr => stderrPipe p
  end.

Definition chs_of (d : direction) (p : Proc) : option (gmap string loc) :=
  match d with
  | DirStdin => stdinChs p | DirStdout => stdoutChs p | DirStderr => stderrChs p
  end.

Definition set_chs (d : direction) (m : option (gmap string loc)) (p : Proc) : Proc :=
  match d with
  | DirStdin =>
      mkProc (proc p) (process p) (stdinPipe p) m (stdoutPipe p) (stdoutChs p)
             (stderrPipe p) (stderrChs p) (group p) (workerPool p) (cancel p) (options p)
  | DirStdout =>
      mkProc (proc p) (process p) (stdinPipe p) (stdinChs p) (stdoutPipe p) m
             (stderrPipe p) (stderrChs p) (group p) (workerPool p) (cancel p) (options p)
  | DirStderr =>
      mkProc (proc p) (process p) (stdinPipe p) (stdinChs p) (stdoutPipe p) (stdoutChs p)
             (stderrPipe p) m (group p) (workerPool p) (cancel p) (options p)
  end.

Definition set_proc (pid : Z) (p : Proc) : Proc :=
  mkProc (Some pid) (process p) (stdinPipe p) (stdinChs p) (stdoutPipe p) (stdoutChs p)
         (stderrPipe p) (stderrChs p) (group p) (workerPool p) (cancel p) (options p).

Definition set_process (pid : Z) (p : Proc) : Proc :=
  mkProc (proc p) (Some pid) (stdinPipe p) (stdinChs p) (stdoutPipe p) (stdoutChs p)
         (stderrPipe p) (stderrChs p) (group p) (workerPool p) (cancel p) (options p).

(** [func NewProc(ctx context.Context, procOptions ...Option)], returning
    the new Proc or an error (proc.go lines 20-84).  The pipes, the registries, the group and the
    pool are set up from the local [opts]; the [options] field of the new
    Proc is not assigned and keeps its zero value. *)
Definition NewProc (w : World) (procOptions : list Option) : error + Proc :=
  let opts := apply_options procOptions in
  let open (on : bool) (res : option error) (k : bool -> error + Proc) :=
    if on then match res with Some err => inl err | None => k true end
    else k false in
  open (Stdin opts) (cmd_StdinPipe w) (fun stdin =>
  open (Stdout opts) (cmd_StdoutPipe w) (fun stdout =>
  open (Stderr opts) (cmd_StderrPipe w) (fun stderr =>
  let chs (on : bool) : option (gmap string loc) :=
    if on then Some ∅ else None in
  let any := Stdin opts || Stdout opts || Stderr opts in
  open any (ants_NewPool w) (fun pool =>
  inr (mkProc None None
              stdin (chs stdin) stdout (chs stdout) stderr (chs stderr)
              any pool true zero_Options))))).

(** [func (p *Proc) PID() int] *)
Definition PID (p : Proc) : Z :=
  match proc p with
  | None => -1
  | Some pid => pid
  end.

(** [fmt.Sprintf("bind pipe after process started: %s", name)] *)
Definition bind_after_start (name : string) : string :=
  String.append "bind pipe after process started: " name.

(** [ch := MakeChannel[[]byte](0)]: a new stream at an unused address. *)
Definition new_stream : M Sys loc :=
  fun s =>
    match MakeChannel 0 with
    | Ret c =>
        let l := fresh (dom (heap s)) in
        (mkSys (self s) (<[l := c]> (heap s)) (log s), Ret l)
    | Panic msg => (s, Panic msg)
    | Block => (s, Block)
    end.

(** The body shared, word for word but for the direction, by [StdinPipe],
    [StdoutPipe] and [StderrPipe]; [not_started] is the value [p.PID()] is
    compared with. *)
Definition bind_pipe (not_started : Z) (d : direction) (name : string)
    : M Sys (option loc) :=
  let* s := get in
  if negb (PID (self s) =? not_started) then panic (bind_after_start name)
  else if negb (enabled d (options (self s))) then ret None
  else
    let* l := new_stream in
    match chs_of d (self s) with
    | None => panic "assignment to entry in nil map"
    | Some m =>
        run set_self (set_chs d (Some (<[name := l]> m))) then
        ret (Some l)
    end.

(** helper.go, second part, lines 126-172: [if p.PID() != -1 { panic(...) }] *)
Definition StdinPipe : string -> M Sys (option loc) := bind_pipe (-1) DirStdin.
Definition StdoutPipe : string -> M Sys (option loc) := bind_pipe (-1) DirStdout.
Definition StderrPipe : string -> M Sys (option loc) := bind_pipe (-1) DirStderr.

Definition bind_of (d : direction) : string -> M Sys (option loc) :=
  match d with
  | DirStdin => StdinPipe | DirStdout => StdoutPipe | DirStderr => StderrPipe
  end.

Module PipeGoBind.
(** pipe.go lines 13-58: [if p.PID() != 0 { panic(...) }] *)
Definition StdinPipe : string -> M Sys (option loc) := bind_pipe 0 DirStdin.
Definition StdoutPipe : string -> M Sys (option loc) := bind_pipe 0 DirStdout.
Definition StderrPipe : string -> M Sys (option loc) := bind_pipe 0 DirStderr.

Definition bind_of (d : direction) : string -> M Sys (option loc) :=
  match d with
  | DirStdin => StdinPipe | DirStdout => StdoutPipe | DirStderr => StderrPipe
  end.
End PipeGoBind.

(** [p.group.Go(f)] *)
Definition group_Go (t : task) : M Sys unit :=
  let* s := get in
  if group (self s) then emit (EvGo t) else panic nil_deref.

(** [for name, ch := range m]; a range over the nil map has no round.  Go
    leaves the order open; the model visits the entries in the order of
    [map_to_list]. *)
Definition range_chs (m : option (gmap string loc)) : list (string * loc) :=
  match m with
  | None => []
  | Some m => map_to_list m
  end.

(** [func (p *Proc) listenStdinPipe(ctx context.Context)] *)
Definition listenStdinPipe : M Sys unit :=
  let* s := get in
  if negb (Stdin (options (self s))) then ret tt
  else
    for_each (range_chs (stdinChs (self s)))
             (fun entry => group_Go (StdinWriter (fst entry) (snd entry))).

(** [listenStdoutPipe] and [listenStderrPipe], each calling
    [p.listenOutStream], which starts with [p.group.Go]. *)
Definition listenOutPipe (d : direction) : M Sys unit :=
  let* s := get in
  if negb (enabled d (options (self s))) then ret tt
  else group_Go (OutReader d).

Definition listenStdoutPipe : M Sys unit := listenOutPipe DirStdout.
Definition listenStderrPipe : M Sys unit := listenOutPipe DirStderr.

(** [func (p *Proc) start() error] *)
Definition start (w : World) : M Sys (option error) :=
  let* s := get in
  let pid := PID (self s) in
  let* failed :=
    (if 0 <=? pid then
       match process_NewProcess w with
       | Some err => ret (Some err)
       | None => run set_self (set_process pid) then ret None
       end
     else ret None) in
  match failed with
  | Some err => ret (Some err)
  | None =>
      run listenStdinPipe then
      run listenStdoutPipe then
      run listenStderrPipe then
      ret None
  end.

(** [func (p *Proc) Start() error] *)
Definition Start (w : World) : M Sys (option error) :=
  match cmd_Start w with
  | inl err => ret (Some err)
  | inr pid =>
      run set_self (set_proc pid) then
      run emit (EvSpawn pid) then
      start w
  end.

(** [stream.Close()] on the stream at address [l]. *)
Definition stream_Close (l : loc) : M Sys unit :=
  fun s =>
    match heap s !! l with
    | None => (s, Panic nil_deref)
    | Some c =>
        let '(c', r) := Close c in
        (mkSys (self s) (<[l := c']> (heap s)) (log s ++ [EvCloseStream l]), r)
    end.

(** [for _, stream := range p.stdinChs { stream.Close() }] and the like. *)
Definition close_streams (d : direction) : M Sys unit :=
  let* s := get in
  for_each (range_chs (chs_of d (self s))) (fun entry => stream_Close (snd entry)).

(** [p.stdinPipe.Close()] and the like: a method call on an interface
    value, which panics when the value is nil.  The error it returns is
    dropped by the caller. *)
Definition close_pipe (d : direction) : M Sys unit :=
  let* s := get in
  if pipe_of d (self s) then emit (EvClosePipe d) else panic nil_deref.

(** [defer d] before [body]: [d] runs when [body] returns or panics, and a
    panic of [d] replaces the outcome. *)
Definition defer {A} (d : M Sys unit) (body : M Sys A) : M Sys A :=
  fun s =>
    match body s with
    | (s', Ret a) =>
        match d s' with
        | (s'', Ret _) => (s'', Ret a)
        | (s'', Panic msg) => (s'', Panic msg)
        | (s'', Block) => (s'', Block)
        end
    | (s', Panic msg) =>
        match d s' with
        | (s'', Ret _) => (s'', Panic msg)
        | (s'', Panic msg') => (s'', Panic msg')
        | (s'', Block) => (s'', Block)
        end
    | (s', Block) => (s', Block)
    end.

(** [p.workerPool.Release()]: a method with a pointer receiver, which
    faults on the nil pool when it runs. *)
Definition pool_Release : M Sys unit :=
  let* s := get in
  if workerPool (self s) then emit EvPoolRelease else panic nil_deref.

(** The first non-nil error a task of the group returned. *)
Fixpoint first_error (rs : list (option error)) : option error :=
  match rs with
  | [] => None
  | Some err :: _ => Some err
  | None :: rest => first_error rest
  end.

(** [p.group.Wait()]: waits for every task of the group. *)
Definition group_Wait (w : World) : M Sys (option error) :=
  let* s := get in
  if group (self s) then
    run emit EvGroupWait then
    if group_stuck w then block else ret (first_error (group_returned w))
  else panic nil_deref.

(** The end of [close] when a maximal wait is set:
    [go func() { done <- p.cmd.Wait(); close(done) }()] and the select
    between [time.After(p.options.MaxWaitTime)] and [<-done]. *)
Definition wait_exit (w : World) (maxWait : Duration) : M Sys (option error) :=
  run emit EvCmdWait then
  match select [time_After maxWait; cmd_Wait_at w] (select_pick w) with
  | Ret (0%nat, _) => ret (Some DeadlineExceeded)
  | Ret (_, _) => ret (cmd_Wait_err w)
  | Panic msg => panic msg
  | Block => block
  end.

(** The last step of [close], from [if p.options.MaxWaitTime == 0] on. *)
Definition final_wait (w : World) : M Sys (option error) :=
  let* s := get in
  if MaxWaitTime (options (self s)) =? 0 then group_Wait w
  else wait_exit w (MaxWaitTime (options (self s))).

(** [p.cancel()] *)
Definition do_cancel : M Sys unit :=
  let* s := get in
  if cancel (self s) then emit EvCancel else panic nil_deref.

(** [func (p *Proc) close() error] (proc.go lines 162-196) *)
Definition close (w : World) : M Sys (option error) :=
  run close_streams DirStdin then
  run close_pipe DirStdin then
  run close_streams DirStdout then
  run close_pipe DirStdout then
  run close_streams DirStderr then
  run close_pipe DirStderr then
  defer pool_Release
    (run do_cancel then final_wait w).

(** [func (p *Proc) Signal(signal syscall.Signal) error] *)
Definition Signal (w : World) (sig : Signal_t) : M Sys (option error) :=
  let* s := get in
  match proc (self s) with
  | None => ret None
  | Some _ => run emit (EvSignal sig) then ret (proc_Signal w sig)
  end.

(** The body shared by [Terminate], [Interrupt] and [Kill]. *)
Definition close_then_signal (w : World) (sig : Signal_t) : M Sys (option error) :=
  let* s := get in
  match proc (self s) with
  | None => ret None
  | Some _ =>
      let* closeErr := close w in
      let* signalErr := Signal w sig in
      ret (errors_Join [closeErr; signalErr])
  end.

(** [func (p *Proc) Terminate() error] *)
Definition Terminate (w : World) : M Sys (option error) := close_then_signal w SIGTERM.
(** [func (p *Proc) Interrupt() error] *)
Definition Interrupt (w : World) : M Sys (option error) := close_then_signal w SIGINT.
(** [func (p *Proc) Kill() error] *)
Definition Kill (w : World) : M Sys (option error) := close_then_signal w SIGKILL.

(** The three shutdown calls and the signal each one sends. *)
Inductive shutdown_call : Type := CallTerminate | CallInterrupt | CallKill.

Definition shutdown (call : shutdown_call) : World -> M Sys (option error) :=
  match call with
  | CallTerminate => Terminate | CallInterrupt => Interrupt | CallKill => Kill
  end.

Definition signal_of (call : shutdown_call) : Signal_t :=
  match call with
  | CallTerminate => SIGTERM | CallInterrupt => SIGINT | CallKill => SIGKILL
  end.

(** A new Proc with nothing on the heap and nothing done yet. *)
Definition fresh_sys (p : Proc) : Sys := mkSys p ∅ [].

(** Every registered stream is on the heap and no goroutine is inside one
    of its methods. *)
Definition registered (s : Sys) (l : loc) : Prop :=
  exists d m name, chs_of d (self s) = Some m /\ m !! name = Some l.

Definition well_formed (s : Sys) : Prop :=
  forall l, registered s l ->
    exists c, heap s !! l = Some c /\ quiescent c.

(** All three pipes, the pool, the group and the cancel function are set. *)
Definition all_set (p : Proc) : Prop :=
  stdinPipe p = true /\ stdoutPipe p = true /\ stderrPipe p = true /\
  workerPool p = true /\ group p = true /\ cancel p = true.

Definition is_signal (e : event) : bool :=
  match e with EvSignal _ => true | _ => false end.

(* ===================================================================== *)
(** ** Inputs and predicates the statements below are about *)
(* ===================================================================== *)

(** [MakeChannel[int](2)] after [TrySend(7)] and [TrySend(8)]. *)
Definition two_buffered : Channel Z :=
  mkChannel (mkAtomic false false) (mkChan 2 [7; 8] false).

(** The same channel after [Close()]. *)
Definition two_buffered_closed : Channel Z :=
  mkChannel (mkAtomic false true) (mkChan 2 [7; 8] true).

(** [MakeChannel[int](0)], closed. *)
Definition unbuffered : Channel Z :=
  mkChannel (mkAtomic false false) (mkChan 0 [] false).

Definition unbuffered_closed : Channel Z :=
  mkChannel (mkAtomic false true) (mkChan 0 [] true).

(** The schedule: the sender runs [c.closed.Load()] and finds the flag
    false; the closer runs its own Load, takes the mutex and closes the
    run-time channel; the sender then runs [c.ch <- v]. *)
Definition close_during_send : list goroutine :=
  [Sender; Sender; Sender; Closer; Closer; Closer; Closer; Closer; Sender].

(** The case can proceed only after the deadline, or never. *)
Definition after_deadline (at_ : option Z) : Prop :=
  match at_ with
  | None => True
  | Some t => dispatch_deadline < t
  end.

(** A round that goes through: the context is not done and the pool takes
    the task of every subscriber. *)
Definition passes (names : list string) (t : tick) : Prop :=
  tick_ctx t = None /\ forall n, In n names -> tick_submit t n = None.

(** The tasks of a round that goes through: one per subscriber, each with
    the bytes of that round. *)
Definition tasks_of (names : list string) (t : tick) : list (string * bytes) :=
  map (fun n => (n, tick_bytes t)) names.

(** A chunk, the two bytes of "hi", and a round that reads it and goes
    through. *)
Definition chunk_hi : bytes := [Byte.x68; Byte.x69].

Definition good_round : tick := mkTick chunk_hi None (fun _ => None).

(** The stream [MakeChannel[[]byte](0)] returns. *)
Definition empty_stream : Stream :=
  mkChannel (mkAtomic false false) (mkChan 0 [] false).

(** Every stream nobody is inside of in [h] is still there, and nobody is
    inside of it, in [h']. *)
Definition quiet_heap_le (h h' : gmap loc Stream) : Prop :=
  forall l c, h !! l = Some c -> quiescent c ->
    exists c', h' !! l = Some c' /\ quiescent c'.

(** The events of closing the streams of a direction. *)
Definition stream_events (d : direction) (p : Proc) : list event :=
  map (fun entry => EvCloseStream (snd entry)) (range_chs (chs_of d p)).

(** How the last step of [close] ends for a Proc with a group. *)
Definition final_result (w : World) (p : Proc) : outcome (option error) :=
  if MaxWaitTime (options p) =? 0 then
    if group_stuck w then Block else Ret (first_error (group_returned w))
  else
    match select [time_After (MaxWaitTime (options p)); cmd_Wait_at w]
                 (select_pick w) with
    | Ret (0%nat, _) => Ret (Some DeadlineExceeded)
    | Ret (_, _) => Ret (cmd_Wait_err w)
    | Panic msg => Panic msg
    | Block => Block
    end.

(** The events of a [close] that gets through its steps: the streams and
    the pipe of each direction, the cancellation, the wait, and the release
    of the pool unless the wait parks for ever. *)
Definition shutdown_events (w : World) (p : Proc) : list event :=
  stream_events DirStdin p ++ [EvClosePipe DirStdin] ++
  stream_events DirStdout p ++ [EvClosePipe DirStdout] ++
  stream_events DirStderr p ++ [EvClosePipe DirStderr] ++
  [EvCancel;
   if MaxWaitTime (options p) =? 0 then EvGroupWait else EvCmdWait] ++
  match final_result w p with
  | Block => []
  | _ => [EvPoolRelease]
  end.

(** A world in which every call of a collaborator succeeds, the child gets
    the process id 4242, the tasks of the group have all returned nil, and
    the child exits one millisecond after [close] starts to wait for it. *)
Definition calm_world : World :=
  mkWorld None None None None (inr 4242) None [None; None] false
          (Some 1000000) None 0 (fun _ => None).

(** The Proc of TestTerminateProcess and TestKillProcess (proc_test.go):
    [NewProc(ctx, WithCommand("bash", "-c", sh))], no direction enabled. *)
Definition plain_options : list Option := [WithCommand "bash" ["-c"; "sh"]].

Definition plain_proc : Proc :=
  mkProc None None false None false None false None false false true zero_Options.

(** A Proc with the three directions enabled in its options and set up. *)
Definition piped_proc : Proc :=
  mkProc None None true (Some ∅) true (Some ∅) true (Some ∅) true true true
         (WithStderr (WithStdout (WithStdin zero_Options))).

(** The same with a maximal wait of one second. *)
Definition piped_proc_1s : Proc :=
  mkProc None None true (Some ∅) true (Some ∅) true (Some ∅) true true true
         (WithMaxWaitTime Second (WithStderr (WithStdout (WithStdin zero_Options)))).

(** [piped_proc] after [Start()] in [calm_world]: no subscriber was bound,
    so the group got the two readers only. *)
Definition started_piped : Sys :=
  mkSys (set_process 4242 (set_proc 4242 piped_proc)) ∅
        [EvSpawn 4242; EvGo (OutReader DirStdout); EvGo (OutReader DirStderr)].

(** [plain_proc] after [Start()] in [calm_world]. *)
Definition started_plain : Sys :=
  mkSys (set_process 4242 (set_proc 4242 plain_proc)) ∅ [EvSpawn 4242].

(** Nothing but the spawn and closes of pipes. *)
Definition spawn_or_pipe_close (e : event) : bool :=
  match e with
  | EvSpawn _ | EvClosePipe _ => true
  | _ => false
  end.

(** [piped_proc_1s] after [Start()]. *)
Definition started_piped_1s : Sys :=
  mkSys (set_process 4242 (set_proc 4242 piped_proc_1s)) ∅
        [EvSpawn 4242; EvGo (OutReader DirStdout); EvGo (OutReader DirStderr)].

(** A world like [calm_world] in which the child never exits by itself. *)
Definition stubborn_world : World :=
  mkWorld None None None None (inr 4242) None [None; None] false
          None None 0 (fun _ => None).

(** A world in which the child has exited when [close] waits for it, a
    task of the group has failed, and the signal cannot be delivered. *)
Definition failing_world : World :=
  mkWorld None None None None (inr 4242) None
          [None; Some (Wrapped "out" ErrTooLong)] false
          (Some 5) None 0 (fun _ => Some (ErrOther "os: process already finished")).

(** [NewProc(ctx, WithCommand(...), WithStdin(), WithStdout(), WithStderr())]:
    the options asked for, the Proc NewProc builds from them, and that Proc
    after [Start()] in [calm_world]. *)
Definition every_direction : list Option :=
  [WithCommand "bash" ["-c"; "sh"]; WithStdin; WithStdout; WithStderr].

Definition new_piped : Proc :=
  mkProc None None true (Some ∅) true (Some ∅) true (Some ∅) true true true
         zero_Options.

Definition started_new_piped : Sys :=
  mkSys (set_process 4242 (set_proc 4242 new_piped)) ∅ [EvSpawn 4242].

(** The Proc of TestProc_StdoutPipe (pipe_test.go):
    [NewProc(ctx, WithCommand("echo", "hello world"), WithStdout())]. *)
Definition echo_options : list Option :=
  [WithCommand "echo" ["hello world"]; WithStdout].

Definition echo_proc : Proc :=
  mkProc None None false None true (Some ∅) false None true true true zero_Options.

(* ===================================================================== *)
(** ** Sequences of calls on one channel *)
(* ===================================================================== *)

(** The channel [c] with [b] as its buffered items. *)
Definition with_buf {T} (b : list T) (c : Channel T) : Channel T :=
  mkChannel (closed c) (mkChan (chan_cap (ch c)) b (chan_closed (ch c))).

Section ChannelUse.
Context {T : Type}.
Variable zero : T.

(** A call of one method of a channel, its result dropped. *)
Inductive chan_op : Type :=
  | OpTrySend (v : T)
  | OpSend (v : T)
  | OpTryRecv
  | OpRecv
  | OpClosed
  | OpClose.

Definition exec_op (o : chan_op) : M (Channel T) unit :=
  match o with
  | OpTrySend v => let* _ := TrySend v in ret tt
  | OpSend v => Send v
  | OpTryRecv => let* _ := TryRecv zero in ret tt
  | OpRecv => let* _ := Recv zero in ret tt
  | OpClosed => let* _ := Closed in ret tt
  | OpClose => Close
  end.

(** The calls [os], one after the other, by one goroutine. *)
Fixpoint exec_ops (os : list chan_op) : M (Channel T) unit :=
  match os with
  | [] => ret tt
  | o :: rest => run exec_op o then exec_ops rest
  end.

(** [TrySend(v)] for every [v] of [vs] in turn, with the results. *)
Fixpoint TrySend_all (vs : list T) : M (Channel T) (list bool) :=
  match vs with
  | [] => ret []
  | v :: rest =>
      let* ok := TrySend v in let* oks := TrySend_all rest in ret (ok :: oks)
  end.

(** Nobody is inside the channel and the buffer is within the capacity. *)
Definition chan_inv (c : Channel T) : Prop :=
  quiescent c /\ (length (chan_buf (ch c)) <= chan_cap (ch c))%nat.

End ChannelUse.

Arguments chan_op T : clear implicits.

(** [MakeChannel[int](3)] with 7 buffered. *)
Definition one_of_three : Channel Z :=
  mkChannel (mkAtomic false false) (mkChan 3 [7] false).

(* ===================================================================== *)
(** ** More about goroutines racing on one channel *)
(* ===================================================================== *)

(** The goroutine is inside [c.closed.Load()], holding the mutex. *)
Definition sender_in_Load (pc : send_pc) : bool :=
  match pc with
  | SendLoadLocked | SendLoadRead _ => true
  | _ => false
  end.

Definition closer_in_Load (pc : close_pc) : bool :=
  match pc with
  | CloseLoadLocked | CloseLoadRead _ => true
  | _ => false
  end.

(** What holds all along a race of Send and Close that starts on the
    channel [c0] with its flag set: the run-time channel is as in [c0], the
    flag stays set, the mutex is held exactly by the goroutine that is
    inside Load, and either goroutine is before, inside or after its
    Load, having read true. *)
Definition closed_race_ok {T} (c0 : Channel T) (s : race T) : Prop :=
  ch (shared s) = ch c0 /\
  val (closed (shared s)) = true /\
  Locker (closed (shared s))
  = (sender_in_Load (sender s) || closer_in_Load (closer s)) /\
  (sender_in_Load (sender s) && closer_in_Load (closer s)) = false /\
  (sender s = SendEntry \/ sender s = SendLoadLocked \/
   sender s = SendLoadRead true \/ sender s = SendReturned false) /\
  (closer s = CloseEntry \/ closer s = CloseLoadLocked \/
   closer s = CloseLoadRead true \/ closer s = CloseReturned).

Section Closers.
Context {T : Type}.

(** Two goroutines, each running [Close()] on the same channel. *)
Record closers : Type := mkClosers {
  both_shared : Channel T;
  first_closer : close_pc;
  second_closer : close_pc
}.

(** The next atomic action of a goroutine running [Close()] at [pc] on
    [c]: the action [step_closer] takes, whatever the sender does. *)
Definition close_step (c : Channel T) (pc : close_pc)
    : option (Channel T * close_pc) :=
  match step_closer (mkRace c SendEntry pc) with
  | Some r => Some (shared r, closer r)
  | None => None
  end.

(** One action of the second closer when [second], of the first otherwise. *)
Definition step_closers (second : bool) (s : closers) : option closers :=
  if second then
    match close_step (both_shared s) (second_closer s) with
    | Some (c, pc) => Some (mkClosers c (first_closer s) pc)
    | None => None
    end
  else
    match close_step (both_shared s) (first_closer s) with
    | Some (c, pc) => Some (mkClosers c pc (second_closer s))
    | None => None
    end.

Fixpoint schedule_closers (gs : list bool) (s : closers) : option closers :=
  match gs with
  | [] => Some s
  | g :: rest =>
      match step_closers g s with
      | Some s' => schedule_closers rest s'
      | None => None
      end
  end.

Definition closers_start (c : Channel T) : closers :=
  mkClosers c CloseEntry CloseEntry.

End Closers.

Arguments closers T : clear implicits.

(** Both closers run their Load and find the flag false; the first then
    closes the run-time channel; the second takes the mutex after it and
    closes again. *)
Definition close_during_close : list bool :=
  [false; false; false; true; true; true; false; false; false; true; true].

(* ===================================================================== *)
(** ** pipe.go: the writer of a stdin subscriber *)
(* ===================================================================== *)

(** One round of the [for { ... }] loop in the function [listenStdinPipe]
    gives to [p.group.Go] for a subscriber: what the context shows when the
    round tests it, what [stdinCh.Recv()] returns ([None]: it never
    returns), and the error of [p.stdinPipe.Write(bs)]. *)
Record stdin_round : Type := mkStdinRound {
  in_ctx : ctx_state;
  in_recv : option (bytes * bool);
  in_write : option error
}.

(** The function given to [p.group.Go] by [listenStdinPipe] (helper.go,
    second part, lines 180-200) for the subscriber [name].  The result is
    the chunks given to [p.stdinPipe.Write], in order, and how the function
    ends; after the last of [rounds] nothing more arrives, and the function
    is left in [Recv]. *)
Fixpoint stdin_writer (name : string) (rounds : list stdin_round)
    : list bytes * outcome (option error) :=
  match rounds with
  | [] => ([], Block)
  | r :: rest =>
      let '(done, err) := isCtxDone (in_ctx r) in
      if done then ([], Ret err)
      else
        match in_recv r with
        | None => ([], Block)
        | Some (bs, ok) =>
            if negb ok then ([], Ret None)
            else
              match in_write r with
              | Some err => ([bs], Ret (Some (Errorf name err)))
              | None =>
                  let '(written, res) := stdin_writer name rest in
                  (bs :: written, res)
              end
        end
  end.

(** A round in which the chunk [bs] is received and written. *)
Definition feeds (r : stdin_round) (bs : bytes) : Prop :=
  in_ctx r = None /\ in_recv r = Some (bs, true) /\ in_write r = None.

(** A chunk, the two bytes of "ok". *)
Definition chunk_ok : bytes := [Byte.x6f; Byte.x6b].

(* ===================================================================== *)
(** ** What close leaves on the heap, and what Start hands to the group *)
(* ===================================================================== *)

(** The stream [c] once [Close()] has returned on it. *)
Definition closed_of (c : Stream) : Stream :=
  mkChannel (mkAtomic false true)
            (mkChan (chan_cap (ch c)) (chan_buf (ch c)) true).

Definition close_at (h : gmap loc Stream) (l : loc) : gmap loc Stream :=
  match h !! l with
  | Some c => <[l := closed_of c]> h
  | None => h
  end.

(** The heap after [Close()] on the streams at [locs], in turn. *)
Definition close_all (locs : list loc) (h : gmap loc Stream) : gmap loc Stream :=
  fold_left close_at locs h.

(** The streams of a direction, in the order of the range over them. *)
Definition locs_of (d : direction) (p : Proc) : list loc :=
  map snd (range_chs (chs_of d p)).

(** The streams [close] ranges over, in its order. *)
Definition registered_locs (p : Proc) : list loc :=
  locs_of DirStdin p ++ locs_of DirStdout p ++ locs_of DirStderr p.

(** What [start] hands to the group: a writer for every stdin subscriber
    when stdin is enabled, and a reader for each enabled output. *)
Definition launches (p : Proc) : list event :=
  (if Stdin (options p)
   then map (fun entry => EvGo (StdinWriter (fst entry) (snd entry)))
            (range_chs (stdinChs p))
   else []) ++
  (if Stdout (options p) then [EvGo (OutReader DirStdout)] else []) ++
  (if Stderr (options p) then [EvGo (OutReader DirStderr)] else []).

(** The Proc after a spawn that gave [pid]. *)
Definition spawned (pid : Z) (p : Proc) : Proc :=
  if 0 <=? pid then set_process pid (set_proc pid p) else set_proc pid p.

(** A world in which the child is spawned but its process information
    cannot be read. *)
Definition no_info_world : World :=
  mkWorld None None None None (inr 4242) (Some (ErrOther "process does not exist"))
          [] false None None 0 (fun _ => None).

(** A world in which the stdout pipe cannot be made. *)
Definition no_stdout_world : World :=
  mkWorld None (Some (ErrOther "exec: Stdout already set")) None
          (Some (ErrOther "pool")) (inr 4242) None [] false None None 0 (fun _ => None).

(** [piped_proc] with a stdin subscriber "in" bound at address 0. *)
Definition bound_sys : Sys :=
  mkSys (set_chs DirStdin (Some (<["in" := 0%nat]> ∅)) piped_proc)
        (<[0%nat := empty_stream]> ∅) [].

(** [bound_sys] after [Start()] in [calm_world]: the child runs, the group
    has the writer of "in" and the two readers. *)
Definition started_bound : Sys :=
  mkSys (set_process 4242 (set_proc 4242 (self bound_sys))) (heap bound_sys)
        [EvSpawn 4242; EvGo (StdinWriter "in" 0%nat);
         EvGo (OutReader DirStdout); EvGo (OutReader DirStderr)].

(* ===================================================================== *)
(** ** options.go: the environment, and the options as a family *)
(* ===================================================================== *)

(** [fmt.Sprintf("%s=%s", k, v)] *)
Definition env_entry (kv : string * string) : string :=
  String.append (fst kv) (String.append "=" (snd kv)).

(** [func WithEnv(env map[string]string) Option] (options.go 41-49):
    [envs] starts as the nil slice, gets one entry for each round of the
    range over [env], and replaces [opts.Env].  Go leaves the order of the
    range open; the model visits the entries in the order of
    [map_to_list]. *)
Definition WithEnv (env : gmap string string) : Option :=
  fun o => mkOptions (Name o) (Args o) (WorkDir o)
                     (map env_entry (map_to_list env))
                     (Stdin o) (Stdout o) (Stderr o) (MaxWaitTime o).

(** The options that options.go can build. *)
Definition from_options_go (opt : Option) : Prop :=
  (exists name args, opt = WithCommand name args) \/
  (exists dir, opt = WithWorkDir dir) \/
  (exists env, opt = WithEnv env) \/
  opt = WithStdin \/ opt = WithStdout \/ opt = WithStderr \/
  (exists t, opt = WithMaxWaitTime t).

(** [for _, opt := range procOptions { opt(&opts) }] from given options. *)
Definition apply_from (opts : Options) (procOptions : list Option) : Options :=
  fold_left (fun o opt => opt o) procOptions opts.

(** Options in which a direction is asked for twice and the maximal wait
    is set twice. *)
Definition repeated_options : list Option :=
  [WithMaxWaitTime (5 * Second); WithStdout; WithCommand "echo" ["hi"];
   WithMaxWaitTime Second; WithStdout].

(** What a shutdown call that gets through [close] adds to the log, and
    how it ends, on a Proc that has all its parts. *)
Definition shutdown_log (call : shutdown_call) (w : World) (p : Proc) : list event :=
  shutdown_events w p ++
  match final_result w p with
  | Ret _ => [EvSignal (signal_of call)]
  | _ => []
  end.

Definition shutdown_result (call : shutdown_call) (w : World) (p : Proc)
    : outcome (option error) :=
  match final_result w p with
  | Ret closeErr => Ret (errors_Join [closeErr; proc_Signal w (signal_of call)])
  | Panic msg => Panic msg
  | Block => Block
  end.

(** [func (p *Proc) Name() string] (proc.go 264-266) *)
Definition Proc_Name (p : Proc) : string := Name (options p).

(** [func (p *Proc) CMDLine() []string] (proc.go 269-271):
    [append([]string{p.Name()}, p.options.Args...)] *)
Definition CMDLine (p : Proc) : list string := [Proc_Name p] ++ Args (options p).

(* ===================================================================== *)
(** ** A Recv racing a Close *)
(* ===================================================================== *)

(** Where a goroutine running [Recv()] stands. *)
Inductive recv_pc (T : Type) : Type :=
  | RecvEntry                        (* at c.closed.Load(): Locker.Lock() *)
  | RecvLoadLocked                   (* in Load, mutex held, before reading val *)
  | RecvLoadRead (b : bool)          (* in Load, val read, before the deferred Unlock *)
  | RecvChan                         (* at rVal, ok := <-c.ch *)
  | RecvReturned (x : T) (ok : bool) (* Recv returned (x, ok) *)
  | RecvPanicked (msg : string).

Arguments RecvEntry {T}.
Arguments RecvLoadLocked {T}.
Arguments RecvLoadRead {T} b.
Arguments RecvChan {T}.
Arguments RecvReturned {T} x ok.
Arguments RecvPanicked {T} msg.

Section Receiver.
Context {T : Type}.
Variable zero : T.

(** One goroutine in [Recv()] and one in [Close()] on the same channel. *)
Record receiving : Type := mkReceiving {
  recv_shared : Channel T;
  receiver : recv_pc T;
  recv_closer : close_pc
}.

(** The next atomic action of the receiver; [None] when it has none (it is
    parked, or it has finished). *)
Definition step_receiver (s : receiving) : option receiving :=
  let c := recv_shared s in
  match receiver s with
  | RecvEntry =>
      match Lock (closed c) with
      | (a, Ret _) => Some (mkReceiving (with_flag a c) RecvLoadLocked (recv_closer s))
      | _ => None
      end
  | RecvLoadLocked =>
      Some (mkReceiving c (RecvLoadRead (val (closed c))) (recv_closer s))
  | RecvLoadRead b =>
      match Unlock (closed c) with
      | (a, Ret _) =>
          Some (mkReceiving (with_flag a c)
                            (if b then RecvReturned zero false else RecvChan)
                            (recv_closer s))
      | (a, Panic msg) =>
          Some (mkReceiving (with_flag a c) (RecvPanicked msg) (recv_closer s))
      | _ => None
      end
  | RecvChan =>
      match chan_recv zero (ch c) with
      | (q, Ret (rVal, ok)) =>
          Some (mkReceiving (mkChannel (closed c) q)
                            (if negb ok then RecvReturned zero false
                             else RecvReturned rVal true)
                            (recv_closer s))
      | (q, Panic msg) =>
          Some (mkReceiving (mkChannel (closed c) q) (RecvPanicked msg) (recv_closer s))
      | (_, Block) => None
      end
  | RecvReturned _ _ | RecvPanicked _ => None
  end.

(** One action of the closer when [closer_moves], of the receiver
    otherwise. *)
Definition step_receiving (closer_moves : bool) (s : receiving) : option receiving :=
  if closer_moves then
    match close_step (recv_shared s) (recv_closer s) with
    | Some (c, pc) => Some (mkReceiving c (receiver s) pc)
    | None => None
    end
  else step_receiver s.

Fixpoint schedule_receiving (gs : list bool) (s : receiving) : option receiving :=
  match gs with
  | [] => Some s
  | g :: rest =>
      match step_receiving g s with
      | Some s' => schedule_receiving rest s'
      | None => None
      end
  end.

Definition receiving_start (c : Channel T) : receiving :=
  mkReceiving c RecvEntry CloseEntry.

Definition receiver_in_Load (pc : recv_pc T) : bool :=
  match pc with
  | RecvLoadLocked | RecvLoadRead _ => true
  | _ => false
  end.

(** The closer holds the mutex. *)
Definition closer_holds (pc : close_pc) : bool :=
  match pc with
  | CloseLoadLocked | CloseLoadRead _ | CloseChan | CloseUnlock
  | CloseStoreLocked | CloseStoreWritten => true
  | _ => false
  end.

(** The closer is past [close(c.ch)]. *)
Definition closer_closed (pc : close_pc) : bool :=
  match pc with
  | CloseUnlock | CloseStore | CloseStoreLocked | CloseStoreWritten
  | CloseReturned => true
  | _ => false
  end.

(** The closer is past the assignment in [c.closed.Store(true)]. *)
Definition closer_stored (pc : close_pc) : bool :=
  match pc with
  | CloseStoreWritten | CloseReturned => true
  | _ => false
  end.

(** The closer has not panicked, and found the flag false if it read it. *)
Definition closer_sane (pc : close_pc) : bool :=
  match pc with
  | ClosePanicked _ | CloseLoadRead true => false
  | _ => true
  end.

(** What holds all along a race of Recv and Close that starts on an open,
    idle channel with the items [buf0] buffered. *)
Definition receiving_ok (cap0 : nat) (buf0 : list T) (s : receiving) : Prop :=
  let c := recv_shared s in
  Locker (closed c)
  = (receiver_in_Load (receiver s) || closer_holds (recv_closer s)) /\
  (receiver_in_Load (receiver s) && closer_holds (recv_closer s)) = false /\
  val (closed c) = closer_stored (recv_closer s) /\
  chan_closed (ch c) = closer_closed (recv_closer s) /\
  chan_cap (ch c) = cap0 /\
  closer_sane (recv_closer s) = true /\
  match receiver s with
  | RecvLoadRead true =>
      closer_stored (recv_closer s) = true /\ chan_buf (ch c) = buf0
  | RecvReturned x true => buf0 = x :: chan_buf (ch c)
  | RecvReturned x false =>
      x = zero /\ closer_closed (recv_closer s) = true /\ chan_buf (ch c) = buf0
  | RecvPanicked _ => False
  | _ => chan_buf (ch c) = buf0
  end.

End Receiver.

Arguments receiving T : clear implicits.

(** The receiver runs its Load, finds the flag false and parks in the
    receive; the closer then runs the whole of Close; the receiver is
    released. *)
Definition close_during_recv : list bool :=
  [false; false; false;
   true; true; true; true; true; true; true; true; true;
   false].

(** [NewProc(ctx, WithCommand(...), WithStdin(), WithStdout(), WithStderr(),
    WithMaxWaitTime(time.Second))]: every direction and a maximal wait of
    one second are asked for. *)
Definition max_wait_options : list Option :=
  [WithCommand "bash" ["-c"; "sh"]; WithStdin; WithStdout; WithStderr;
   WithMaxWaitTime Second].

(** A world in which the child ignores what it is sent and never exits,
    and no task was handed to the group. *)
Definition ignoring_world : World :=
  mkWorld None None None None (inr 4242) None [] false
          None None 0 (fun _ => None).

(* ===================================================================== *)
(** * Properties *)
(* ===================================================================== *)

(** ** The monad *)

Lemma bind_Ret {S A B} (m : M S A) (k : A -> M S B) s s' a :
  m s = (s', Ret a) -> bind m k s = k a s'.
Proof. intros H. unfold bind. by rewrite H. Qed.

Lemma bind_Panic {S A B} (m : M S A) (k : A -> M S B) s s' msg :
  m s = (s', Panic msg) -> bind m k s = (s', Panic msg).
Proof. intros H. unfold bind. by rewrite H. Qed.

Lemma bind_Block {S A B} (m : M S A) (k : A -> M S B) s s' :
  m s = (s', Block) -> bind m k s = (s', Block).
Proof. intros H. unfold bind. by rewrite H. Qed.

Lemma bind_assoc {S A B C} (m : M S A) (k : A -> M S B) (k' : B -> M S C) s :
  bind (bind m k) k' s = bind m (fun a => bind (k a) k') s.
Proof. unfold bind. destruct (m s) as [s' [a| |]]; reflexivity. Qed.

(** The equations of the primitive actions under [bind]. *)
Lemma bind_ret {S A B} (a : A) (k : A -> M S B) s : bind (ret a) k s = k a s.
Proof. reflexivity. Qed.

Lemma bind_get {S B} (k : S -> M S B) s : bind get k s = k s s.
Proof. reflexivity. Qed.

Lemma bind_modify {S B} (f : S -> S) (k : unit -> M S B) s :
  bind (modify f) k s = k tt (f s).
Proof. reflexivity. Qed.

Lemma bind_panic {S A B} msg (k : A -> M S B) s :
  bind (panic msg) k s = (s, Panic msg).
Proof. reflexivity. Qed.

Lemma bind_block {S A B} (k : A -> M S B) s : bind block k s = (s, Block).
Proof. reflexivity. Qed.

Lemma bind_emit {B} (e : event) (k : unit -> M Sys B) s :
  bind (emit e) k s = k tt (mkSys (self s) (heap s) (log s ++ [e])).
Proof. reflexivity. Qed.

Lemma bind_set_self {B} (f : Proc -> Proc) (k : unit -> M Sys B) s :
  bind (set_self f) k s = k tt (mkSys (f (self s)) (heap s) (log s)).
Proof. reflexivity. Qed.

Create Rewrite HintDb go.
#[global] Hint Rewrite @bind_ret @bind_get @bind_modify @bind_panic @bind_block
  @bind_emit @bind_set_self : go.

(** ** Channel, one goroutine at a time *)

Section ChannelFacts.
Context {T : Type}.
Variable zero : T.
Implicit Types (c : Channel T) (v : T).

Lemma Closed_true c :
  snd (Closed c) = Ret true <->
  Locker (closed c) = false /\ val (closed c) = true.
Proof.
  destruct c as [[lk fl] q]; destruct lk, fl; simpl; split;
    (intros [??] || intros ?); try split; congruence.
Qed.

Lemma Close_when_closed c :
  Locker (closed c) = false -> val (closed c) = true ->
  Close c = (c, Ret tt).
Proof. destruct c as [[lk fl] q]; simpl; intros -> ->; reflexivity. Qed.

Lemma Close_returns c c' :
  Close c = (c', Ret tt) ->
  Locker (closed c') = false /\ val (closed c') = true /\
  chan_buf (ch c') = chan_buf (ch c) /\ chan_cap (ch c') = chan_cap (ch c).
Proof.
  destruct c as [[lk fl] [cp bf cl]]; destruct lk, fl, cl;
    cbv; intros H; inversion H; subst; auto.
Qed.

Lemma Close_quiescent c :
  quiescent c ->
  exists c', Close c = (c', Ret tt) /\ quiescent c' /\
             val (closed c') = true /\ chan_buf (ch c') = chan_buf (ch c).
Proof.
  destruct c as [[lk fl] [cp bf cl]]; intros [Hl Hv]; simpl in *; subst.
  destruct cl; eexists; (split; [reflexivity|]); cbv; auto.
Qed.

Lemma Close_times_when_closed n c :
  Locker (closed c) = false -> val (closed c) = true ->
  Close_times n c = (c, Ret tt).
Proof.
  intros Hl Hv. induction n as [|n IH]; [reflexivity|].
  simpl. rewrite (bind_Ret _ _ _ _ _ (Close_when_closed c Hl Hv)). exact IH.
Qed.

Lemma Close_times_S n c : Close_times (S n) c = Close c.
Proof.
  simpl. unfold bind. destruct (Close c) as [c' [[]| |]] eqn:E; try reflexivity.
  destruct (Close_returns _ _ E) as (Hl & Hv & _).
  apply Close_times_when_closed; assumption.
Qed.

Lemma Recv_when_closed c :
  Locker (closed c) = false -> val (closed c) = true ->
  Recv zero c = (c, Ret (zero, false)) /\ TryRecv zero c = (c, Ret (zero, false)).
Proof. destruct c as [[lk fl] q]; simpl; intros -> ->; split; reflexivity. Qed.

Lemma Send_when_closed v c :
  Locker (closed c) = false -> val (closed c) = true ->
  TrySend v c = (c, Ret false) /\ Send v c = (c, Ret tt).
Proof. destruct c as [[lk fl] q]; simpl; intros -> ->; split; reflexivity. Qed.

Lemma TrySend_full v c :
  quiescent c -> has_room (ch c) = false -> TrySend v c = (c, Ret false).
Proof.
  destruct c as [[lk fl] [cp bf cl]]; intros [Hl Hv] Hr; simpl in *; subst.
  unfold TrySend, bind, on_closed, on_ch, zoom, chan_send_default; simpl.
  destruct cl; [reflexivity|]. simpl. rewrite Hr. reflexivity.
Qed.

(** C8.  Calling Close() N > 1 times one after the other leaves the
    channel exactly as one call does (the flag, the buffered items, the
    run-time channel), ends the same way, and so any operation that comes
    next behaves the same: the calls after the first change nothing. *)
Theorem Close_idempotent (N : nat) c :
  (1 < N)%nat ->
  Close_times N c = Close c /\
  (forall A (next : M (Channel T) A),
      bind (Close_times N) (fun _ => next) c = bind Close (fun _ => next) c) /\
  (forall c', Close c = (c', Ret tt) -> Close c' = (c', Ret tt)).
Proof.
  intros HN. destruct N as [|n]; [lia|].
  split; [apply Close_times_S|]. split.
  - intros A next. unfold bind. rewrite Close_times_S. reflexivity.
  - intros c' E. destruct (Close_returns _ _ E) as (Hl & Hv & _).
    by apply Close_when_closed.
Qed.

(** C3, as the code has it.  Once Close() has returned, every Recv() and
    TryRecv() that follows returns at once with the zero value and the
    flag false, whether or not items are still buffered; the buffered
    items stay in the queue and are never handed out. *)
Theorem Recv_after_Close c c' (ks : list recv_kind) :
  Close c = (c', Ret tt) ->
  recv_all zero ks c' = (c', Ret (map (fun _ => (zero, false)) ks)) /\
  chan_buf (ch c') = chan_buf (ch c).
Proof.
  intros E. destruct (Close_returns _ _ E) as (Hl & Hv & Hb & _).
  split; [|exact Hb].
  destruct (Recv_when_closed c' Hl Hv) as [HR HT].
  induction ks as [|k ks IH]; [reflexivity|].
  simpl. assert (Hk : recv_by zero k c' = (c', Ret (zero, false))).
  { destruct k; assumption. }
  rewrite (bind_Ret _ _ _ _ _ Hk), (bind_Ret _ _ _ _ _ IH). reflexivity.
Qed.

(** C4, as the code has it.  On a channel that is already closed TrySend(v)
    returns false and Send(v) returns (it has no result), both at once and
    without enqueuing v; and TrySend(v) returns false without waiting when
    the queue is full. *)
Theorem Send_on_closed_or_full v c :
  quiescent c ->
  (snd (Closed c) = Ret true ->
     TrySend v c = (c, Ret false) /\ Send v c = (c, Ret tt)) /\
  (has_room (ch c) = false -> TrySend v c = (c, Ret false)).
Proof.
  intros Hq. split.
  - intros Hc. apply Closed_true in Hc as [Hl Hv]. by apply Send_when_closed.
  - intros Hr. by apply TrySend_full.
Qed.

End ChannelFacts.

Lemma two_buffered_built :
  @MakeChannel Z 2 = Ret (mkChannel (mkAtomic false false) (mkChan 2 [] false)) /\
  (run TrySend 7 then TrySend 8)
    (mkChannel (mkAtomic false false) (mkChan 2 [] false))
  = (two_buffered, Ret true).
Proof. split; reflexivity. Qed.

Lemma Close_idempotent_witness :
  Close_times 3 two_buffered = Close two_buffered /\
  Close two_buffered = (two_buffered_closed, Ret tt) /\
  Close two_buffered_closed = (two_buffered_closed, Ret tt).
Proof.
  pose proof (Close_idempotent 3 two_buffered ltac:(lia)) as (H1 & _ & H3).
  split; [exact H1|]. split; [reflexivity|]. apply H3. reflexivity.
Defined.

Lemma Recv_after_Close_witness :
  recv_all 0 [ByRecv; ByTryRecv; ByRecv] two_buffered_closed
  = (two_buffered_closed, Ret [(0, false); (0, false); (0, false)]) /\
  chan_buf (ch two_buffered_closed) = [7; 8].
Proof.
  exact (Recv_after_Close 0 two_buffered two_buffered_closed
           [ByRecv; ByTryRecv; ByRecv] eq_refl).
Defined.

(** C3 as stated fails: with 7 and 8 buffered when Close() is called, the
    next Recv() and TryRecv() do not return 7 with the flag true; they
    report closed at once, and 7 and 8 are still in the queue. *)
Lemma Recv_after_Close_does_not_drain :
  Close two_buffered = (two_buffered_closed, Ret tt) /\
  chan_buf (ch two_buffered) = [7; 8] /\
  Recv 0 two_buffered_closed = (two_buffered_closed, Ret (0, false)) /\
  TryRecv 0 two_buffered_closed = (two_buffered_closed, Ret (0, false)) /\
  snd (Recv 0 two_buffered_closed) <> Ret (7, true) /\
  snd (TryRecv 0 two_buffered_closed) <> Ret (7, true).
Proof. repeat split; try reflexivity; cbv; discriminate. Qed.

Lemma Send_on_closed_or_full_witness :
  quiescent unbuffered_closed /\
  TrySend 5 unbuffered_closed = (unbuffered_closed, Ret false) /\
  Send 5 unbuffered_closed = (unbuffered_closed, Ret tt) /\
  TrySend 5 unbuffered = (unbuffered, Ret false).
Proof.
  assert (Hq : quiescent unbuffered_closed) by (split; reflexivity).
  assert (Hq' : quiescent unbuffered) by (split; reflexivity).
  split; [exact Hq|].
  destruct (Send_on_closed_or_full 5 unbuffered_closed Hq) as [Hc _].
  destruct (Hc eq_refl) as [H1 H2].
  destruct (Send_on_closed_or_full 5 unbuffered Hq') as [_ Hf].
  split; [exact H1|]. split; [exact H2|]. exact (Hf eq_refl).
Defined.

(** C4 as stated fails in its first part: Send has no result, so a Send on
    a closed channel gives its caller nothing that a Send which enqueued
    would not give.  Here the first Send drops 5 and the second enqueues
    it, and both return the same. *)
Lemma Send_gives_no_failure_indication :
  snd (Closed two_buffered_closed) = Ret true /\
  Send 5 two_buffered_closed = (two_buffered_closed, Ret tt) /\
  Send 5 (mkChannel (mkAtomic false false) (mkChan 2 [] false))
  = (mkChannel (mkAtomic false false) (mkChan 2 [5] false), Ret tt) /\
  snd (Send 5 two_buffered_closed)
  = snd (Send 5 (mkChannel (mkAtomic false false) (mkChan 2 [] false))).
Proof. repeat split; reflexivity. Qed.

(** ** Send racing Close *)

(** C9 at the failing input: on an unbuffered channel a Close() that runs
    while Send(v) is between its test of the flag and [c.ch <- v] makes the
    sender panic. *)
Lemma Send_racing_Close_panics :
  @MakeChannel Z 0 = Ret unbuffered /\
  exists s,
    schedule 5 close_during_send (race_start unbuffered) = Some s /\
    sender s = SendPanicked "send on closed channel" /\
    closer s = CloseUnlock.
Proof. split; [reflexivity|]. eexists. repeat split; reflexivity. Qed.

(** The same on every open channel nobody is inside of, buffered or not:
    the mutex held by Close does not cover the send. *)
Lemma Send_racing_Close_panics_always {T} (v : T) (c : Channel T) :
  quiescent c -> val (closed c) = false ->
  exists s,
    schedule v close_during_send (race_start c) = Some s /\
    sender s = SendPanicked "send on closed channel".
Proof.
  destruct c as [[lk fl] [cp bf cl]]. intros [Hl Hv] Hf. simpl in *. subst.
  eexists. split; reflexivity.
Qed.

(** A sender already parked in [c.ch <- v] is woken by the closer's
    [close(c.ch)] into the same panic. *)
Lemma parked_Send_panics_on_Close :
  exists s1 s2,
    schedule 5 [Sender; Sender; Sender] (race_start unbuffered) = Some s1 /\
    sender s1 = SendChan /\ step 5 Sender s1 = None /\
    schedule 5 [Closer; Closer; Closer; Closer; Closer] s1 = Some s2 /\
    step 5 Sender s2
    = Some (mkRace (shared s2) (SendPanicked "send on closed channel") (closer s2)).
Proof. do 2 eexists. repeat split; reflexivity. Qed.

(** ** select *)

Lemma earliest_spec (cases : list (option Z)) :
  match earliest cases with
  | Some t => In (Some t) cases /\ (forall u, In (Some u) cases -> t <= u)
  | None => forall u, ~ In (Some u) cases
  end.
Proof.
  induction cases as [|c rest IH]; simpl; [tauto|].
  destruct c as [t|]; destruct (earliest rest) as [u|].
  - destruct IH as [Hin Hle]. split.
    + destruct (Z.min_spec t u) as [[_ ->]|[_ ->]]; auto.
    + intros x [Hx|Hx]; [inversion Hx; subst; lia|].
      specialize (Hle x Hx). lia.
  - split; [auto|]. intros x [Hx|Hx]; [inversion Hx; lia|]. by apply IH in Hx.
  - destruct IH as [Hin Hle]. split; [auto|].
    intros x [Hx|Hx]; [discriminate|auto].
  - intros x [Hx|Hx]; [discriminate|]. by apply IH in Hx.
Qed.

Lemma ready_from_spec (cases : list (option Z)) (t : Z) (i k : nat) :
  In k (ready_from i cases t) <->
  exists j, k = (i + j)%nat /\ cases !! j = Some (Some t).
Proof.
  revert i. induction cases as [|c rest IH]; intros i; simpl.
  - split; [tauto|]. intros (j & _ & Hj). by destruct j.
  - assert (Htl : In k (ready_from (S i) rest t) <->
                  exists j, k = (i + S j)%nat /\ rest !! j = Some (Some t)).
    { rewrite IH. split; intros (j & -> & Hj); exists j; split; auto; lia. }
    destruct c as [u|]; [destruct (Z.eqb_spec u t) as [->|Hne]|]; simpl;
      rewrite ?Htl; split.
    + intros [<-|(j & -> & Hj)]; [exists 0%nat|exists (S j)]; split; auto; lia.
    + intros ([|j] & -> & Hj); [left; lia|right; eauto].
    + intros (j & -> & Hj). exists (S j); auto.
    + intros ([|j] & -> & Hj); [simpl in Hj; congruence|eauto].
    + intros (j & -> & Hj). exists (S j); auto.
    + intros ([|j] & -> & Hj); [simpl in Hj; congruence|eauto].
Qed.

(** A select never panics by itself; it proceeds with a case that is ready
    at the earliest instant any case is ready, and it parks only when no
    case ever is. *)
Lemma select_spec (cases : list (option Z)) (pick : nat) :
  match select cases pick with
  | Ret (i, t) =>
      cases !! i = Some (Some t) /\
      (forall j u, cases !! j = Some (Some u) -> t <= u)
  | Panic _ => False
  | Block => forall j u, cases !! j <> Some (Some u)
  end.
Proof.
  unfold select. pose proof (earliest_spec cases) as He.
  destruct (earliest cases) as [t|].
  - destruct He as [Hin Hle].
    assert (Hne : ready_from 0 cases t <> []).
    { apply list_elem_of_In, list_elem_of_lookup in Hin as [j Hj].
      intros Hnil. assert (In j (ready_from 0 cases t)) as Hj'.
      { apply ready_from_spec. exists j. auto. }
      rewrite Hnil in Hj'. destruct Hj'. }
    set (rs := ready_from 0 cases t) in *.
    assert (Hnth : In (nth (pick mod length rs)%nat rs 0%nat) rs).
    { apply nth_In. apply Nat.mod_upper_bound. destruct rs; simpl; congruence. }
    apply ready_from_spec in Hnth as (j & Hk & Hj). simpl in Hk. rewrite Hk.
    split; [exact Hj|]. intros j' u Hu. apply Hle.
    apply list_elem_of_In, list_elem_of_lookup. eauto.
  - intros j u Hj. apply (He u).
    apply list_elem_of_In, list_elem_of_lookup. eauto.
Qed.

(** ** The task handed to the worker pool *)

(** What the task reports is what happened: the case of the select that
    went through, at the earliest instant a case was ready. *)
Lemma dispatch_task_spec (e : dispatch_env) :
  match dispatch_task e with
  | Ret (CtxFired, t) =>
      done_at e = Some t /\ t <= dispatch_deadline /\
      (forall u, send_at e = Some u -> t <= u)
  | Ret (Dropped, t) =>
      t = dispatch_deadline /\
      (forall u, done_at e = Some u -> dispatch_deadline <= u) /\
      (forall u, send_at e = Some u -> dispatch_deadline <= u)
  | Ret (Enqueued, t) =>
      send_at e = Some t /\ send_closed e = false /\ t <= dispatch_deadline /\
      (forall u, done_at e = Some u -> t <= u)
  | Panic msg =>
      msg = "send on closed channel" /\ send_closed e = true /\
      exists t, send_at e = Some t /\ t <= dispatch_deadline /\
                forall u, done_at e = Some u -> t <= u
  | Block => False
  end.
Proof.
  unfold dispatch_task.
  pose proof (select_spec [done_at e; time_After dispatch_deadline; send_at e]
                          (dispatch_pick e)) as Hs.
  assert (Htimer : time_After dispatch_deadline = Some dispatch_deadline)
    by reflexivity.
  rewrite Htimer in *.
  destruct (select _ _) as [[i t]| |]; [|contradiction|].
  - destruct Hs as [Hi Hmin].
    assert (Hle : t <= dispatch_deadline) by (apply (Hmin 1%nat); reflexivity).
    assert (Hd : forall u, done_at e = Some u -> t <= u)
      by (intros u Hu; apply (Hmin 0%nat); simpl; by rewrite Hu).
    assert (Hsd : forall u, send_at e = Some u -> t <= u)
      by (intros u Hu; apply (Hmin 2%nat); simpl; by rewrite Hu).
    destruct i as [|[|[|i]]]; simpl in Hi; try discriminate.
    + inversion Hi as [Hi']. auto.
    + inversion Hi; subst t. auto.
    + inversion Hi as [Hi']. destruct (send_closed e) eqn:Hc.
      * repeat split; auto. exists t. auto.
      * auto.
  - exfalso. apply (Hs 1%nat dispatch_deadline). reflexivity.
Qed.

(** C2.  The task that enqueues a chunk for a subscriber races the send
    against the cancellation scope and a 20 second timer.  It never parks
    for ever and is over by the deadline at the latest.  When the send can
    proceed first, before the deadline and before the scope is done, the
    chunk is enqueued then (on a run-time channel that has been closed the
    send panics); when the scope is done first, the task ends then without
    enqueuing; when neither can proceed by the deadline, the chunk is
    dropped at the deadline.  And what the task reports is what happened:
    a chunk reported enqueued went through the send, at that instant; the
    scope is reported only when it was done, the chunk is dropped only at
    the deadline, and neither while another case was ready earlier. *)
Theorem dispatch_task_bounded (e : dispatch_env) :
  dispatch_deadline = 20 * Second /\
  dispatch_task e <> Block /\
  (forall r t, dispatch_task e = Ret (r, t) -> t <= dispatch_deadline) /\
  (after_deadline (done_at e) -> after_deadline (send_at e) ->
   dispatch_task e = Ret (Dropped, dispatch_deadline)) /\
  (forall t,
      send_at e = Some t -> t < dispatch_deadline ->
      (forall u, done_at e = Some u -> t < u) ->
      dispatch_task e
      = if send_closed e then Panic "send on closed channel"
        else Ret (Enqueued, t)) /\
  (forall u,
      done_at e = Some u -> u < dispatch_deadline ->
      (forall t, send_at e = Some t -> u < t) ->
      dispatch_task e = Ret (CtxFired, u)) /\
  (forall t,
      dispatch_task e = Ret (Enqueued, t) ->
      send_at e = Some t /\ send_closed e = false /\
      forall u, done_at e = Some u -> t <= u) /\
  (forall t,
      dispatch_task e = Ret (CtxFired, t) ->
      done_at e = Some t /\ forall u, send_at e = Some u -> t <= u) /\
  (forall t,
      dispatch_task e = Ret (Dropped, t) ->
      t = dispatch_deadline /\
      (forall u, done_at e = Some u -> dispatch_deadline <= u) /\
      (forall u, send_at e = Some u -> dispatch_deadline <= u)).
Proof.
  pose proof (dispatch_task_spec e) as H.
  split; [reflexivity|].
  split; [intros E; by rewrite E in H|].
  split.
  { intros r t E. rewrite E in H. destruct r; intuition lia. }
  split.
  { intros Hd Hsnd. unfold after_deadline in *.
    destruct (dispatch_task e) as [[[| |] t]|msg|]; try contradiction.
    - destruct H as (Hu & Hle & _). rewrite Hu in Hd. lia.
    - destruct H as (-> & _). reflexivity.
    - destruct H as (Hu & _ & Hle & _). rewrite Hu in Hsnd. lia.
    - destruct H as (_ & _ & t & Hu & Hle & _). rewrite Hu in Hsnd. lia. }
  split.
  { intros t Ht Hlt Hdone.
    destruct (dispatch_task e) as [[[| |] x]|msg|]; try contradiction.
    - destruct H as (Hu & _ & Hle). specialize (Hdone x Hu).
      specialize (Hle t Ht). lia.
    - destruct H as (-> & _ & Hle). specialize (Hle t Ht). lia.
    - destruct H as (Hu & -> & _). rewrite Ht in Hu. by inversion Hu.
    - destruct H as (-> & -> & _). reflexivity. }
  split.
  { intros u Hu Hlt Hsend.
    destruct (dispatch_task e) as [[[| |] x]|msg|]; try contradiction.
    - destruct H as (Hx & _). rewrite Hu in Hx. by inversion Hx.
    - destruct H as (-> & Hle & _). specialize (Hle u Hu). lia.
    - destruct H as (Hx & _ & _ & Hle). specialize (Hsend x Hx).
      specialize (Hle u Hu). lia.
    - destruct H as (_ & _ & x & Hx & _ & Hle). specialize (Hsend x Hx).
      specialize (Hle u Hu). lia. }
  split; [|split].
  - intros t E. rewrite E in H. tauto.
  - intros t E. rewrite E in H. tauto.
  - intros t E. rewrite E in H. exact H.
Qed.

Lemma dispatch_task_bounded_witness :
  dispatch_task (mkDispatchEnv (Some 25000000000) None false 0)
  = Ret (Dropped, 20000000000) /\
  dispatch_task (mkDispatchEnv (Some 9000) (Some 3000) false 0)
  = Ret (Enqueued, 3000) /\
  dispatch_task (mkDispatchEnv (Some 9000) None false 0) = Ret (CtxFired, 9000).
Proof.
  split; [|split].
  - destruct (dispatch_task_bounded (mkDispatchEnv (Some 25000000000) None false 0))
      as (_ & _ & _ & H & _).
    apply H; simpl; [reflexivity|exact I].
  - destruct (dispatch_task_bounded (mkDispatchEnv (Some 9000) (Some 3000) false 0))
      as (_ & _ & _ & _ & H & _).
    apply (H 3000 eq_refl eq_refl). intros u Hu. inversion Hu. reflexivity.
  - destruct (dispatch_task_bounded (mkDispatchEnv (Some 9000) None false 0))
      as (_ & _ & _ & _ & _ & H & _).
    apply (H 9000 eq_refl eq_refl). intros t Ht. discriminate.
Defined.

(** The earlier text in pipe.go has no deadline: its task calls the
    blocking Send, which parks for ever on a stream nobody receives from,
    whatever token the scanner holds when the task runs. *)
Lemma PipeGo_dispatch_task_parks (bs : bytes) :
  PipeGo.dispatch_task
    (PipeGo.mkTaskEnv bs (mkChannel (mkAtomic false false) (mkChan 0 [] false)))
  = (PipeGo.mkTaskEnv bs (mkChannel (mkAtomic false false) (mkChan 0 [] false)),
     Block).
Proof. reflexivity. Qed.

(** ** The reader of an output direction *)

Lemma submit_all_ok submit bs names :
  (forall n, In n names -> submit n = None) ->
  submit_all submit bs names = (map (fun n => (n, bs)) names, None).
Proof.
  induction names as [|n rest IH]; intros H; simpl; [reflexivity|].
  rewrite (H n) by (left; reflexivity).
  rewrite IH by (intros; apply H; right; assumption). reflexivity.
Qed.

Lemma submit_all_fails submit bs before name rest err :
  (forall n, In n before -> submit n = None) ->
  submit name = Some err ->
  submit_all submit bs (before ++ name :: rest)
  = (map (fun n => (n, bs)) before, Some (Errorf name err)).
Proof.
  induction before as [|n before IH]; intros H He; simpl.
  - rewrite He. reflexivity.
  - rewrite (H n) by (left; reflexivity).
    rewrite IH by (auto; intros; apply H; right; assumption). reflexivity.
Qed.

Lemma listenOutStream_passes names pre rest scan_err :
  Forall (passes names) pre ->
  listenOutStream names (pre ++ rest) scan_err
  = (flat_map (tasks_of names) pre ++ fst (listenOutStream names rest scan_err),
     snd (listenOutStream names rest scan_err)).
Proof.
  induction 1 as [|t pre [Hctx Hsub] _ IH]; simpl.
  - destruct (listenOutStream names rest scan_err); reflexivity.
  - rewrite Hctx. simpl. rewrite (submit_all_ok _ _ _ Hsub), IH.
    unfold tasks_of. rewrite <- app_assoc. reflexivity.
Qed.

(** Every chunk read in a round that goes through is handed to the pool
    once for every subscriber. *)
Lemma listenOutStream_submits names ticks scan_err :
  Forall (passes names) ticks ->
  listenOutStream names ticks scan_err
  = (flat_map (tasks_of names) ticks, scan_err).
Proof.
  intros H. pose proof (listenOutStream_passes names ticks [] scan_err H) as E.
  rewrite !app_nil_r in E. exact E.
Qed.

(** C7, as the code has it.  After any number of rounds that went through,
    the reader returns: the scanner's error unchanged when the scanner
    stops (nil at end of file, the read error otherwise, an over-long line
    included); nil when the next round finds the scope cancelled with
    context.Canceled, and the scope's error when it finds the scope done
    for another reason; and the pool's error wrapped with the subscriber's
    name when a submission is refused. *)
Theorem listenOutStream_returns names pre :
  Forall (passes names) pre ->
  (forall scan_err, snd (listenOutStream names pre scan_err) = scan_err) /\
  (forall t post scan_err err,
      tick_ctx t = Some err ->
      snd (listenOutStream names (pre ++ t :: post) scan_err)
      = if is_Canceled err then None else Some err) /\
  (forall t post scan_err before name rest err,
      tick_ctx t = None ->
      names = before ++ name :: rest ->
      (forall n, In n before -> tick_submit t n = None) ->
      tick_submit t name = Some err ->
      snd (listenOutStream names (pre ++ t :: post) scan_err)
      = Some (Errorf name err)).
Proof.
  intros Hpre. split; [|split].
  - intros scan_err. by rewrite listenOutStream_submits.
  - intros t post scan_err err Hctx.
    rewrite listenOutStream_passes by assumption. simpl.
    rewrite Hctx. simpl. destruct (is_Canceled err); reflexivity.
  - intros t post scan_err before name rest err Hctx -> Hbefore Hname.
    rewrite listenOutStream_passes by assumption. simpl.
    rewrite Hctx. simpl.
    rewrite (submit_all_fails _ _ _ _ _ _ Hbefore Hname). reflexivity.
Qed.

Lemma listenOutStream_returns_witness :
  snd (listenOutStream ["a"; "b"] [good_round] None) = None /\
  snd (listenOutStream ["a"; "b"] [good_round] (Some ErrTooLong)) = Some ErrTooLong /\
  snd (listenOutStream ["a"; "b"]
         [good_round; mkTick chunk_hi (Some DeadlineExceeded) (fun _ => None)] None)
  = Some DeadlineExceeded /\
  snd (listenOutStream ["a"; "b"]
         [good_round; mkTick chunk_hi (Some Canceled) (fun _ => None)] (Some ErrTooLong))
  = None.
Proof.
  assert (Hp : Forall (passes ["a"; "b"]) [good_round]).
  { constructor; [|constructor]. split; reflexivity. }
  destruct (listenOutStream_returns ["a"; "b"] [good_round] Hp) as (H1 & H2 & _).
  split; [apply H1|]. split; [apply H1|]. split.
  - exact (H2 (mkTick chunk_hi (Some DeadlineExceeded) (fun _ => None)) []
              None DeadlineExceeded eq_refl).
  - exact (H2 (mkTick chunk_hi (Some Canceled) (fun _ => None)) []
              (Some ErrTooLong) Canceled eq_refl).
Defined.

(** C7 as stated fails: a chunk has been read (the stream is not at end of
    file) and the scope has fired with context.Canceled, which is what
    [p.cancel()] makes it do; the reader returns nil, not the scope's
    error. *)
Lemma listenOutStream_nil_on_cancel :
  isCtxDone (Some Canceled) = (true, None) /\
  listenOutStream ["out"] [mkTick chunk_hi (Some Canceled) (fun _ => None)] None
  = ([], None) /\
  snd (listenOutStream ["out"] [mkTick chunk_hi (Some Canceled) (fun _ => None)] None)
  <> Some Canceled.
Proof. repeat split; try reflexivity. discriminate. Qed.

(** The earlier text in pipe.go ends with [return nil]: a read error is
    not returned. *)
Lemma PipeGo_listenOutStream_drops_read_error :
  PipeGo.listenOutStream ["out"] [good_round] (Some ErrTooLong)
  = (["out"], None).
Proof. reflexivity. Qed.

(** ** errors.Join *)

Lemma errors_Join_nil (a b : option error) :
  errors_Join [a; b] = None <-> a = None /\ b = None.
Proof. destruct a, b; cbv; split; try tauto; try congruence; intros [??]; congruence. Qed.

Lemma errors_Join_left (a : error) (b : option error) :
  exists j, errors_Join [Some a; b] = Some j /\ reaches j a.
Proof.
  destruct b as [b|]; eexists; (split; [reflexivity|]);
    (eapply reaches_joined; [|apply reaches_refl]); simpl; auto.
Qed.

Lemma errors_Join_right (a : option error) (b : error) :
  exists j, errors_Join [a; Some b] = Some j /\ reaches j b.
Proof.
  destruct a as [a|]; eexists; (split; [reflexivity|]);
    (eapply reaches_joined; [|apply reaches_refl]); simpl; auto.
Qed.

(** ** NewProc, PID and Start *)

(** What NewProc builds when it returns a Proc: the pipes and registries
    of the enabled directions, the group and the pool when a direction is
    enabled, the cancel function, and zero options. *)
Lemma NewProc_returns w procOptions p :
  NewProc w procOptions = inr p ->
  let o := apply_options procOptions in
  p = mkProc None None
        (Stdin o) (if Stdin o then Some ∅ else None)
        (Stdout o) (if Stdout o then Some ∅ else None)
        (Stderr o) (if Stderr o then Some ∅ else None)
        (Stdin o || Stdout o || Stderr o) (Stdin o || Stdout o || Stderr o)
        true zero_Options.
Proof.
  unfold NewProc. intros H. simpl.
  destruct (Stdin (apply_options procOptions)),
           (Stdout (apply_options procOptions)),
           (Stderr (apply_options procOptions));
    simpl in *;
    repeat match type of H with
           | context [match ?x with _ => _ end] => destruct x; simpl in H
           end;
    congruence.
Qed.

Lemma group_Go_frame t s :
  exists evs r, group_Go t s = (mkSys (self s) (heap s) (log s ++ evs), r).
Proof.
  destruct s as [p h lg]. unfold group_Go, bind, get, emit, modify, panic; simpl.
  destruct (group p); simpl.
  - eexists _, _. reflexivity.
  - exists [], (Panic nil_deref). by rewrite app_nil_r.
Qed.

Lemma for_each_group_Go_frame {X} (xs : list X) (f : X -> task) s :
  exists evs r,
    for_each xs (fun x => group_Go (f x)) s
    = (mkSys (self s) (heap s) (log s ++ evs), r).
Proof.
  revert s. induction xs as [|x xs IH]; intros s; simpl.
  - exists [], (Ret tt). destruct s; unfold ret; simpl. by rewrite app_nil_r.
  - destruct (group_Go_frame (f x) s) as (evs & r & E).
    unfold bind. rewrite E. destruct r as [[]| |].
    + destruct (IH (mkSys (self s) (heap s) (log s ++ evs))) as (evs' & r' & E').
      rewrite E'. simpl. exists (evs ++ evs'), r'. by rewrite app_assoc.
    + eexists _, _. reflexivity.
    + eexists _, _. reflexivity.
Qed.

Lemma listenStdinPipe_frame s :
  exists evs r, listenStdinPipe s = (mkSys (self s) (heap s) (log s ++ evs), r).
Proof.
  unfold listenStdinPipe, bind, get. simpl.
  destruct (negb (Stdin (options (self s)))).
  - exists [], (Ret tt). destruct s; unfold ret; simpl. by rewrite app_nil_r.
  - apply (for_each_group_Go_frame _ (fun entry => StdinWriter (fst entry) (snd entry))).
Qed.

Lemma listenOutPipe_frame d s :
  exists evs r, listenOutPipe d s = (mkSys (self s) (heap s) (log s ++ evs), r).
Proof.
  unfold listenOutPipe, bind, get. simpl.
  destruct (negb (enabled d (options (self s)))).
  - exists [], (Ret tt). destruct s; unfold ret; simpl. by rewrite app_nil_r.
  - apply group_Go_frame.
Qed.

Lemma listen_all_frame s :
  exists evs r,
    (run listenStdinPipe then run listenStdoutPipe then
     run listenStderrPipe then ret (@None error)) s
    = (mkSys (self s) (heap s) (log s ++ evs), r).
Proof.
  unfold bind.
  destruct (listenStdinPipe_frame s) as (e1 & r1 & E1). rewrite E1.
  destruct r1 as [[]| |]; [|eexists _, _; reflexivity..].
  destruct (listenOutPipe_frame DirStdout (mkSys (self s) (heap s) (log s ++ e1)))
    as (e2 & r2 & E2).
  unfold listenStdoutPipe. rewrite E2. simpl.
  destruct r2 as [[]| |]; [|rewrite <- app_assoc; eexists _, _; reflexivity..].
  destruct (listenOutPipe_frame DirStderr
              (mkSys (self s) (heap s) ((log s ++ e1) ++ e2)))
    as (e3 & r3 & E3).
  unfold listenStderrPipe. rewrite E3. simpl.
  rewrite <- !app_assoc.
  destruct r3 as [[]| |]; eexists _, _; reflexivity.
Qed.

Lemma start_returns w s s' :
  start w s = (s', Ret None) ->
  (self s' = self s \/ self s' = set_process (PID (self s)) (self s)) /\
  heap s' = heap s.
Proof.
  unfold start. rewrite bind_get. intros H.
  assert (Hl : forall s0, (run listenStdinPipe then run listenStdoutPipe then
                 run listenStderrPipe then ret (@None error)) s0 = (s', Ret None) ->
               self s' = self s0 /\ heap s' = heap s0).
  { intros s0 H0. destruct (listen_all_frame s0) as (evs & r & E).
    rewrite E in H0. inversion H0; subst. simpl. auto. }
  destruct (0 <=? PID (self s)).
  - destruct (process_NewProcess w) as [err|]; autorewrite with go in H.
    + discriminate.
    + apply Hl in H as [-> ->]. simpl. auto.
  - autorewrite with go in H. apply Hl in H as [-> ->]. auto.
Qed.

(** A Start that returns nil has spawned the child and recorded its
    process: [p.proc] is set, and the registries, the handles and the heap
    are as before. *)
Lemma Start_returns w s s' :
  Start w s = (s', Ret None) ->
  exists pid,
    cmd_Start w = inr pid /\
    proc (self s') = Some pid /\ PID (self s') = pid /\
    (self s' = set_proc pid (self s) \/
     self s' = set_process pid (set_proc pid (self s))) /\
    heap s' = heap s.
Proof.
  unfold Start. destruct (cmd_Start w) as [err|pid]; [discriminate|].
  intros H. exists pid. split; [reflexivity|].
  autorewrite with go in H.
  apply start_returns in H as [[Hs|Hs] Hh]; simpl in *;
    rewrite Hs, Hh; unfold PID; simpl; auto.
Qed.

(** A Start that fails to spawn returns the error and changes nothing. *)
Lemma Start_spawn_fails w s err :
  cmd_Start w = inl err -> Start w s = (s, Ret (Some err)).
Proof. unfold Start. intros ->. reflexivity. Qed.

(** ** Binding a stream *)

Lemma bind_of_eq d : bind_of d = bind_pipe (-1) d.
Proof. destruct d; reflexivity. Qed.

Lemma chs_of_set_chs d m p : chs_of d (set_chs d m p) = m.
Proof. destruct d; reflexivity. Qed.

Lemma bind_pipe_started not_started d name s :
  PID (self s) <> not_started ->
  bind_pipe not_started d name s = (s, Panic (bind_after_start name)).
Proof.
  intros H. unfold bind_pipe. rewrite bind_get.
  destruct (Z.eqb_spec (PID (self s)) not_started); [contradiction|]. reflexivity.
Qed.

Lemma bind_pipe_disabled not_started d name s :
  PID (self s) = not_started -> enabled d (options (self s)) = false ->
  bind_pipe not_started d name s = (s, Ret None).
Proof.
  intros H He. unfold bind_pipe. rewrite bind_get, H, Z.eqb_refl, He. reflexivity.
Qed.

Lemma bind_pipe_registers not_started d name s m :
  PID (self s) = not_started -> enabled d (options (self s)) = true ->
  chs_of d (self s) = Some m ->
  bind_pipe not_started d name s
  = (mkSys (set_chs d (Some (<[name := fresh (dom (heap s))]> m)) (self s))
           (<[fresh (dom (heap s)) := empty_stream]> (heap s)) (log s),
     Ret (Some (fresh (dom (heap s))))).
Proof.
  intros H He Hm. unfold bind_pipe.
  rewrite bind_get, H, Z.eqb_refl, He, Hm. reflexivity.
Qed.

(** The bind calls as functions of the Proc they are given.  While no
    child has been spawned ([p.proc] is nil: before Start, or after a Start
    that failed to spawn), the bind call of a direction that is enabled in
    [p.options] and has its registry returns a new, empty, open stream and
    registers that same stream under the subscriber's name; for a
    direction that is not enabled in [p.options] it returns nil and
    registers nothing.  After a Start that returned nil, the child having a
    positive process id, the call panics, in every direction.  (NewProc
    leaves [p.options] at its zero value, so on the Procs it builds the
    first case does not arise: see [bind_on_NewProc_returns_nil].) *)
Theorem bind_before_and_after_Start (d : direction) (name : string) :
  (forall s m,
      proc (self s) = None -> enabled d (options (self s)) = true ->
      chs_of d (self s) = Some m ->
      let l := fresh (dom (heap s)) in
      heap s !! l = None /\
      bind_of d name s
      = (mkSys (set_chs d (Some (<[name := l]> m)) (self s))
               (<[l := empty_stream]> (heap s)) (log s),
         Ret (Some l))) /\
  (forall s,
      proc (self s) = None -> enabled d (options (self s)) = false ->
      bind_of d name s = (s, Ret None)) /\
  (forall w s err, cmd_Start w = inl err ->
      Start w s = (s, Ret (Some err))) /\
  (forall w s s',
      (forall pid, cmd_Start w = inr pid -> 0 < pid) ->
      Start w s = (s', Ret None) ->
      bind_of d name s' = (s', Panic (bind_after_start name))).
Proof.
  rewrite bind_of_eq. repeat split.
  - apply not_elem_of_dom, is_fresh.
  - apply bind_pipe_registers; auto. unfold PID. by rewrite H.
  - intros s Hp He. apply bind_pipe_disabled; auto. unfold PID. by rewrite Hp.
  - intros w s err. apply Start_spawn_fails.
  - intros w s s' Hpid HS.
    apply Start_returns in HS as (pid & Hc & _ & HP & _).
    apply bind_pipe_started. rewrite HP. specialize (Hpid pid Hc). lia.
Qed.

Lemma bind_before_and_after_Start_witness :
  StdoutPipe "echo" (fresh_sys piped_proc)
  = (mkSys (set_chs DirStdout (Some (<["echo" := fresh (dom (∅ : gmap loc Stream))]> ∅))
                    piped_proc)
           (<[fresh (dom (∅ : gmap loc Stream)) := empty_stream]> ∅) [],
     Ret (Some (fresh (dom (∅ : gmap loc Stream))))) /\
  Start calm_world (fresh_sys piped_proc) = (started_piped, Ret None) /\
  StdoutPipe "echo" started_piped
  = (started_piped, Panic "bind pipe after process started: echo").
Proof.
  destruct (bind_before_and_after_Start DirStdout "echo") as (H1 & _ & _ & H4).
  split; [|split].
  - exact (proj2 (H1 (fresh_sys piped_proc) ∅ eq_refl eq_refl eq_refl)).
  - reflexivity.
  - apply (H4 calm_world (fresh_sys piped_proc)); [|reflexivity].
    intros pid Hpid. inversion Hpid. lia.
Defined.

(** Before Start, on the Proc that NewProc builds when no direction is
    asked for, StdoutPipe returns nil and registers nothing. *)
Lemma bind_without_direction_returns_nil :
  NewProc calm_world plain_options = inr plain_proc /\
  proc plain_proc = None /\
  StdoutPipe "out" (fresh_sys plain_proc) = (fresh_sys plain_proc, Ret None) /\
  StdinPipe "in" (fresh_sys plain_proc) = (fresh_sys plain_proc, Ret None) /\
  StderrPipe "err" (fresh_sys plain_proc) = (fresh_sys plain_proc, Ret None).
Proof. repeat split; reflexivity. Qed.

(** NewProc leaves [options] at its zero value, so on a Proc it built the
    bind calls find every direction disabled, whatever was asked for. *)
Lemma NewProc_options_zero w procOptions p d name :
  NewProc w procOptions = inr p ->
  options p = zero_Options /\
  bind_of d name (fresh_sys p) = (fresh_sys p, Ret None).
Proof.
  intros H. apply NewProc_returns in H. simpl in H.
  assert (Ho : options p = zero_Options) by (rewrite H; reflexivity).
  assert (Hp : proc p = None) by (rewrite H; reflexivity).
  split; [exact Ho|].
  rewrite bind_of_eq. apply bind_pipe_disabled.
  - unfold PID. simpl. by rewrite Hp.
  - simpl. rewrite Ho. by destruct d.
Qed.

(** The earlier text in pipe.go compares the process id with 0, and so
    rejects every bind made before Start, when [PID()] is -1. *)
Lemma PipeGo_bind_before_Start_panics d name s :
  proc (self s) = None ->
  PipeGoBind.bind_of d name s = (s, Panic (bind_after_start name)).
Proof.
  intros H.
  assert (E : PipeGoBind.bind_of d = bind_pipe 0 d) by (destruct d; reflexivity).
  rewrite E. apply bind_pipe_started. unfold PID. rewrite H. lia.
Qed.

(** ** close *)

Lemma quiet_heap_le_refl h : quiet_heap_le h h.
Proof. intros l c Hl Hq. eauto. Qed.

Lemma quiet_heap_le_trans h1 h2 h3 :
  quiet_heap_le h1 h2 -> quiet_heap_le h2 h3 -> quiet_heap_le h1 h3.
Proof.
  intros H12 H23 l c Hl Hq.
  destruct (H12 l c Hl Hq) as (c2 & Hl2 & Hq2). eauto.
Qed.

Lemma well_formed_le s h' lg :
  well_formed s -> quiet_heap_le (heap s) h' ->
  well_formed (mkSys (self s) h' lg).
Proof.
  intros Hwf Hle l Hreg.
  destruct (Hwf l Hreg) as (c & Hc & Hq). exact (Hle l c Hc Hq).
Qed.

Lemma stream_Close_quiet l s c :
  heap s !! l = Some c -> quiescent c ->
  exists c',
    quiescent c' /\
    stream_Close l s
    = (mkSys (self s) (<[l := c']> (heap s)) (log s ++ [EvCloseStream l]), Ret tt).
Proof.
  intros Hl Hq. destruct (Close_quiescent c Hq) as (c' & E & Hq' & _).
  exists c'. split; [exact Hq'|].
  unfold stream_Close. rewrite Hl, E. reflexivity.
Qed.

Lemma for_each_stream_Close (xs : list (string * loc)) s :
  (forall e, In e xs -> exists c, heap s !! snd e = Some c /\ quiescent c) ->
  exists h',
    quiet_heap_le (heap s) h' /\
    for_each xs (fun entry => stream_Close (snd entry)) s
    = (mkSys (self s) h'
             (log s ++ map (fun entry => EvCloseStream (snd entry)) xs),
       Ret tt).
Proof.
  revert s. induction xs as [|x xs IH]; intros s Hall; simpl.
  - exists (heap s). split; [apply quiet_heap_le_refl|].
    destruct s; unfold ret; simpl. by rewrite app_nil_r.
  - destruct (Hall x (or_introl eq_refl)) as (c & Hc & Hq).
    destruct (stream_Close_quiet _ _ _ Hc Hq) as (c' & Hq' & E).
    assert (Hstep : quiet_heap_le (heap s) (<[snd x := c']> (heap s))).
    { intros l c0 Hl0 Hq0. destruct (decide (snd x = l)) as [<-|Hne].
      - exists c'. by rewrite lookup_insert_eq.
      - exists c0. by rewrite lookup_insert_ne. }
    rewrite (bind_Ret _ _ _ _ _ E).
    destruct (IH (mkSys (self s) (<[snd x := c']> (heap s))
                        (log s ++ [EvCloseStream (snd x)]))) as (h' & Hle & E').
    { intros e He. destruct (Hall e (or_intror He)) as (c0 & Hc0 & Hq0).
      exact (Hstep _ _ Hc0 Hq0). }
    exists h'. split; [eapply quiet_heap_le_trans; eassumption|].
    rewrite E'. simpl. by rewrite <- app_assoc.
Qed.

Lemma close_streams_ok d s :
  well_formed s ->
  exists h',
    quiet_heap_le (heap s) h' /\
    close_streams d s
    = (mkSys (self s) h' (log s ++ stream_events d (self s)), Ret tt).
Proof.
  intros Hwf. unfold close_streams. rewrite bind_get.
  apply for_each_stream_Close. intros [name l] Hin. simpl.
  apply Hwf. unfold range_chs in Hin.
  destruct (chs_of d (self s)) as [m|] eqn:Hm; [|destruct Hin].
  exists d, m, name. split; [exact Hm|].
  apply elem_of_map_to_list, list_elem_of_In. exact Hin.
Qed.

Lemma close_pipe_ok d s :
  pipe_of d (self s) = true ->
  close_pipe d s = (mkSys (self s) (heap s) (log s ++ [EvClosePipe d]), Ret tt).
Proof. intros H. unfold close_pipe. rewrite bind_get, H. reflexivity. Qed.

Lemma close_pipe_nil d s :
  pipe_of d (self s) = false -> close_pipe d s = (s, Panic nil_deref).
Proof. intros H. unfold close_pipe. rewrite bind_get, H. reflexivity. Qed.

Lemma final_wait_spec w s :
  group (self s) = true ->
  final_wait w s
  = (mkSys (self s) (heap s)
           (log s ++ [if MaxWaitTime (options (self s)) =? 0
                      then EvGroupWait else EvCmdWait]),
     final_result w (self s)).
Proof.
  intros Hg. unfold final_wait, final_result. rewrite bind_get.
  destruct (MaxWaitTime (options (self s)) =? 0).
  - unfold group_Wait. rewrite bind_get, Hg, bind_emit.
    destruct (group_stuck w); reflexivity.
  - unfold wait_exit. rewrite bind_emit.
    destruct (select _ _) as [[[|i] t]| |]; reflexivity.
Qed.

Lemma do_cancel_ok s :
  cancel (self s) = true ->
  do_cancel s = (mkSys (self s) (heap s) (log s ++ [EvCancel]), Ret tt).
Proof. intros H. unfold do_cancel. rewrite bind_get, H. reflexivity. Qed.

Lemma pool_Release_ok s :
  workerPool (self s) = true ->
  pool_Release s = (mkSys (self s) (heap s) (log s ++ [EvPoolRelease]), Ret tt).
Proof. intros H. unfold pool_Release. rewrite bind_get, H. reflexivity. Qed.

Lemma close_direction_then d s :
  well_formed s -> pipe_of d (self s) = true ->
  exists h',
    quiet_heap_le (heap s) h' /\
    forall A (k : M Sys A),
      (run close_streams d then run close_pipe d then k) s
      = k (mkSys (self s) h'
                 (log s ++ stream_events d (self s) ++ [EvClosePipe d])).
Proof.
  intros Hwf Hp. destruct (close_streams_ok d s Hwf) as (h' & Hle & E).
  exists h'. split; [exact Hle|]. intros A k.
  rewrite (bind_Ret _ _ _ _ _ E). cbv beta.
  rewrite (bind_Ret _ _ _ _ _
             (close_pipe_ok d (mkSys (self s) h' (log s ++ stream_events d (self s))) Hp)).
  simpl. by rewrite <- app_assoc.
Qed.

(** What [close] does on a Proc that has its three pipes, its pool, its
    group and its cancel function: it goes through all its steps. *)
Lemma close_spec w s :
  well_formed s -> all_set (self s) ->
  exists h',
    quiet_heap_le (heap s) h' /\
    close w s
    = (mkSys (self s) h' (log s ++ shutdown_events w (self s)),
       final_result w (self s)).
Proof.
  intros Hwf (Hin & Hout & Herr & Hpool & Hgroup & Hcancel).
  unfold close.
  destruct (close_direction_then DirStdin s Hwf Hin) as (h1 & L1 & E1).
  rewrite E1. clear E1.
  set (s1 := mkSys (self s) h1 _).
  assert (Hwf1 : well_formed s1) by (by apply well_formed_le).
  destruct (close_direction_then DirStdout s1 Hwf1 Hout) as (h2 & L2 & E2).
  rewrite E2. clear E2.
  set (s2 := mkSys (self s1) h2 _).
  assert (Hwf2 : well_formed s2) by (by apply well_formed_le).
  destruct (close_direction_then DirStderr s2 Hwf2 Herr) as (h3 & L3 & E3).
  rewrite E3. clear E3.
  exists h3. split.
  { eapply quiet_heap_le_trans; [exact L1|].
    eapply quiet_heap_le_trans; [exact L2|exact L3]. }
  subst s2 s1. simpl self. simpl log. unfold defer.
  match goal with
  | |- context [bind do_cancel _ ?st] =>
      rewrite (bind_Ret _ _ _ _ _ (do_cancel_ok st Hcancel))
  end.
  cbv beta. rewrite final_wait_spec by exact Hgroup.
  cbv iota beta. simpl self. simpl log. simpl heap.
  unfold shutdown_events.
  destruct (final_result w (self s)) as [r|msg|];
    try (rewrite pool_Release_ok by exact Hpool);
    simpl; repeat rewrite <- app_assoc; simpl; try rewrite app_nil_r; reflexivity.
Qed.

Lemma shutdown_events_no_signal w p :
  Forall (fun e => is_signal e = false) (shutdown_events w p).
Proof.
  assert (Hs : forall d, Forall (fun e => is_signal e = false) (stream_events d p)).
  { intros d. unfold stream_events. apply Forall_forall. intros e He.
    apply list_elem_of_In, in_map_iff in He as (x & <- & _). reflexivity. }
  unfold shutdown_events.
  repeat (apply Forall_app; split); auto.
  - repeat constructor. by destruct (MaxWaitTime (options p) =? 0).
  - by destruct (final_result w p); repeat constructor.
Qed.

(** The last step of [close] as a function of [p.options.MaxWaitTime], on
    a Proc whose shutdown reaches it (the streams are idle, the pipes, the
    pool, the group and the cancel function are set): with no maximal wait,
    close waits for every task of the group and returns the group's result,
    and never returns while a task has not; with a maximal wait, close
    returns what the wait for the child's exit gives when that comes first
    and the deadline-exceeded error when the wait does not come before the
    time is over; and, either way, close sends no signal to the child.
    (NewProc leaves [p.options] at its zero value, so on the Procs it
    builds the second case does not arise: see
    [close_ignores_MaxWaitTime].) *)
Theorem close_final_wait w s :
  well_formed s -> all_set (self s) ->
  let maxWait := MaxWaitTime (options (self s)) in
  (maxWait = 0 ->
     snd (close w s)
     = if group_stuck w then Block else Ret (first_error (group_returned w))) /\
  (maxWait <> 0 ->
     (forall t, cmd_Wait_at w = Some t -> t < Z.max 0 maxWait ->
        snd (close w s) = Ret (cmd_Wait_err w)) /\
     ((forall t, cmd_Wait_at w = Some t -> Z.max 0 maxWait < t) ->
        snd (close w s) = Ret (Some DeadlineExceeded)) /\
     (snd (close w s) = Ret (Some DeadlineExceeded) \/
      snd (close w s) = Ret (cmd_Wait_err w))) /\
  (exists evs,
     log (fst (close w s)) = log s ++ evs /\
     In EvCancel evs /\
     Forall (fun e => is_signal e = false) evs).
Proof.
  intros Hwf Hset maxWait.
  destruct (close_spec w s Hwf Hset) as (h' & _ & E). rewrite E. simpl.
  split; [|split].
  - intros H0. unfold final_result. fold maxWait. rewrite H0. reflexivity.
  - intros Hne. unfold final_result. fold maxWait.
    destruct (Z.eqb_spec maxWait 0) as [|_]; [contradiction|].
    pose proof (select_spec [time_After maxWait; cmd_Wait_at w] (select_pick w)) as Hs.
    destruct (select _ _) as [[i t]| |]; [|contradiction|].
    + destruct Hs as [Hi Hmin].
      assert (Htimer : t <= Z.max 0 maxWait) by (apply (Hmin 0%nat); reflexivity).
      destruct i as [|[|i]]; simpl in Hi; [| |discriminate].
      * inversion Hi; subst t. split; [|split; [reflexivity|by left]].
        intros t Ht Hlt. specialize (Hmin 1%nat t). simpl in Hmin.
        rewrite Ht in Hmin. specialize (Hmin eq_refl). lia.
      * inversion Hi as [Hw]. split; [reflexivity|]. split; [|by right].
        intros Hlate. specialize (Hlate t Hw). lia.
    + exfalso. apply (Hs 0%nat (Z.max 0 maxWait)). reflexivity.
  - exists (shutdown_events w (self s)). split; [reflexivity|].
    split; [|apply shutdown_events_no_signal].
    unfold shutdown_events. rewrite !in_app_iff. simpl. tauto.
Qed.

Lemma well_formed_no_subscriber p h lg :
  (forall d, chs_of d p = None \/ chs_of d p = Some ∅) ->
  well_formed (mkSys p h lg).
Proof.
  intros H l (d & m & name & Hm & Hl). simpl in Hm.
  destruct (H d) as [E|E]; rewrite E in Hm; [discriminate|].
  inversion Hm; subst. by rewrite lookup_empty in Hl.
Qed.

Lemma started_piped_ready :
  well_formed started_piped /\ all_set (self started_piped) /\
  well_formed started_piped_1s /\ all_set (self started_piped_1s).
Proof.
  repeat split; try reflexivity;
    apply well_formed_no_subscriber; intros []; right; reflexivity.
Qed.

Lemma close_final_wait_witness :
  snd (close calm_world started_piped) = Ret None /\
  snd (close stubborn_world started_piped_1s) = Ret (Some DeadlineExceeded) /\
  snd (close failing_world started_piped_1s) = Ret None.
Proof.
  destruct started_piped_ready as (Hwf & Hset & Hwf1 & Hset1).
  split; [|split].
  - destruct (close_final_wait calm_world started_piped Hwf Hset) as (H0 & _ & _).
    exact (H0 eq_refl).
  - destruct (close_final_wait stubborn_world started_piped_1s Hwf1 Hset1)
      as (_ & H1 & _).
    destruct (H1 ltac:(discriminate)) as (_ & Hlate & _).
    apply Hlate. intros t Ht. discriminate.
  - destruct (close_final_wait failing_world started_piped_1s Hwf1 Hset1)
      as (_ & H1 & _).
    destruct (H1 ltac:(discriminate)) as (Hearly & _ & _).
    apply (Hearly 5); reflexivity.
Defined.

(** ** Terminate, Interrupt, Kill *)

Lemma shutdown_eq call w : shutdown call w = close_then_signal w (signal_of call).
Proof. destruct call; reflexivity. Qed.

(** When [close] returns, each of the three calls has run the whole of
    [close] first, then sent its signal, and returns the join of the two
    errors: nil only when both are nil, and otherwise an error from which
    each non-nil one can be reached. *)
Lemma shutdown_joins_errors call w s pid closeErr :
  well_formed s -> all_set (self s) -> proc (self s) = Some pid ->
  snd (close w s) = Ret closeErr ->
  let signalErr := proc_Signal w (signal_of call) in
  (exists h',
     shutdown call w s
     = (mkSys (self s) h'
              (log s ++ shutdown_events w (self s) ++ [EvSignal (signal_of call)]),
        Ret (errors_Join [closeErr; signalErr]))) /\
  (errors_Join [closeErr; signalErr] = None <->
     closeErr = None /\ signalErr = None) /\
  (forall e, closeErr = Some e ->
     exists j, errors_Join [closeErr; signalErr] = Some j /\ reaches j e) /\
  (forall e, signalErr = Some e ->
     exists j, errors_Join [closeErr; signalErr] = Some j /\ reaches j e).
Proof.
  intros Hwf Hset Hp Hc signalErr.
  split; [|split; [apply errors_Join_nil|split]].
  - destruct (close_spec w s Hwf Hset) as (h' & _ & E).
    rewrite E in Hc. simpl in Hc. rewrite Hc in E.
    exists h'. rewrite shutdown_eq. unfold close_then_signal.
    rewrite bind_get, Hp, (bind_Ret _ _ _ _ _ E). cbv beta.
    unfold Signal. rewrite bind_assoc, bind_get. simpl self. rewrite Hp.
    rewrite bind_assoc, bind_emit. simpl. by rewrite <- app_assoc.
  - intros e ->. apply errors_Join_left.
  - intros e He. rewrite He. apply errors_Join_right.
Qed.

Lemma shutdown_joins_errors_witness :
  snd (Terminate failing_world started_piped)
  = Ret (Some (Joined [Wrapped "out" ErrTooLong;
                       ErrOther "os: process already finished"])).
Proof.
  destruct started_piped_ready as (Hwf & Hset & _).
  destruct (shutdown_joins_errors CallTerminate failing_world started_piped 4242
              (Some (Wrapped "out" ErrTooLong)) Hwf Hset eq_refl eq_refl)
    as ((h' & E) & _).
  change (snd (shutdown CallTerminate failing_world started_piped)
          = Ret (Some (Joined [Wrapped "out" ErrTooLong;
                               ErrOther "os: process already finished"]))).
  rewrite E. reflexivity.
Defined.

(** C6 at the failing input, the Proc of TestTerminateProcess and
    TestKillProcess: no direction is enabled, Start succeeds, and each of
    Terminate, Interrupt and Kill panics in [close] at
    [p.stdinPipe.Close()]; nothing is closed, no signal is sent (the record
    of effects is as Start left it) and no error is returned. *)
Lemma shutdown_without_pipes_panics :
  NewProc calm_world plain_options = inr plain_proc /\
  Start calm_world (fresh_sys plain_proc) = (started_plain, Ret None) /\
  Terminate calm_world started_plain = (started_plain, Panic nil_deref) /\
  Interrupt calm_world started_plain = (started_plain, Panic nil_deref) /\
  Kill calm_world started_plain = (started_plain, Panic nil_deref) /\
  log started_plain = [EvSpawn 4242].
Proof. repeat split; reflexivity. Qed.

(** ** Shutdown and the directions that were enabled *)

Lemma listen_all_zero s :
  options (self s) = zero_Options ->
  (run listenStdinPipe then run listenStdoutPipe then
   run listenStderrPipe then ret (@None error)) s = (s, Ret None).
Proof.
  intros H.
  unfold listenStdinPipe, listenStdoutPipe, listenStderrPipe, listenOutPipe.
  rewrite bind_assoc, bind_get, H. simpl. rewrite bind_ret.
  rewrite bind_assoc, bind_get, H. simpl. rewrite bind_ret.
  rewrite bind_assoc, bind_get, H. simpl. rewrite bind_ret.
  reflexivity.
Qed.

(** Start on a Proc with zero options: nothing is handed to the group. *)
Lemma Start_zero_options w s s' :
  options (self s) = zero_Options ->
  Start w s = (s', Ret None) ->
  exists pid,
    cmd_Start w = inr pid /\
    s' = mkSys (if 0 <=? pid then set_process pid (set_proc pid (self s))
                else set_proc pid (self s))
               (heap s) (log s ++ [EvSpawn pid]).
Proof.
  intros Ho. unfold Start. destruct (cmd_Start w) as [err|pid]; [discriminate|].
  intros H. exists pid. split; [reflexivity|].
  autorewrite with go in H. unfold start in H. rewrite bind_get in H.
  unfold PID in H. simpl in H.
  destruct (0 <=? pid).
  - destruct (process_NewProcess w) as [err|]; [discriminate|].
    pose proof (listen_all_zero
                  (mkSys (set_process pid (set_proc pid (self s))) (heap s)
                         (log s ++ [EvSpawn pid])) Ho) as E.
    assert (H' : (mkSys (set_process pid (set_proc pid (self s))) (heap s)
                        (log s ++ [EvSpawn pid]), Ret (@None error))
                 = (s', Ret None)) by (rewrite <- E; exact H).
    congruence.
  - pose proof (listen_all_zero
                  (mkSys (set_proc pid (self s)) (heap s) (log s ++ [EvSpawn pid]))
                  Ho) as E.
    assert (H' : (mkSys (set_proc pid (self s)) (heap s) (log s ++ [EvSpawn pid]),
                  Ret (@None error))
                 = (s', Ret None)) by (rewrite <- E; exact H).
    congruence.
Qed.

(** C10.  On a Proc built by NewProc and started, each of Terminate,
    Interrupt and Kill goes through [close] without regard to the
    directions that were enabled.  With the three of them enabled it closes
    the three pipes, cancels, waits for the group and, once the group is
    done, releases the pool, sends the signal and returns the joined
    errors.  With one of them disabled it panics on the nil pipe of the
    first disabled direction: nothing is cancelled, waited for or released,
    no signal is sent and no error is returned. *)
Theorem shutdown_needs_every_direction w procOptions p s call :
  NewProc w procOptions = inr p ->
  Start w (fresh_sys p) = (s, Ret None) ->
  let o := apply_options procOptions in
  (Stdin o && Stdout o && Stderr o = true ->
     exists pid,
       log (fst (shutdown call w s))
       = [EvSpawn pid; EvClosePipe DirStdin; EvClosePipe DirStdout;
          EvClosePipe DirStderr; EvCancel; EvGroupWait] ++
         (if group_stuck w then []
          else [EvPoolRelease; EvSignal (signal_of call)]) /\
       snd (shutdown call w s)
       = if group_stuck w then Block
         else Ret (errors_Join [first_error (group_returned w);
                                proc_Signal w (signal_of call)])) /\
  (Stdin o && Stdout o && Stderr o = false ->
     snd (shutdown call w s) = Panic nil_deref /\
     forallb spawn_or_pipe_close (log (fst (shutdown call w s))) = true).
Proof.
  intros HN HS o.
  pose proof (NewProc_returns _ _ _ HN) as Hp. simpl in Hp. fold o in Hp.
  assert (Ho : options (self (fresh_sys p)) = zero_Options)
    by (rewrite Hp; reflexivity).
  destruct (Start_zero_options _ _ _ Ho HS) as (pid & _ & ->).
  rewrite Hp. clear HN HS Ho Hp.
  destruct (Stdin o), (Stdout o), (Stderr o); simpl andb; (split; intros Hb);
    try discriminate Hb.
  - exists pid. destruct w as [? ? ? ? ? ? returned stuck ? ? ? sig].
    destruct (0 <=? pid), call, stuck; split; vm_compute; reflexivity.
  - destruct (0 <=? pid), call; split; vm_compute; reflexivity.
  - destruct (0 <=? pid), call; split; vm_compute; reflexivity.
  - destruct (0 <=? pid), call; split; vm_compute; reflexivity.
  - destruct (0 <=? pid), call; split; vm_compute; reflexivity.
  - destruct (0 <=? pid), call; split; vm_compute; reflexivity.
  - destruct (0 <=? pid), call; split; vm_compute; reflexivity.
  - destruct (0 <=? pid), call; split; vm_compute; reflexivity.
Qed.

Lemma shutdown_needs_every_direction_witness :
  snd (Terminate calm_world started_new_piped) = Ret None /\
  log (fst (Terminate calm_world started_new_piped))
  = [EvSpawn 4242; EvClosePipe DirStdin; EvClosePipe DirStdout;
     EvClosePipe DirStderr; EvCancel; EvGroupWait; EvPoolRelease;
     EvSignal SIGTERM] /\
  snd (Kill calm_world started_plain) = Panic nil_deref.
Proof.
  assert (N1 : NewProc calm_world every_direction = inr new_piped) by reflexivity.
  assert (S1 : Start calm_world (fresh_sys new_piped) = (started_new_piped, Ret None))
    by reflexivity.
  assert (N2 : NewProc calm_world plain_options = inr plain_proc) by reflexivity.
  assert (S2 : Start calm_world (fresh_sys plain_proc) = (started_plain, Ret None))
    by reflexivity.
  destruct (shutdown_needs_every_direction calm_world every_direction new_piped
              started_new_piped CallTerminate N1 S1) as [Hall _].
  destruct (shutdown_needs_every_direction calm_world plain_options plain_proc
              started_plain CallKill N2 S2) as [_ Hnone].
  destruct (Hall eq_refl) as (pid & Hlog & Hres).
  destruct (Hnone eq_refl) as [Hpanic _].
  split; [exact Hres|]. split; [|exact Hpanic].
  vm_compute. reflexivity.
Defined.

(** ** Further facts about the same code *)

(** The order of [close] (proc.go lines 162-196) on a Proc that has all its
    parts: the streams and then the pipe of stdin, of stdout, of stderr;
    then the cancellation; then the wait; and the pool is released last,
    by the deferred call, unless the wait never ends. *)
Theorem close_order w s :
  well_formed s -> all_set (self s) ->
  log (fst (close w s))
  = log s ++
    stream_events DirStdin (self s) ++ [EvClosePipe DirStdin] ++
    stream_events DirStdout (self s) ++ [EvClosePipe DirStdout] ++
    stream_events DirStderr (self s) ++ [EvClosePipe DirStderr] ++
    [EvCancel;
     if MaxWaitTime (options (self s)) =? 0 then EvGroupWait else EvCmdWait] ++
    match snd (close w s) with
    | Block => []
    | _ => [EvPoolRelease]
    end.
Proof.
  intros Hwf Hset. destruct (close_spec w s Hwf Hset) as (h' & _ & E).
  rewrite E. reflexivity.
Qed.

Lemma close_order_witness :
  log (fst (close calm_world started_piped))
  = [EvSpawn 4242; EvGo (OutReader DirStdout); EvGo (OutReader DirStderr);
     EvClosePipe DirStdin; EvClosePipe DirStdout; EvClosePipe DirStderr;
     EvCancel; EvGroupWait; EvPoolRelease].
Proof.
  destruct started_piped_ready as (Hwf & Hset & _).
  rewrite (close_order calm_world started_piped Hwf Hset).
  vm_compute. reflexivity.
Defined.



Lemma NewProc_options_zero_witness :
  NewProc calm_world echo_options = inr echo_proc /\
  Stdout (apply_options echo_options) = true /\
  options echo_proc = zero_Options /\
  StdoutPipe "echo" (fresh_sys echo_proc) = (fresh_sys echo_proc, Ret None).
Proof.
  assert (N : NewProc calm_world echo_options = inr echo_proc) by reflexivity.
  destruct (NewProc_options_zero calm_world echo_options echo_proc DirStdout "echo" N)
    as [Ho Hb].
  split; [exact N|]. split; [reflexivity|]. split; [exact Ho|exact Hb].
Defined.

Lemma PipeGo_bind_before_Start_panics_witness :
  PipeGoBind.StdoutPipe "echo" (fresh_sys piped_proc)
  = (fresh_sys piped_proc, Panic "bind pipe after process started: echo").
Proof.
  exact (PipeGo_bind_before_Start_panics DirStdout "echo" (fresh_sys piped_proc)
           eq_refl).
Defined.

(** Start on a Proc built by NewProc hands nothing to the group, whatever
    directions were asked for, since the listen functions read the zero
    [options]; and the maximal wait that [close] reads is zero. *)
Theorem NewProc_Start_launches_nothing w procOptions p s :
  NewProc w procOptions = inr p ->
  Start w (fresh_sys p) = (s, Ret None) ->
  (exists pid, cmd_Start w = inr pid /\ log s = [EvSpawn pid]) /\
  MaxWaitTime (options (self s)) = 0 /\
  forall d, enabled d (options (self s)) = false.
Proof.
  intros HN HS.
  pose proof (NewProc_returns _ _ _ HN) as Hp. simpl in Hp.
  assert (Ho : options p = zero_Options) by (rewrite Hp; reflexivity).
  destruct (Start_zero_options w (fresh_sys p) s Ho HS) as (pid & Hc & ->).
  split; [exists pid; split; [exact Hc|reflexivity]|].
  simpl in *.
  assert (E : options (if 0 <=? pid then set_process pid (set_proc pid p)
                       else set_proc pid p) = zero_Options).
  { destruct (0 <=? pid); simpl; exact Ho. }
  rewrite E. split; [reflexivity|]. intros []; reflexivity.
Qed.

Lemma NewProc_Start_launches_nothing_witness :
  (exists pid, cmd_Start calm_world = inr pid /\
               log started_new_piped = [EvSpawn pid]) /\
  MaxWaitTime (options (self started_new_piped)) = 0.
Proof.
  assert (N : NewProc calm_world (every_direction ++ [WithMaxWaitTime Second])
              = inr new_piped) by reflexivity.
  assert (S1 : Start calm_world (fresh_sys new_piped) = (started_new_piped, Ret None))
    by reflexivity.
  destruct (NewProc_Start_launches_nothing calm_world
              (every_direction ++ [WithMaxWaitTime Second]) new_piped
              started_new_piped N S1) as (H1 & H2 & _).
  split; [exact H1|exact H2].
Defined.

(* ===================================================================== *)
(** * Further properties of the channel *)
(* ===================================================================== *)

Section ChannelUseFacts.
Context {T : Type}.
Variable zero : T.
Implicit Types (c : Channel T) (v : T).

Lemma TrySend_room v c :
  quiescent c -> val (closed c) = false -> has_room (ch c) = true ->
  TrySend v c = (with_buf (chan_buf (ch c) ++ [v]) c, Ret true).
Proof.
  destruct c as [[lk fl] [cp bf cl]]; intros [Hl Hv] Hf Hr; simpl in *; subst.
  unfold TrySend, bind, on_closed, on_ch, zoom, chan_send_default; simpl.
  rewrite Hr. reflexivity.
Qed.

Lemma recv_by_item (k : recv_kind) c x rest :
  quiescent c -> val (closed c) = false -> chan_buf (ch c) = x :: rest ->
  recv_by zero k c = (with_buf rest c, Ret (x, true)).
Proof.
  destruct c as [[lk fl] [cp bf cl]]; intros [Hl Hv] Hf Hb; simpl in *; subst.
  destruct k; reflexivity.
Qed.

Lemma with_buf_facts (b : list T) c :
  quiescent c ->
  quiescent (with_buf b c) /\
  val (closed (with_buf b c)) = val (closed c) /\
  chan_cap (ch (with_buf b c)) = chan_cap (ch c) /\
  chan_buf (ch (with_buf b c)) = b.
Proof. intros [Hl Hv]. repeat split; auto. Qed.

Lemma with_buf_with_buf (b b' : list T) c : with_buf b (with_buf b' c) = with_buf b c.
Proof. reflexivity. Qed.

Lemma TrySend_all_room (vs : list T) c :
  quiescent c -> val (closed c) = false ->
  (length (chan_buf (ch c)) + length vs <= chan_cap (ch c))%nat ->
  TrySend_all vs c
  = (with_buf (chan_buf (ch c) ++ vs) c, Ret (map (fun _ => true) vs)).
Proof.
  revert c. induction vs as [|v vs IH]; intros c Hq Hf Hlen; simpl.
  - rewrite app_nil_r. destruct c as [a [cp bf cl]]. reflexivity.
  - simpl in Hlen.
    assert (Hr : has_room (ch c) = true).
    { unfold has_room. apply Nat.ltb_lt. lia. }
    rewrite (bind_Ret _ _ _ _ _ (TrySend_room v c Hq Hf Hr)).
    destruct (with_buf_facts (chan_buf (ch c) ++ [v]) c Hq) as (Hq' & Hv' & Hc' & Hb').
    rewrite (bind_Ret _ _ _ _ _ (IH _ Hq' (eq_trans Hv' Hf)
               ltac:(rewrite Hb', Hc', length_app; simpl; lia))).
    rewrite Hb', with_buf_with_buf, <- app_assoc. reflexivity.
Qed.

Lemma recv_all_items (ks : list recv_kind) (b : list T) c :
  quiescent c -> val (closed c) = false -> chan_buf (ch c) = b ->
  length ks = length b ->
  recv_all zero ks c = (with_buf [] c, Ret (map (fun x => (x, true)) b)).
Proof.
  revert b c. induction ks as [|k ks IH]; intros b c Hq Hf Hb Hlen.
  - destruct b; [|discriminate]. destruct c as [a [cp bf cl]].
    simpl in Hb. subst. reflexivity.
  - destruct b as [|x rest]; [discriminate|]. simpl.
    rewrite (bind_Ret _ _ _ _ _ (recv_by_item k c x rest Hq Hf Hb)).
    destruct (with_buf_facts rest c Hq) as (Hq' & Hv' & _ & Hb').
    rewrite (bind_Ret _ _ _ _ _ (IH rest _ Hq' (eq_trans Hv' Hf) Hb'
               ltac:(simpl in Hlen; lia))).
    reflexivity.
Qed.

(** First in, first out.  On an open channel nobody is inside of, with
    room for the items [vs] behind what is already buffered, TrySend takes
    every item of [vs], and as many Recv and TryRecv calls as there are
    items then hand out the buffered items followed by [vs], in that
    order, each with the flag true, and leave the channel empty. *)
Theorem TrySend_then_Recv_fifo c (vs : list T) (ks : list recv_kind) :
  quiescent c -> val (closed c) = false ->
  (length (chan_buf (ch c)) + length vs <= chan_cap (ch c))%nat ->
  length ks = (length (chan_buf (ch c)) + length vs)%nat ->
  (let* oks := TrySend_all vs in let* rs := recv_all zero ks in ret (oks, rs)) c
  = (with_buf [] c,
     Ret (map (fun _ => true) vs,
          map (fun x => (x, true)) (chan_buf (ch c) ++ vs))).
Proof.
  intros Hq Hf Hroom Hlen.
  rewrite (bind_Ret _ _ _ _ _ (TrySend_all_room vs c Hq Hf Hroom)).
  destruct (with_buf_facts (chan_buf (ch c) ++ vs) c Hq) as (Hq' & Hv' & _ & Hb').
  rewrite (bind_Ret _ _ _ _ _
             (recv_all_items ks (chan_buf (ch c) ++ vs) _ Hq' (eq_trans Hv' Hf) Hb'
                ltac:(rewrite length_app; lia))).
  reflexivity.
Qed.

Lemma exec_op_inv (o : chan_op T) c :
  chan_inv c ->
  chan_inv (fst (exec_op zero o c)) /\
  chan_cap (ch (fst (exec_op zero o c))) = chan_cap (ch c) /\
  (val (closed c) = true -> val (closed (fst (exec_op zero o c))) = true) /\
  (forall msg, snd (exec_op zero o c) <> Panic msg).
Proof.
  destruct c as [[lk fl] [cp bf cl]]. intros [[Hl Hv] Hlen]. simpl in *. subst.
  unfold chan_inv, quiescent.
  destruct o as [v|v| | | |]; destruct cl; simpl;
    unfold TrySend, Send, TryRecv, Recv, Closed, Close, bind, on_closed, on_ch,
           zoom, chan_send_default, chan_send, chan_recv, chan_recv_default,
           has_room; simpl;
    try (destruct (Nat.ltb_spec (length bf) cp); simpl; rewrite ?length_app; simpl);
    try (destruct bf as [|x rest]; simpl in *);
    repeat split; auto; try discriminate; try lia.
Qed.

(** Used by one goroutine, the methods of a channel never panic, whatever
    the calls and their order; they keep the buffer within the capacity,
    leave the capacity as it was made and the mutex free, and never reopen
    a closed channel. *)
Theorem Channel_sequential_use (os : list (chan_op T)) c :
  chan_inv c ->
  chan_inv (fst (exec_ops zero os c)) /\
  chan_cap (ch (fst (exec_ops zero os c))) = chan_cap (ch c) /\
  (val (closed c) = true -> val (closed (fst (exec_ops zero os c))) = true) /\
  (forall msg, snd (exec_ops zero os c) <> Panic msg).
Proof.
  revert c. induction os as [|o os IH]; intros c Hinv; simpl.
  - repeat split; auto; try apply Hinv; try discriminate.
  - destruct (exec_op_inv o c Hinv) as (Hi & Hc & Hv & Hp).
    unfold bind. destruct (exec_op zero o c) as [c1 [[]|msg|]] eqn:E; simpl in *.
    + destruct (IH c1 Hi) as (Hi' & Hc' & Hv' & Hp').
      repeat split; try apply Hi'; auto; congruence.
    + exfalso. exact (Hp msg eq_refl).
    + repeat split; try apply Hi; auto; try discriminate.
Qed.

(** What the calls that do not wait answer on a channel nobody is inside
    of, and when the calls that wait are left waiting: TrySend says true
    exactly when the channel is open and has room; TryRecv hands out the
    oldest item of an open channel and otherwise says false, for an empty
    open channel as for a closed one; Send waits exactly when the channel
    is open and full, Recv exactly when it is open and empty. *)
Theorem Channel_answers v c :
  quiescent c ->
  snd (TrySend v c) = Ret (negb (val (closed c)) && has_room (ch c)) /\
  snd (TryRecv zero c)
  = Ret (if val (closed c) then (zero, false)
         else match chan_buf (ch c) with
              | x :: _ => (x, true)
              | [] => (zero, false)
              end) /\
  (snd (Send v c) = Block <->
     val (closed c) = false /\ has_room (ch c) = false) /\
  (snd (Recv zero c) = Block <->
     val (closed c) = false /\ chan_buf (ch c) = []).
Proof.
  destruct c as [[lk fl] [cp bf cl]]. intros [Hl Hv]. simpl in *. subst.
  destruct cl; simpl;
    unfold TrySend, Send, TryRecv, Recv, bind, on_closed, on_ch, zoom,
           chan_send_default, chan_send, chan_recv, chan_recv_default; simpl.
  - repeat split; try reflexivity; try (intros [? ?]); discriminate.
  - destruct (has_room _); destruct bf as [|x rest]; simpl;
      repeat split; try reflexivity; try (intros [? ?]); try discriminate; auto.
Qed.

End ChannelUseFacts.

(** [Store] then [Load] gives back what was stored and leaves the mutex
    free; with the mutex held, both wait. *)
Theorem Atomic_Store_Load {T} (a : Atomic T) (x : T) :
  (Locker a = false ->
     (run Store x then Load) a = (mkAtomic false x, Ret x)) /\
  (Locker a = true ->
     Store x a = (a, Block) /\ Load a = (a, Block)).
Proof.
  destruct a as [[|] y]; split; intros H; try discriminate; try reflexivity.
  split; reflexivity.
Qed.

Lemma TrySend_then_Recv_fifo_witness :
  (let* oks := TrySend_all [8; 9] in
   let* rs := recv_all 0 [ByRecv; ByTryRecv; ByRecv] in ret (oks, rs)) one_of_three
  = (with_buf [] one_of_three,
     Ret ([true; true], [(7, true); (8, true); (9, true)])).
Proof.
  apply (TrySend_then_Recv_fifo 0 one_of_three [8; 9] [ByRecv; ByTryRecv; ByRecv]).
  - split; reflexivity.
  - reflexivity.
  - simpl. lia.
  - reflexivity.
Defined.

Lemma Channel_sequential_use_witness :
  chan_inv (fst (exec_ops 0 [OpTrySend 9; OpClose; OpSend 1; OpRecv; OpClose]
                          two_buffered)) /\
  snd (exec_ops 0 [OpTrySend 9; OpClose; OpSend 1; OpRecv; OpClose] two_buffered)
  = Ret tt.
Proof.
  assert (Hinv : chan_inv two_buffered).
  { split; [split; reflexivity|simpl; lia]. }
  destruct (Channel_sequential_use 0
              [OpTrySend 9; OpClose; OpSend 1; OpRecv; OpClose] two_buffered Hinv)
    as (H & _).
  split; [exact H|reflexivity].
Defined.

Lemma Channel_answers_witness :
  snd (TrySend 5 unbuffered) = Ret false /\
  snd (TryRecv 0 unbuffered) = Ret (0, false) /\
  snd (Send 5 unbuffered) = Block /\
  snd (Recv 0 unbuffered) = Block.
Proof.
  assert (Hq : quiescent unbuffered) by (split; reflexivity).
  destruct (Channel_answers 0 5 unbuffered Hq) as (H1 & H2 & H3 & H4).
  split; [exact H1|]. split; [exact H2|].
  split; [apply H3|apply H4]; split; reflexivity.
Defined.

Lemma Atomic_Store_Load_witness :
  (run Store 4 then Load) (mkAtomic false 3) = (mkAtomic false 4, Ret 4) /\
  Load (mkAtomic true 3) = (mkAtomic true 3, Block).
Proof.
  split.
  - exact (proj1 (Atomic_Store_Load (mkAtomic false 3) 4) eq_refl).
  - exact (proj2 (proj2 (Atomic_Store_Load (mkAtomic true 3) 4) eq_refl)).
Defined.

(* ===================================================================== *)
(** * Further properties of the races *)
(* ===================================================================== *)

Lemma closed_race_step {T} (v : T) (c0 : Channel T) g s s' :
  closed_race_ok c0 s -> step v g s = Some s' -> closed_race_ok c0 s'.
Proof.
  destruct s as [[[lk fl] q] spc cpc].
  intros (Hch & Hv & Hl & Hex & Hs & Hc) H. simpl in *. subst.
  destruct Hs as [->|[->|[->| ->]]]; destruct Hc as [->|[->|[->| ->]]];
    simpl in *; try discriminate; destruct g; simpl in H;
    try discriminate; inversion H; subst; clear H;
    unfold closed_race_ok; simpl; repeat split; auto 10.
Qed.

Lemma closed_race_schedule {T} (v : T) (c0 : Channel T) gs s s' :
  closed_race_ok c0 s -> schedule v gs s = Some s' -> closed_race_ok c0 s'.
Proof.
  revert s. induction gs as [|g gs IH]; intros s Hok H; simpl in H.
  - congruence.
  - destruct (step v g s) as [s1|] eqn:E; [|discriminate].
    eapply IH; [|exact H]. eapply closed_race_step; eassumption.
Qed.

Lemma closed_race_progress {T} (v : T) (c0 : Channel T) s :
  closed_race_ok c0 s ->
  (sender s = SendReturned false /\ closer s = CloseReturned) \/
  exists g, step v g s <> None.
Proof.
  destruct s as [[[lk fl] q] spc cpc].
  intros (Hch & Hv & Hl & Hex & Hs & Hc). simpl in *. subst.
  destruct Hs as [->|[->|[->| ->]]]; destruct Hc as [->|[->|[->| ->]]];
    simpl in *; try discriminate; auto;
    first [ right; exists Sender; simpl; discriminate
          | right; exists Closer; simpl; discriminate ].
Qed.

(** Once the flag is set, Send and Close are safe together.  Start a
    Send(v) and a Close() on a channel whose flag is set and that nobody is
    inside of, and let the scheduler interleave their atomic actions in any
    order: the run-time channel is never touched, nobody panics, v is never
    handed over, and as long as one of the two has not returned one of them
    can move. *)
Theorem Send_and_Close_on_closed_channel {T} (v : T) (c : Channel T) gs s :
  Locker (closed c) = false -> val (closed c) = true ->
  schedule v gs (race_start c) = Some s ->
  ch (shared s) = ch c /\
  val (closed (shared s)) = true /\
  (forall msg, sender s <> SendPanicked msg) /\
  (forall msg, closer s <> ClosePanicked msg) /\
  sender s <> SendReturned true /\
  ((sender s = SendReturned false /\ closer s = CloseReturned) \/
   exists g, step v g s <> None).
Proof.
  intros Hl Hv H.
  assert (H0 : closed_race_ok c (race_start c)).
  { unfold closed_race_ok. simpl. rewrite Hl, Hv. repeat split; auto. }
  pose proof (closed_race_schedule v c gs _ _ H0 H) as Hok.
  pose proof (closed_race_progress v c s Hok) as Hpr.
  destruct Hok as (Hch & Hval & _ & _ & Hs & Hc).
  repeat split; auto.
  - intros msg E. rewrite E in Hs.
    destruct Hs as [?|[?|[?|?]]]; discriminate.
  - intros msg E. rewrite E in Hc.
    destruct Hc as [?|[?|[?|?]]]; discriminate.
  - intros E. rewrite E in Hs.
    destruct Hs as [?|[?|[?|?]]]; discriminate.
Qed.

Lemma Send_and_Close_on_closed_channel_witness :
  exists s,
    schedule 5 [Sender; Sender; Closer; Sender; Closer; Closer; Closer]
             (race_start two_buffered_closed) = None /\
    schedule 5 [Sender; Sender; Sender; Closer; Closer; Closer]
             (race_start two_buffered_closed) = Some s /\
    ch (shared s) = ch two_buffered_closed /\
    sender s = SendReturned false /\ closer s = CloseReturned.
Proof.
  eexists. split; [reflexivity|]. split; [reflexivity|].
  destruct (Send_and_Close_on_closed_channel 5 two_buffered_closed
              [Sender; Sender; Sender; Closer; Closer; Closer] _
              eq_refl eq_refl eq_refl) as (Hch & _).
  split; [exact Hch|]. split; reflexivity.
Defined.

(** Two Close() calls at once can panic.  On every open channel nobody is
    inside of, when both callers test the flag before either has closed
    the run-time channel, the second to take the mutex closes a closed
    channel: the test of the flag and the close are not one action. *)
Theorem Close_racing_Close_panics {T} (c : Channel T) :
  quiescent c -> val (closed c) = false ->
  exists s,
    schedule_closers close_during_close (closers_start c) = Some s /\
    first_closer s = CloseStore /\
    second_closer s = ClosePanicked "close of closed channel".
Proof.
  destruct c as [[lk fl] [cp bf cl]]. intros [Hl Hv] Hf. simpl in *. subst.
  exists (mkClosers (mkChannel (mkAtomic true false) (mkChan cp bf true))
                    CloseStore (ClosePanicked "close of closed channel")).
  split; [|split; reflexivity].
  cbv. reflexivity.
Qed.

Lemma Close_racing_Close_panics_witness :
  exists s,
    schedule_closers close_during_close (closers_start unbuffered) = Some s /\
    second_closer s = ClosePanicked "close of closed channel".
Proof.
  destruct (Close_racing_Close_panics unbuffered (conj eq_refl eq_refl) eq_refl)
    as (s & H1 & _ & H2).
  exists s. split; assumption.
Defined.

(* ===================================================================== *)
(** * Further properties of the tasks *)
(* ===================================================================== *)

Lemma stdin_writer_feeds name (rounds : list stdin_round) (chunks : list bytes) rest :
  Forall2 feeds rounds chunks ->
  stdin_writer name (rounds ++ rest)
  = (chunks ++ fst (stdin_writer name rest), snd (stdin_writer name rest)).
Proof.
  induction 1 as [|r bs rounds chunks (Hc & Hr & Hw) _ IH]; simpl.
  - destruct (stdin_writer name rest); reflexivity.
  - rewrite Hc, Hr, Hw. simpl. rewrite IH. reflexivity.
Qed.

(** The writer of a stdin subscriber (helper.go 180-200).  After rounds in
    which chunks were received and written, exactly those chunks have been
    given to the pipe, one Write per chunk and in the order received; and
    the next round ends the task as follows: nil when the stream reports
    closed (and the value that came with it is not written), nil when the
    scope is found cancelled with context.Canceled and the scope's error
    when it is done for another reason (nothing is received in that
    round), the pipe's error wrapped with the subscriber's name when the
    Write fails; without a further value the task stays in Recv. *)
Theorem stdin_writer_returns name (rounds : list stdin_round) (chunks : list bytes) :
  Forall2 feeds rounds chunks ->
  stdin_writer name rounds = (chunks, Block) /\
  (forall r rest bs,
      in_ctx r = None -> in_recv r = Some (bs, false) ->
      stdin_writer name (rounds ++ r :: rest) = (chunks, Ret None)) /\
  (forall r rest err,
      in_ctx r = Some err ->
      stdin_writer name (rounds ++ r :: rest)
      = (chunks, Ret (if is_Canceled err then None else Some err))) /\
  (forall r rest bs err,
      in_ctx r = None -> in_recv r = Some (bs, true) -> in_write r = Some err ->
      stdin_writer name (rounds ++ r :: rest)
      = (chunks ++ [bs], Ret (Some (Errorf name err)))) /\
  (forall r rest,
      in_ctx r = None -> in_recv r = None ->
      stdin_writer name (rounds ++ r :: rest) = (chunks, Block)).
Proof.
  intros H. repeat split.
  - pose proof (stdin_writer_feeds name rounds chunks [] H) as E.
    rewrite !app_nil_r in E. exact E.
  - intros r rest bs Hc Hr. rewrite (stdin_writer_feeds _ _ _ _ H). simpl.
    rewrite Hc, Hr. simpl. by rewrite app_nil_r.
  - intros r rest err Hc. rewrite (stdin_writer_feeds _ _ _ _ H). simpl.
    rewrite Hc. simpl. destruct (is_Canceled err); simpl; by rewrite app_nil_r.
  - intros r rest bs err Hc Hr Hw. rewrite (stdin_writer_feeds _ _ _ _ H). simpl.
    rewrite Hc, Hr, Hw. reflexivity.
  - intros r rest Hc Hr. rewrite (stdin_writer_feeds _ _ _ _ H). simpl.
    rewrite Hc, Hr. simpl. by rewrite app_nil_r.
Qed.

Lemma stdin_writer_returns_witness :
  stdin_writer "in"
    [mkStdinRound None (Some (chunk_hi, true)) None;
     mkStdinRound None (Some (chunk_ok, true)) None;
     mkStdinRound None (Some (nil_bytes, false)) None]
  = ([chunk_hi; chunk_ok], Ret None) /\
  stdin_writer "in"
    [mkStdinRound None (Some (chunk_hi, true)) None;
     mkStdinRound None (Some (chunk_ok, true)) None;
     mkStdinRound None (Some (chunk_hi, true)) (Some (ErrOther "broken pipe"))]
  = ([chunk_hi; chunk_ok; chunk_hi], Ret (Some (Wrapped "in" (ErrOther "broken pipe")))).
Proof.
  assert (H : Forall2 feeds
                [mkStdinRound None (Some (chunk_hi, true)) None;
                 mkStdinRound None (Some (chunk_ok, true)) None]
                [chunk_hi; chunk_ok]).
  { repeat constructor. }
  destruct (stdin_writer_returns "in" _ _ H) as (_ & H1 & _ & H3 & _).
  split.
  - exact (H1 (mkStdinRound None (Some (nil_bytes, false)) None) [] nil_bytes
              eq_refl eq_refl).
  - exact (H3 (mkStdinRound None (Some (chunk_hi, true)) (Some (ErrOther "broken pipe")))
              [] chunk_hi (ErrOther "broken pipe") eq_refl eq_refl eq_refl).
Defined.

(** When the pool refuses the task of a subscriber, the reader (helper.go
    220-258) stops there: the chunks of the rounds before went to every
    subscriber, the chunk of this round went only to the subscribers the
    range visited before the refused one, and nothing is read after it. *)
Theorem listenOutStream_stops_at_refusal names pre t post before name rest err scan_err :
  Forall (passes names) pre ->
  tick_ctx t = None ->
  names = before ++ name :: rest ->
  (forall n, In n before -> tick_submit t n = None) ->
  tick_submit t name = Some err ->
  listenOutStream names (pre ++ t :: post) scan_err
  = (flat_map (tasks_of names) pre ++ map (fun n => (n, tick_bytes t)) before,
     Some (Errorf name err)).
Proof.
  intros Hpre Hctx -> Hb He.
  rewrite listenOutStream_passes by assumption. simpl.
  rewrite Hctx. simpl. rewrite (submit_all_fails _ _ _ _ _ _ Hb He). reflexivity.
Qed.

Lemma listenOutStream_stops_at_refusal_witness :
  listenOutStream ["a"; "b"; "c"]
    [good_round;
     mkTick chunk_ok None
            (fun n => if String.eqb n "b" then Some (ErrOther "pool overload") else None);
     good_round] None
  = ([("a", chunk_hi); ("b", chunk_hi); ("c", chunk_hi); ("a", chunk_ok)],
     Some (Wrapped "b" (ErrOther "pool overload"))).
Proof.
  apply (listenOutStream_stops_at_refusal ["a"; "b"; "c"] [good_round]
           (mkTick chunk_ok None
              (fun n => if String.eqb n "b" then Some (ErrOther "pool overload")
                        else None))
           [good_round] ["a"] "b" ["c"] (ErrOther "pool overload") None).
  - repeat constructor.
  - reflexivity.
  - reflexivity.
  - intros n [<-|[]]. reflexivity.
  - reflexivity.
Defined.

(** The task handed to the pool delivers to a subscriber that is ready in
    time, and gives up on cancellation: when the send can proceed before
    the 20 seconds are over and before the scope is done, on a channel that
    is not closed, the chunk is enqueued at that instant; when the scope is
    done first and in time, the task ends then without enqueuing; a send
    that proceeds first on a closed run-time channel panics. *)
Theorem dispatch_task_delivers (e : dispatch_env) :
  (forall t,
      send_at e = Some t -> t < dispatch_deadline ->
      (forall u, done_at e = Some u -> t < u) ->
      dispatch_task e
      = if send_closed e then Panic "send on closed channel"
        else Ret (Enqueued, t)) /\
  (forall u,
      done_at e = Some u -> u < dispatch_deadline ->
      (forall t, send_at e = Some t -> u < t) ->
      dispatch_task e = Ret (CtxFired, u)).
Proof.
  unfold dispatch_task.
  pose proof (select_spec [done_at e; time_After dispatch_deadline; send_at e]
                          (dispatch_pick e)) as Hs.
  assert (Htimer : time_After dispatch_deadline = Some dispatch_deadline)
    by reflexivity.
  rewrite Htimer in *.
  split.
  - intros t Ht Hlt Hdone.
    destruct (select _ _) as [[i x]| |]; [|contradiction|].
    + destruct Hs as [Hi Hmin].
      assert (Hx : x <= t) by (apply (Hmin 2%nat); simpl; by rewrite Ht).
      destruct i as [|[|[|i]]]; simpl in Hi; try discriminate.
      * inversion Hi as [Hd]. specialize (Hdone x Hd). lia.
      * inversion Hi; subst. lia.
      * rewrite Ht in Hi. inversion Hi; subst. reflexivity.
    + exfalso. apply (Hs 1%nat dispatch_deadline). reflexivity.
  - intros u Hu Hlt Hsend.
    destruct (select _ _) as [[i x]| |]; [|contradiction|].
    + destruct Hs as [Hi Hmin].
      assert (Hx : x <= u) by (apply (Hmin 0%nat); simpl; by rewrite Hu).
      destruct i as [|[|[|i]]]; simpl in Hi; try discriminate.
      * rewrite Hu in Hi. inversion Hi; subst. reflexivity.
      * inversion Hi; subst. lia.
      * inversion Hi as [Hd]. specialize (Hsend x Hd). lia.
    + exfalso. apply (Hs 1%nat dispatch_deadline). reflexivity.
Qed.

Lemma dispatch_task_delivers_witness :
  dispatch_task (mkDispatchEnv (Some 9000) (Some 3000) false 0)
  = Ret (Enqueued, 3000) /\
  dispatch_task (mkDispatchEnv (Some 9000) None false 0) = Ret (CtxFired, 9000).
Proof.
  split.
  - apply (proj1 (dispatch_task_delivers (mkDispatchEnv (Some 9000) (Some 3000) false 0))
             3000 eq_refl eq_refl).
    intros u Hu. inversion Hu. reflexivity.
  - apply (proj2 (dispatch_task_delivers (mkDispatchEnv (Some 9000) None false 0))
             9000 eq_refl eq_refl).
    intros t Ht. discriminate.
Defined.

(* ===================================================================== *)
(** * Further properties of the supervisor *)
(* ===================================================================== *)

(** NewProc (proc.go 20-84) returns a Proc exactly when every collaborator
    it calls succeeds: the pipe of each direction that was asked for, and
    the pool when a direction was asked for; a collaborator of a direction
    that was not asked for is not called.  Otherwise it returns the error
    of the first that fails, in the order stdin, stdout, stderr, pool. *)
Theorem NewProc_errors w procOptions :
  let o := apply_options procOptions in
  let ok (on : bool) (res : option error) := on = true -> res = None in
  ((exists p, NewProc w procOptions = inr p) <->
     ok (Stdin o) (cmd_StdinPipe w) /\ ok (Stdout o) (cmd_StdoutPipe w) /\
     ok (Stderr o) (cmd_StderrPipe w) /\
     ok (Stdin o || Stdout o || Stderr o) (ants_NewPool w)) /\
  (forall err,
      Stdin o = true -> cmd_StdinPipe w = Some err ->
      NewProc w procOptions = inl err) /\
  (forall err,
      ok (Stdin o) (cmd_StdinPipe w) ->
      Stdout o = true -> cmd_StdoutPipe w = Some err ->
      NewProc w procOptions = inl err) /\
  (forall err,
      ok (Stdin o) (cmd_StdinPipe w) -> ok (Stdout o) (cmd_StdoutPipe w) ->
      Stderr o = true -> cmd_StderrPipe w = Some err ->
      NewProc w procOptions = inl err) /\
  (forall err,
      ok (Stdin o) (cmd_StdinPipe w) -> ok (Stdout o) (cmd_StdoutPipe w) ->
      ok (Stderr o) (cmd_StderrPipe w) ->
      Stdin o || Stdout o || Stderr o = true -> ants_NewPool w = Some err ->
      NewProc w procOptions = inl err).
Proof.
  unfold NewProc. simpl.
  destruct (Stdin (apply_options procOptions)),
           (Stdout (apply_options procOptions)),
           (Stderr (apply_options procOptions));
    destruct (cmd_StdinPipe w), (cmd_StdoutPipe w), (cmd_StderrPipe w),
             (ants_NewPool w); simpl;
    repeat split; intros;
    repeat match goal with
           | H : exists _, _ |- _ => destruct H
           | H : _ /\ _ |- _ => destruct H
           | H : true = true -> _ |- _ => specialize (H eq_refl)
           | H : false = true -> _ |- _ => clear H
           end;
    try discriminate; try congruence; eexists; reflexivity.
Qed.

Lemma NewProc_errors_witness :
  NewProc no_stdout_world every_direction = inl (ErrOther "exec: Stdout already set") /\
  NewProc no_stdout_world [WithStdin] = inl (ErrOther "pool") /\
  (exists p, NewProc no_stdout_world plain_options = inr p).
Proof.
  destruct (NewProc_errors no_stdout_world every_direction) as (_ & _ & H2 & _).
  destruct (NewProc_errors no_stdout_world [WithStdin]) as (_ & _ & _ & _ & H4).
  destruct (NewProc_errors no_stdout_world plain_options) as (H0 & _).
  split; [|split].
  - apply H2; [intros _| |]; reflexivity.
  - apply H4; try reflexivity; intros H; try reflexivity; discriminate H.
  - apply H0. repeat split; intros H; discriminate H.
Defined.

Lemma for_each_group_Go_ok {X} (xs : list X) (f : X -> task) s :
  group (self s) = true ->
  for_each xs (fun x => group_Go (f x)) s
  = (mkSys (self s) (heap s) (log s ++ map (fun x => EvGo (f x)) xs), Ret tt).
Proof.
  revert s. induction xs as [|x xs IH]; intros s Hg; simpl.
  - destruct s; unfold ret; simpl. by rewrite app_nil_r.
  - unfold group_Go at 1. rewrite bind_assoc, bind_get, Hg, bind_emit.
    rewrite IH by exact Hg. simpl. by rewrite <- app_assoc.
Qed.

Lemma listen_all_ok s :
  group (self s) = true ->
  (run listenStdinPipe then run listenStdoutPipe then
   run listenStderrPipe then ret (@None error)) s
  = (mkSys (self s) (heap s) (log s ++ launches (self s)), Ret None).
Proof.
  intros Hg. destruct s as [p h lg]. simpl in Hg.
  unfold listenStdinPipe, listenStdoutPipe, listenStderrPipe, listenOutPipe, launches.
  rewrite bind_assoc, bind_get. simpl.
  assert (Hin : forall (k : unit -> M Sys (option error)),
    bind (if negb (Stdin (options p)) then ret tt
          else for_each (range_chs (stdinChs p))
                 (fun entry => group_Go (StdinWriter (fst entry) (snd entry))))
         k (mkSys p h lg)
    = k tt (mkSys p h (lg ++ (if Stdin (options p)
                              then map (fun entry => EvGo (StdinWriter (fst entry) (snd entry)))
                                       (range_chs (stdinChs p))
                              else [])))).
  { intros k. destruct (Stdin (options p)); simpl.
    - unfold bind at 1.
      rewrite (for_each_group_Go_ok _ (fun entry => StdinWriter (fst entry) (snd entry))
                 (mkSys p h lg) Hg). reflexivity.
    - rewrite bind_ret, app_nil_r. reflexivity. }
  rewrite Hin. clear Hin.
  assert (Hout : forall d lg0 (k : unit -> M Sys (option error)),
    bind (let* s := get in
          if negb (enabled d (options (self s))) then ret tt
          else group_Go (OutReader d)) k (mkSys p h lg0)
    = k tt (mkSys p h (lg0 ++ (if enabled d (options p)
                               then [EvGo (OutReader d)] else [])))).
  { intros d lg0 k. rewrite bind_assoc, bind_get. simpl.
    destruct (enabled d (options p)); simpl.
    - unfold group_Go. rewrite bind_assoc, bind_get. simpl. rewrite Hg.
      rewrite bind_emit. reflexivity.
    - rewrite bind_ret, app_nil_r. reflexivity. }
  rewrite (Hout DirStdout), (Hout DirStderr). simpl.
  unfold ret. rewrite <- !app_assoc. reflexivity.
Qed.

(** Start (proc.go 121-149) on a Proc with a group, when the spawn
    succeeds and the process information can be read: it records the
    child, then hands to the group one writer for every bound stdin
    subscriber if stdin is enabled and one reader for each enabled output
    direction, and nothing for a direction that is not enabled; the heap
    of streams is not touched and nil is returned. *)
Theorem Start_launches w s pid :
  group (self s) = true ->
  cmd_Start w = inr pid ->
  (0 <= pid -> process_NewProcess w = None) ->
  Start w s
  = (mkSys (spawned pid (self s)) (heap s)
           (log s ++ [EvSpawn pid] ++ launches (self s)),
     Ret None).
Proof.
  intros Hg Hc Hinfo. unfold Start. rewrite Hc.
  rewrite bind_set_self, bind_emit. unfold start. rewrite bind_get.
  unfold PID, spawned. simpl.
  destruct (Z.leb_spec 0 pid) as [Hle|Hlt].
  - rewrite (Hinfo Hle). rewrite bind_assoc, bind_set_self, bind_ret.
    rewrite listen_all_ok by exact Hg. simpl. by rewrite <- app_assoc.
  - rewrite bind_ret. rewrite listen_all_ok by exact Hg. simpl.
    by rewrite <- app_assoc.
Qed.

Lemma Start_launches_witness :
  Start calm_world bound_sys
  = (mkSys (spawned 4242 (self bound_sys)) (heap bound_sys)
           ([] ++ [EvSpawn 4242] ++ launches (self bound_sys)),
     Ret None) /\
  launches (self bound_sys)
  = [EvGo (StdinWriter "in" 0%nat); EvGo (OutReader DirStdout);
     EvGo (OutReader DirStderr)].
Proof.
  split.
  - apply (Start_launches calm_world bound_sys 4242); try reflexivity.
  - vm_compute. reflexivity.
Defined.

(** A Start that spawns the child but cannot read its process information
    (proc.go 121-149) returns that error with the child running: [p.proc]
    is set and PID() gives the child's id, nothing is handed to the group,
    and from then on a bind panics as after a successful Start. *)
Theorem Start_fails_after_spawn w s pid err :
  cmd_Start w = inr pid -> 0 <= pid -> process_NewProcess w = Some err ->
  let s' := mkSys (set_proc pid (self s)) (heap s) (log s ++ [EvSpawn pid]) in
  Start w s = (s', Ret (Some err)) /\
  PID (self s') = pid /\
  process (self s') = process (self s) /\
  forall d name, bind_of d name s' = (s', Panic (bind_after_start name)).
Proof.
  intros Hc Hpid Hinfo s'. split; [|split; [reflexivity|split; [reflexivity|]]].
  - unfold Start. rewrite Hc. rewrite bind_set_self, bind_emit.
    unfold start. rewrite bind_get. unfold PID. simpl.
    destruct (Z.leb_spec 0 pid) as [_|Hlt]; [|lia].
    rewrite Hinfo. rewrite bind_ret. reflexivity.
  - intros d name. rewrite bind_of_eq. apply bind_pipe_started.
    unfold PID. simpl. lia.
Qed.

Lemma Start_fails_after_spawn_witness :
  Start no_info_world (fresh_sys piped_proc)
  = (mkSys (set_proc 4242 piped_proc) ∅ [EvSpawn 4242],
     Ret (Some (ErrOther "process does not exist"))) /\
  StdoutPipe "out" (mkSys (set_proc 4242 piped_proc) ∅ [EvSpawn 4242])
  = (mkSys (set_proc 4242 piped_proc) ∅ [EvSpawn 4242],
     Panic "bind pipe after process started: out").
Proof.
  destruct (Start_fails_after_spawn no_info_world (fresh_sys piped_proc) 4242
              (ErrOther "process does not exist") eq_refl ltac:(lia) eq_refl)
    as (H1 & _ & _ & H4).
  split; [exact H1|]. exact (H4 DirStdout "out").
Defined.

(** *** The heap after close *)

Lemma Close_quiescent_exact (c : Stream) :
  quiescent c -> Close c = (closed_of c, Ret tt).
Proof.
  destruct c as [[lk fl] [cp bf cl]]. intros [Hl Hv]. simpl in *. subst.
  destruct cl; reflexivity.
Qed.

Lemma closed_of_quiescent (c : Stream) : quiescent (closed_of c).
Proof. split; reflexivity. Qed.

Lemma closed_of_idem (c : Stream) : closed_of (closed_of c) = closed_of c.
Proof. reflexivity. Qed.

Lemma lookup_close_at (h : gmap loc Stream) l j :
  close_at h l !! j = if decide (l = j) then closed_of <$> h !! j else h !! j.
Proof.
  unfold close_at. destruct (h !! l) as [c|] eqn:E.
  - destruct (decide (l = j)) as [<-|Hne].
    + by rewrite lookup_insert_eq, E.
    + by rewrite lookup_insert_ne.
  - destruct (decide (l = j)) as [<-|Hne]; [by rewrite E|reflexivity].
Qed.

Lemma lookup_close_all (locs : list loc) (h : gmap loc Stream) j :
  close_all locs h !! j
  = if decide (j ∈ locs) then closed_of <$> h !! j else h !! j.
Proof.
  unfold close_all. revert h. induction locs as [|l locs IH]; intros h; simpl.
  - destruct (decide (j ∈ [])) as [Hin|]; [|reflexivity].
    by apply elem_of_nil in Hin.
  - rewrite IH, lookup_close_at.
    destruct (decide (j ∈ locs)) as [Hin|Hnin];
      destruct (decide (l = j)) as [->|Hne];
      destruct (decide (j ∈ _ :: locs)) as [Hor|Hnor];
      try reflexivity;
      try (destruct (h !! j); reflexivity);
      try (exfalso; apply Hnor; set_solver);
      try (exfalso; apply elem_of_cons in Hor as [->|Hor]; tauto).
Qed.

Lemma close_all_app l1 l2 (h : gmap loc Stream) :
  close_all (l1 ++ l2) h = close_all l2 (close_all l1 h).
Proof. unfold close_all. apply fold_left_app. Qed.

Lemma close_all_quiet (locs : list loc) (h : gmap loc Stream) :
  quiet_heap_le h (close_all locs h).
Proof.
  intros l c Hl Hq. pose proof (lookup_close_all locs h l) as E.
  unfold Stream in *. rewrite Hl in E.
  destruct (decide (l ∈ locs)); simpl in E; eauto using closed_of_quiescent.
Qed.

Lemma for_each_stream_Close_exact (xs : list (string * loc)) s :
  (forall e, In e xs -> exists c, heap s !! snd e = Some c /\ quiescent c) ->
  for_each xs (fun entry => stream_Close (snd entry)) s
  = (mkSys (self s) (close_all (map snd xs) (heap s))
           (log s ++ map (fun entry => EvCloseStream (snd entry)) xs),
     Ret tt).
Proof.
  revert s. induction xs as [|x xs IH]; intros s Hall; simpl.
  - destruct s; unfold ret; simpl. by rewrite app_nil_r.
  - destruct (Hall x (or_introl eq_refl)) as (c & Hc & Hq).
    assert (E : stream_Close (snd x) s
                = (mkSys (self s) (close_at (heap s) (snd x))
                         (log s ++ [EvCloseStream (snd x)]), Ret tt)).
    { unfold stream_Close, close_at. unfold Stream in *.
      rewrite !Hc, (Close_quiescent_exact c Hq). reflexivity. }
    rewrite (bind_Ret _ _ _ _ _ E). rewrite IH.
    + simpl. by rewrite <- app_assoc.
    + intros e He. destruct (Hall e (or_intror He)) as (c0 & Hc0 & Hq0). simpl.
      pose proof (lookup_close_at (heap s) (snd x) (snd e)) as E1.
      unfold Stream in *. rewrite Hc0 in E1.
      destruct (decide (snd x = snd e)); simpl in E1;
        eauto using closed_of_quiescent.
Qed.

Lemma registered_in_range s l :
  registered s l <-> In l (registered_locs (self s)).
Proof.
  unfold registered, registered_locs, locs_of. rewrite !in_app_iff. split.
  - intros (d & m & name & Hm & Hl).
    assert (Hin : In l (map snd (range_chs (chs_of d (self s))))).
    { rewrite Hm. simpl. apply in_map_iff. exists (name, l). split; [reflexivity|].
      apply list_elem_of_In, elem_of_map_to_list. exact Hl. }
    destruct d; auto.
  - assert (H : forall d, In l (map snd (range_chs (chs_of d (self s)))) ->
                exists d m name, chs_of d (self s) = Some m /\ m !! name = Some l).
    { intros d Hin. apply in_map_iff in Hin as ([name l'] & <- & Hin).
      destruct (chs_of d (self s)) as [m|] eqn:Hm; [|destruct Hin].
      exists d, m, name. split; [exact Hm|].
      apply elem_of_map_to_list, list_elem_of_In. exact Hin. }
    intros [Hin|[Hin|Hin]]; eapply H; exact Hin.
Qed.

Lemma close_streams_exact d s :
  well_formed s ->
  close_streams d s
  = (mkSys (self s) (close_all (locs_of d (self s)) (heap s))
           (log s ++ stream_events d (self s)), Ret tt).
Proof.
  intros Hwf. unfold close_streams. rewrite bind_get.
  apply for_each_stream_Close_exact. intros [name l] Hin. simpl.
  apply Hwf. apply registered_in_range. unfold registered_locs, locs_of.
  rewrite !in_app_iff.
  assert (In l (map snd (range_chs (chs_of d (self s))))).
  { apply in_map_iff. exists (name, l). auto. }
  destruct d; auto.
Qed.

Lemma close_direction_exact d s :
  well_formed s -> pipe_of d (self s) = true ->
  forall A (k : M Sys A),
    (run close_streams d then run close_pipe d then k) s
    = k (mkSys (self s) (close_all (locs_of d (self s)) (heap s))
               (log s ++ stream_events d (self s) ++ [EvClosePipe d])).
Proof.
  intros Hwf Hp A k.
  rewrite (bind_Ret _ _ _ _ _ (close_streams_exact d s Hwf)). cbv beta.
  rewrite (bind_Ret _ _ _ _ _
             (close_pipe_ok d (mkSys (self s) (close_all (locs_of d (self s)) (heap s))
                                     (log s ++ stream_events d (self s))) Hp)).
  simpl. by rewrite <- app_assoc.
Qed.

(** The whole of [close] on a Proc that has all its parts. *)
Lemma close_exact w s :
  well_formed s -> all_set (self s) ->
  close w s
  = (mkSys (self s) (close_all (registered_locs (self s)) (heap s))
           (log s ++ shutdown_events w (self s)),
     final_result w (self s)).
Proof.
  intros Hwf (Hin & Hout & Herr & Hpool & Hgroup & Hcancel).
  unfold close.
  rewrite (close_direction_exact DirStdin s Hwf Hin).
  set (s1 := mkSys (self s) _ _).
  assert (Hwf1 : well_formed s1)
    by (apply well_formed_le; [exact Hwf|apply close_all_quiet]).
  rewrite (close_direction_exact DirStdout s1 Hwf1 Hout).
  set (s2 := mkSys (self s1) _ _).
  assert (Hwf2 : well_formed s2)
    by (apply (well_formed_le s1); [exact Hwf1|apply close_all_quiet]).
  rewrite (close_direction_exact DirStderr s2 Hwf2 Herr).
  subst s2 s1. simpl self. simpl log. simpl heap. unfold defer.
  match goal with
  | |- context [bind do_cancel _ ?st] =>
      rewrite (bind_Ret _ _ _ _ _ (do_cancel_ok st Hcancel))
  end.
  cbv beta. rewrite final_wait_spec by exact Hgroup.
  cbv iota beta. simpl self. simpl log. simpl heap.
  unfold shutdown_events, registered_locs. rewrite !close_all_app.
  destruct (final_result w (self s)) as [r|msg|];
    try (rewrite pool_Release_ok by exact Hpool);
    simpl; repeat rewrite <- app_assoc; simpl; try rewrite app_nil_r; reflexivity.
Qed.

Lemma Signal_frame w sig s :
  heap (fst (Signal w sig s)) = heap s /\ self (fst (Signal w sig s)) = self s.
Proof.
  unfold Signal. rewrite bind_get. destruct (proc (self s)); [|auto].
  rewrite bind_emit. auto.
Qed.

Lemma shutdown_heap call w s pid :
  well_formed s -> all_set (self s) -> proc (self s) = Some pid ->
  heap (fst (shutdown call w s)) = close_all (registered_locs (self s)) (heap s).
Proof.
  intros Hwf Hset Hp. rewrite shutdown_eq. unfold close_then_signal.
  rewrite bind_get, Hp. unfold bind at 1. rewrite (close_exact w s Hwf Hset).
  destruct (final_result w (self s)) as [r|msg|]; try reflexivity.
  unfold bind.
  pose proof (Signal_frame w (signal_of call)
                (mkSys (self s) (close_all (registered_locs (self s)) (heap s))
                       (log s ++ shutdown_events w (self s)))) as [Hh _].
  destruct (Signal w (signal_of call) _) as [s2 [r2|msg| ]]; simpl in *; exact Hh.
Qed.

(** Shutdown and the bound streams (proc.go 162-244).  On a Proc that was
    never started, Signal, Terminate, Interrupt and Kill return nil and do
    nothing: the bound streams stay open.  On a started Proc that has all
    its parts, Terminate, Interrupt and Kill leave every registered stream
    closed (Closed() says true, TrySend says false, Recv says closed), with
    its buffered items in place, also when the wait of [close] never ends;
    and a stream on the heap that is not registered is left exactly as it
    was. *)
Theorem shutdown_closes_registered_streams call w s :
  well_formed s -> all_set (self s) ->
  (proc (self s) = None ->
     shutdown call w s = (s, Ret None) /\
     forall sig, Signal w sig s = (s, Ret None)) /\
  (proc (self s) <> None ->
     (forall l, registered s l ->
        exists c,
          heap s !! l = Some c /\
          heap (fst (shutdown call w s)) !! l = Some (closed_of c) /\
          snd (Closed (closed_of c)) = Ret true /\
          snd (TrySend nil_bytes (closed_of c)) = Ret false /\
          snd (Recv nil_bytes (closed_of c)) = Ret (nil_bytes, false)) /\
     (forall l, ~ registered s l ->
        heap (fst (shutdown call w s)) !! l = heap s !! l)).
Proof.
  intros Hwf Hset. split.
  - intros Hp. split.
    + rewrite shutdown_eq. unfold close_then_signal. by rewrite bind_get, Hp.
    + intros sig. unfold Signal. by rewrite bind_get, Hp.
  - intros Hp. destruct (proc (self s)) as [pid|] eqn:E; [|congruence].
    pose proof (shutdown_heap call w s pid Hwf Hset E) as Hh. split.
    + intros l Hreg. destruct (Hwf l Hreg) as (c & Hc & Hq).
      exists c. split; [exact Hc|]. rewrite Hh, lookup_close_all.
      unfold Stream in *. rewrite Hc.
      apply registered_in_range, list_elem_of_In in Hreg.
      destruct (decide (l ∈ registered_locs (self s))); [|contradiction].
      repeat split; reflexivity.
    + intros l Hnreg. rewrite Hh, lookup_close_all.
      destruct (decide (l ∈ registered_locs (self s))) as [Hin|]; [|reflexivity].
      apply list_elem_of_In, registered_in_range in Hin. contradiction.
Qed.

Lemma started_bound_ready :
  well_formed started_bound /\ all_set (self started_bound) /\
  registered started_bound 0%nat /\ ~ registered started_bound 1%nat /\
  Start calm_world bound_sys = (started_bound, Ret None).
Proof.
  assert (Hreg : forall l, registered started_bound l -> l = 0%nat).
  { intros l (d & m & name & Hm & Hl).
    destruct d; simpl in Hm; inversion Hm; subst; clear Hm.
    - apply lookup_insert_Some in Hl as [[_ <-]|[_ Hl]]; [reflexivity|].
      by rewrite lookup_empty in Hl.
    - by rewrite lookup_empty in Hl.
    - by rewrite lookup_empty in Hl. }
  split; [|split; [|split; [|split]]].
  - intros l Hl. apply Hreg in Hl as ->. exists empty_stream.
    split; [reflexivity|split; reflexivity].
  - repeat split; reflexivity.
  - exists DirStdin, (<["in" := 0%nat]> ∅), "in". split; reflexivity.
  - intros H. apply Hreg in H. discriminate.
  - reflexivity.
Qed.

Lemma shutdown_closes_registered_streams_witness :
  (exists c,
     heap started_bound !! 0%nat = Some c /\
     heap (fst (shutdown CallKill calm_world started_bound)) !! 0%nat
       = Some (closed_of c) /\
     snd (Closed (closed_of c)) = Ret true /\
     snd (TrySend nil_bytes (closed_of c)) = Ret false /\
     snd (Recv nil_bytes (closed_of c)) = Ret (nil_bytes, false)) /\
  heap (fst (shutdown CallKill calm_world started_bound)) !! 1%nat
    = heap started_bound !! 1%nat /\
  shutdown CallKill calm_world bound_sys = (bound_sys, Ret None).
Proof.
  destruct started_bound_ready as (Hwf & Hset & Hreg & Hnreg & _).
  destruct (shutdown_closes_registered_streams CallKill calm_world started_bound
              Hwf Hset) as [_ H].
  destruct (H ltac:(discriminate)) as [H1 H2].
  split; [exact (H1 0%nat Hreg)|]. split; [exact (H2 1%nat Hnreg)|].
  reflexivity.
Defined.

(** *** Binding subscribers *)

Lemma chs_of_set_chs_ne d d' m p :
  d <> d' -> chs_of d' (set_chs d m p) = chs_of d' p.
Proof. destruct d, d'; try reflexivity; congruence. Qed.

Lemma set_chs_fields d m p :
  proc (set_chs d m p) = proc p /\ process (set_chs d m p) = process p /\
  options (set_chs d m p) = options p /\
  (forall d', pipe_of d' (set_chs d m p) = pipe_of d' p) /\
  group (set_chs d m p) = group p /\ workerPool (set_chs d m p) = workerPool p /\
  cancel (set_chs d m p) = cancel p.
Proof. destruct d; repeat split; intros []; reflexivity. Qed.

Lemma fresh_not_in_heap (h : gmap loc Stream) : h !! fresh (dom h) = None.
Proof. apply not_elem_of_dom, is_fresh. Qed.

Lemma bind_pipe_nil_map not_started d name s :
  PID (self s) = not_started -> enabled d (options (self s)) = true ->
  chs_of d (self s) = None ->
  bind_pipe not_started d name s
  = (mkSys (self s) (<[fresh (dom (heap s)) := empty_stream]> (heap s)) (log s),
     Panic "assignment to entry in nil map").
Proof.
  intros H He Hm. unfold bind_pipe.
  rewrite bind_get, H, Z.eqb_refl, He, Hm. reflexivity.
Qed.

(** A new stream at a fresh address keeps the registry sound. *)
Lemma well_formed_alloc s p' lg :
  well_formed s ->
  (forall l, registered (mkSys p' (heap s) lg) l ->
     l = fresh (dom (heap s)) \/ registered s l) ->
  well_formed (mkSys p' (<[fresh (dom (heap s)) := empty_stream]> (heap s)) lg).
Proof.
  intros Hwf Hreg l Hl.
  assert (Hl' : registered (mkSys p' (heap s) lg) l) by exact Hl.
  destruct (Hreg l Hl') as [->|Hold]; simpl.
  - exists empty_stream. split; [apply lookup_insert_eq|split; reflexivity].
  - destruct (Hwf l Hold) as (c & Hc & Hq). exists c. split; [|exact Hq].
    rewrite lookup_insert_ne; [exact Hc|].
    intros <-. pose proof (fresh_not_in_heap (heap s)) as Hf.
    unfold Stream in *. rewrite Hf in Hc. discriminate.
Qed.

Lemma registered_after_bind d name l m s lg h :
  chs_of d (self s) = Some m ->
  forall l',
    registered (mkSys (set_chs d (Some (<[name := l]> m)) (self s)) h lg) l' ->
    l' = l \/ registered s l'.
Proof.
  intros Hm l' (d' & m' & n & Hm' & Hl'). simpl in Hm'.
  assert (Hd : d = d' \/ d <> d')
    by (destruct d, d'; (by left) || (by right)).
  destruct Hd as [<-|Hne].
  - rewrite chs_of_set_chs in Hm'. inversion Hm'; subst m'.
    apply lookup_insert_Some in Hl' as [[_ <-]|[_ Hl']]; [by left|].
    right. by exists d, m, n.
  - rewrite chs_of_set_chs_ne in Hm' by exact Hne.
    right. by exists d', m', n.
Qed.

Lemma bind_pipe_well_formed not_started d name s :
  well_formed s -> well_formed (fst (bind_pipe not_started d name s)).
Proof.
  intros Hwf.
  destruct (Z.eq_dec (PID (self s)) not_started) as [Hp|Hp];
    [|by rewrite bind_pipe_started].
  destruct (enabled d (options (self s))) eqn:He;
    [|by rewrite bind_pipe_disabled].
  destruct (chs_of d (self s)) as [m|] eqn:Hm.
  - rewrite (bind_pipe_registers _ _ _ _ m Hp He Hm). simpl.
    apply well_formed_alloc; [exact Hwf|].
    apply registered_after_bind. exact Hm.
  - rewrite (bind_pipe_nil_map _ _ _ _ Hp He Hm). simpl.
    apply well_formed_alloc; [exact Hwf|]. intros l Hl. right. exact Hl.
Qed.

(** What a bind keeps (helper.go 126-172), whichever way it ends.  On a
    Proc whose registered streams are on the heap and idle, after
    StdinPipe, StdoutPipe or StderrPipe that is still so; every stream
    that was on the heap is there unchanged; the child, the options, the
    registries of the other directions and the entries of other names in
    this direction are as before, and nothing is logged.  When the call
    returns a stream, that stream did not exist before and was registered
    nowhere, it is empty and open, and it is what the name now stands
    for. *)
Theorem bind_keeps_well_formed d name s :
  well_formed s ->
  let s' := fst (bind_of d name s) in
  well_formed s' /\
  (forall l c, heap s !! l = Some c -> heap s' !! l = Some c) /\
  log s' = log s /\ proc (self s') = proc (self s) /\
  options (self s') = options (self s) /\
  (forall d', d' <> d -> chs_of d' (self s') = chs_of d' (self s)) /\
  (forall m n, chs_of d (self s) = Some m -> n <> name ->
     exists m', chs_of d (self s') = Some m' /\ m' !! n = m !! n) /\
  (forall l, snd (bind_of d name s) = Ret (Some l) ->
     heap s !! l = None /\ ~ registered s l /\
     heap s' !! l = Some empty_stream /\
     exists m', chs_of d (self s') = Some m' /\ m' !! name = Some l).
Proof.
  intros Hwf s'. subst s'. rewrite bind_of_eq.
  split; [by apply bind_pipe_well_formed|].
  destruct (Z.eq_dec (PID (self s)) (-1)) as [Hp|Hp].
  2: { rewrite bind_pipe_started by exact Hp. simpl.
       repeat split; eauto; discriminate. }
  destruct (enabled d (options (self s))) eqn:He.
  2: { rewrite bind_pipe_disabled by assumption. simpl.
       repeat split; eauto; discriminate. }
  pose proof (fresh_not_in_heap (heap s)) as Hf.
  assert (Hkeep : forall l c, heap s !! l = Some c ->
            <[fresh (dom (heap s)) := empty_stream]> (heap s) !! l = Some c).
  { intros l c Hc. rewrite lookup_insert_ne; [exact Hc|].
    intros <-. unfold Stream in *. rewrite Hf in Hc. discriminate. }
  destruct (chs_of d (self s)) as [m|] eqn:Hm.
  - rewrite (bind_pipe_registers _ _ _ _ m Hp He Hm). simpl.
    destruct (set_chs_fields d (Some (<[name := fresh (dom (heap s))]> m)) (self s))
      as (E1 & _ & E3 & _).
    split; [exact Hkeep|]. split; [reflexivity|]. split; [exact E1|].
    split; [exact E3|]. split; [|split].
    + intros d' Hne. apply chs_of_set_chs_ne. congruence.
    + intros m0 n Hm0 Hn. inversion Hm0; subst m0.
      exists (<[name := fresh (dom (heap s))]> m).
      split; [apply chs_of_set_chs|]. apply lookup_insert_ne. congruence.
    + intros l Hl. inversion Hl; subst l. split; [exact Hf|].
      split; [|split].
      * intros Hreg. destruct (Hwf _ Hreg) as (c & Hc & _).
        unfold Stream in *. rewrite Hf in Hc. discriminate.
      * apply lookup_insert_eq.
      * exists (<[name := fresh (dom (heap s))]> m).
        split; [apply chs_of_set_chs|apply lookup_insert_eq].
  - rewrite (bind_pipe_nil_map _ _ _ _ Hp He Hm). simpl.
    repeat split; eauto; discriminate.
Qed.

Lemma bound_sys_well_formed : well_formed bound_sys.
Proof.
  intros l (d & m & n & Hm & Hl). exists empty_stream.
  assert (l = 0%nat) as ->.
  { destruct d; simpl in Hm; inversion Hm; subst; clear Hm.
    - apply lookup_insert_Some in Hl as [[_ <-]|[_ Hl]]; [reflexivity|].
      by rewrite lookup_empty in Hl.
    - by rewrite lookup_empty in Hl.
    - by rewrite lookup_empty in Hl. }
  split; [reflexivity|split; reflexivity].
Qed.

Lemma bind_keeps_well_formed_witness :
  well_formed (fst (StdoutPipe "out" bound_sys)) /\
  heap (fst (StdoutPipe "out" bound_sys)) !! 0%nat = Some empty_stream /\
  chs_of DirStdin (self (fst (StdoutPipe "out" bound_sys)))
  = Some (<["in" := 0%nat]> ∅).
Proof.
  destruct (bind_keeps_well_formed DirStdout "out" bound_sys bound_sys_well_formed)
    as (H1 & H2 & _ & _ & _ & H6 & _).
  split; [exact H1|]. split.
  - exact (H2 0%nat empty_stream eq_refl).
  - exact (H6 DirStdin ltac:(discriminate)).
Defined.

(* ===================================================================== *)
(** * Properties of the options *)
(* ===================================================================== *)

Ltac options_family H :=
  destruct H as [(?n & ?a & ->)|[(?d & ->)|[(?e & ->)|[->|[->|[->|(?t & ->)]]]]]].

Ltac not_this_option :=
  let E := fresh "E" in
  intros E; apply (f_equal (fun g : Option => g zero_Options)) in E; discriminate.

Lemma apply_options_from procOptions :
  apply_options procOptions = apply_from zero_Options procOptions.
Proof. reflexivity. Qed.

Lemma apply_from_app o pre post :
  apply_from o (pre ++ post) = apply_from (apply_from o pre) post.
Proof. apply fold_left_app. Qed.

Lemma apply_from_flags os :
  Forall from_options_go os ->
  forall o,
    (Stdin (apply_from o os) = true <-> Stdin o = true \/ In WithStdin os) /\
    (Stdout (apply_from o os) = true <-> Stdout o = true \/ In WithStdout os) /\
    (Stderr (apply_from o os) = true <-> Stderr o = true \/ In WithStderr os).
Proof.
  induction 1 as [|f os Hf _ IH]; intros o.
  - simpl. tauto.
  - change (apply_from o (f :: os)) with (apply_from (f o) os).
    destruct (IH (f o)) as (I1 & I2 & I3). rewrite I1, I2, I3. clear I1 I2 I3 IH.
    assert (N1 : Stdin (f o) = true <-> Stdin o = true \/ f = WithStdin).
    { options_family Hf; simpl; split; auto; intros [H|H]; auto;
        exfalso; revert H; not_this_option. }
    assert (N2 : Stdout (f o) = true <-> Stdout o = true \/ f = WithStdout).
    { options_family Hf; simpl; split; auto; intros [H|H]; auto;
        exfalso; revert H; not_this_option. }
    assert (N3 : Stderr (f o) = true <-> Stderr o = true \/ f = WithStderr).
    { options_family Hf; simpl; split; auto; intros [H|H]; auto;
        exfalso; revert H; not_this_option. }
    simpl In. tauto.
Qed.

(** A field is kept by the options that are not its setter. *)
Lemma apply_from_keeps {A} (field : Options -> A) (setter : Option -> Prop) :
  (forall f, from_options_go f -> ~ setter f -> forall o, field (f o) = field o) ->
  forall os, Forall from_options_go os -> (forall f, In f os -> ~ setter f) ->
  forall o, field (apply_from o os) = field o.
Proof.
  intros Hkeep. induction 1 as [|f os Hf _ IH]; intros Hns o; [reflexivity|].
  change (apply_from o (f :: os)) with (apply_from (f o) os).
  rewrite IH by (intros g Hg; apply Hns; by right).
  apply Hkeep; [exact Hf|]. apply Hns. by left.
Qed.

Lemma keeps_MaxWaitTime f :
  from_options_go f -> ~ (exists t, f = WithMaxWaitTime t) ->
  forall o, MaxWaitTime (f o) = MaxWaitTime o.
Proof.
  intros Hf Hn o. options_family Hf; try reflexivity.
  exfalso. apply Hn. by eexists.
Qed.

Lemma keeps_Command f :
  from_options_go f -> ~ (exists n a, f = WithCommand n a) ->
  forall o, (Name (f o), Args (f o)) = (Name o, Args o).
Proof.
  intros Hf Hn o. options_family Hf; try reflexivity.
  exfalso. apply Hn. by do 2 eexists.
Qed.

Lemma keeps_WorkDir f :
  from_options_go f -> ~ (exists d, f = WithWorkDir d) ->
  forall o, WorkDir (f o) = WorkDir o.
Proof.
  intros Hf Hn o. options_family Hf; try reflexivity.
  exfalso. apply Hn. by eexists.
Qed.

Lemma keeps_Env f :
  from_options_go f -> ~ (exists e, f = WithEnv e) ->
  forall o, Env (f o) = Env o.
Proof.
  intros Hf Hn o. options_family Hf; try reflexivity.
  exfalso. apply Hn. by eexists.
Qed.

Lemma from_options_go_app pre f post :
  Forall from_options_go (pre ++ f :: post) -> Forall from_options_go post.
Proof.
  intros H. apply Forall_app in H as [_ H]. by inversion H.
Qed.

(** How the options of options.go compose in [NewProc] (proc.go 21-24).
    A direction is enabled exactly when its option is among the ones
    given, wherever it stands and however often: no option switches a
    direction off.  The maximal wait, the command with its arguments, the
    working directory and the environment are those of the last option
    that sets them, whatever stands before it or, of another kind, after
    it; and the maximal wait is zero when no option sets it. *)
Theorem options_compose (procOptions : list Option) :
  Forall from_options_go procOptions ->
  let o := apply_options procOptions in
  (Stdin o = true <-> In WithStdin procOptions) /\
  (Stdout o = true <-> In WithStdout procOptions) /\
  (Stderr o = true <-> In WithStderr procOptions) /\
  (forall pre post t,
      procOptions = pre ++ WithMaxWaitTime t :: post ->
      (forall t', ~ In (WithMaxWaitTime t') post) ->
      MaxWaitTime o = t) /\
  ((forall t, ~ In (WithMaxWaitTime t) procOptions) -> MaxWaitTime o = 0) /\
  (forall pre post name args,
      procOptions = pre ++ WithCommand name args :: post ->
      (forall n a, ~ In (WithCommand n a) post) ->
      Name o = name /\ Args o = args) /\
  (forall pre post dir,
      procOptions = pre ++ WithWorkDir dir :: post ->
      (forall d, ~ In (WithWorkDir d) post) ->
      WorkDir o = dir) /\
  (forall pre post env,
      procOptions = pre ++ WithEnv env :: post ->
      (forall e, ~ In (WithEnv e) post) ->
      Env o = map env_entry (map_to_list env)).
Proof.
  intros Hall o. subst o. rewrite apply_options_from.
  destruct (apply_from_flags procOptions Hall zero_Options) as (F1 & F2 & F3).
  split; [rewrite F1; simpl; intuition discriminate|].
  split; [rewrite F2; simpl; intuition discriminate|].
  split; [rewrite F3; simpl; intuition discriminate|].
  split; [|split; [|split; [|split]]].
  - intros pre post t -> Hlast.
    rewrite apply_from_app.
    change (apply_from ?o (?f :: post)) with (apply_from (f o) post).
    rewrite (apply_from_keeps MaxWaitTime _ keeps_MaxWaitTime);
      [reflexivity|by eapply from_options_go_app|].
    intros f Hin (t' & ->). exact (Hlast t' Hin).
  - intros Hnone.
    rewrite (apply_from_keeps MaxWaitTime _ keeps_MaxWaitTime);
      [reflexivity|exact Hall|].
    intros f Hin (t' & ->). exact (Hnone t' Hin).
  - intros pre post name args -> Hlast.
    rewrite apply_from_app.
    change (apply_from ?o (?f :: post)) with (apply_from (f o) post).
    pose proof (apply_from_keeps (fun o => (Name o, Args o)) _ keeps_Command post)
      as H.
    specialize (H (from_options_go_app _ _ _ Hall)).
    assert (Hns : forall f, In f post -> ~ (exists n a, f = WithCommand n a))
      by (intros f Hin (n & a & ->); exact (Hlast n a Hin)).
    specialize (H Hns (WithCommand name args (apply_from zero_Options pre))).
    simpl in H. split; [exact (f_equal fst H)|exact (f_equal snd H)].
  - intros pre post dir -> Hlast.
    rewrite apply_from_app.
    change (apply_from ?o (?f :: post)) with (apply_from (f o) post).
    rewrite (apply_from_keeps WorkDir _ keeps_WorkDir);
      [reflexivity|by eapply from_options_go_app|].
    intros f Hin (d & ->). exact (Hlast d Hin).
  - intros pre post env -> Hlast.
    rewrite apply_from_app.
    change (apply_from ?o (?f :: post)) with (apply_from (f o) post).
    rewrite (apply_from_keeps Env _ keeps_Env);
      [reflexivity|by eapply from_options_go_app|].
    intros f Hin (e & ->). exact (Hlast e Hin).
Qed.

Lemma options_compose_witness :
  Stdout (apply_options repeated_options) = true /\
  MaxWaitTime (apply_options repeated_options) = Second /\
  (Name (apply_options repeated_options) = "echo" /\
   Args (apply_options repeated_options) = ["hi"]).
Proof.
  assert (Hall : Forall from_options_go repeated_options).
  { unfold repeated_options.
    repeat (constructor; [unfold from_options_go; eauto 12|]).
    constructor. }
  destruct (options_compose repeated_options Hall) as (_ & H2 & _ & H4 & _ & H6 & _).
  split; [|split].
  - apply H2. right. left. reflexivity.
  - apply (H4 [WithMaxWaitTime (5 * Second); WithStdout; WithCommand "echo" ["hi"]]
              [WithStdout] Second eq_refl).
    intros t' [E|[]]. revert E. not_this_option.
  - apply (H6 [WithMaxWaitTime (5 * Second); WithStdout]
              [WithMaxWaitTime Second; WithStdout] "echo" ["hi"] eq_refl).
    intros n a [E|[E|[]]]; revert E.
    + intros E. apply (f_equal (fun g : Option => MaxWaitTime (g zero_Options))) in E.
      discriminate.
    + not_this_option.
Defined.

(** *** The environment *)

Lemma append_assoc (a b c : string) :
  String.append (String.append a b) c = String.append a (String.append b c).
Proof.
  induction a as [|x a IH]; [reflexivity|].
  change (String x (String.append (String.append a b) c)
          = String x (String.append a (String.append b c))).
  by rewrite IH.
Qed.

(** WithEnv (options.go 41-49) replaces the environment of the options by
    one entry "k=v" for each key of the map, nothing else: what was set
    before is dropped, whatever the order of the range the entries are
    those of the map and as many as it has keys, and the other fields are
    kept.  The keys and values are not checked: two maps that differ in
    where an "=" stands give the same entry. *)
Theorem WithEnv_entries (env : gmap string string) (o : Options) :
  (forall e,
      In e (Env (WithEnv env o)) <->
      exists k v, env !! k = Some v /\
                  e = String.append k (String.append "=" v)) /\
  length (Env (WithEnv env o)) = size env /\
  (Env (WithEnv env o) = [] <-> env = ∅) /\
  WithEnv env o
  = mkOptions (Name o) (Args o) (WorkDir o) (Env (WithEnv env zero_Options))
              (Stdin o) (Stdout o) (Stderr o) (MaxWaitTime o) /\
  (forall k v1 v2,
      WithEnv {[ String.append k (String.append "=" v1) := v2 ]} o
      = WithEnv {[ k := String.append v1 (String.append "=" v2) ]} o).
Proof.
  split; [|split; [|split; [|split]]].
  - intros e. simpl. rewrite in_map_iff. split.
    + intros ([k v] & <- & Hin). exists k, v. split; [|reflexivity].
      apply elem_of_map_to_list, list_elem_of_In. exact Hin.
    + intros (k & v & Hkv & ->). exists (k, v). split; [reflexivity|].
      apply list_elem_of_In, elem_of_map_to_list. exact Hkv.
  - simpl. by rewrite length_map, length_map_to_list.
  - simpl. split.
    + intros H. apply map_eq_nil in H. by apply map_to_list_empty_iff.
    + intros ->. by rewrite map_to_list_empty.
  - reflexivity.
  - intros k v1 v2. unfold WithEnv. rewrite !map_to_list_singleton. simpl.
    unfold env_entry. simpl. by rewrite append_assoc.
Qed.

(* ===================================================================== *)
(** * The two texts of the reader *)
(* ===================================================================== *)

Lemma submit_all_None submit bs names tasks :
  submit_all submit bs names = (tasks, None) ->
  forall n, In n names -> submit n = None.
Proof.
  revert tasks. induction names as [|x rest IH]; intros tasks H n Hin;
    [destruct Hin|].
  simpl in H. destruct (submit x) as [err|] eqn:Ex; [discriminate|].
  destruct (submit_all submit bs rest) as [tasks' [e|]] eqn:Er;
    [discriminate|].
  destruct Hin as [<-|Hin]; [exact Ex|]. exact (IH tasks' eq_refl n Hin).
Qed.

(** The two texts submit for the same subscribers in a round. *)
Lemma PipeGo_submit_all_eq submit bs names :
  PipeGo.submit_all submit names
  = (map fst (fst (submit_all submit bs names)), snd (submit_all submit bs names)).
Proof.
  induction names as [|x rest IH]; simpl; [reflexivity|].
  destruct (submit x) as [err|]; [reflexivity|].
  rewrite IH. by destruct (submit_all submit bs rest).
Qed.

Lemma PipeGo_listenOutStream_eq names ticks scan_err :
  PipeGo.listenOutStream names ticks scan_err
  = (map fst (fst (listenOutStream names ticks None)),
     snd (listenOutStream names ticks None)).
Proof.
  induction ticks as [|t rest IH]; simpl; [reflexivity|].
  destruct (isCtxDone (tick_ctx t)) as [[|] err]; [reflexivity|].
  rewrite (PipeGo_submit_all_eq _ (tick_bytes t)).
  destruct (submit_all (tick_submit t) (tick_bytes t) names) as [tasks [e|]];
    simpl; [reflexivity|].
  rewrite IH. destruct (listenOutStream names rest None). simpl.
  by rewrite map_app.
Qed.

Lemma listenOutStream_scan_err names ticks scan_err :
  listenOutStream names ticks scan_err = listenOutStream names ticks None \/
  (Forall (passes names) ticks /\
   listenOutStream names ticks scan_err
   = (fst (listenOutStream names ticks None), scan_err) /\
   snd (listenOutStream names ticks None) = None).
Proof.
  induction ticks as [|t rest IH]; simpl.
  - right. split; [constructor|split; reflexivity].
  - destruct (tick_ctx t) as [err|] eqn:Ec; simpl.
    + left. destruct (is_Canceled err); reflexivity.
    + destruct (submit_all (tick_submit t) (tick_bytes t) names)
        as [tasks [e|]] eqn:Es; [left; reflexivity|].
      destruct IH as [IH|(Hall & IH1 & IH2)].
      * left. by rewrite IH.
      * right. split; [|split].
        -- constructor; [|exact Hall]. split; [exact Ec|].
           exact (submit_all_None _ _ _ _ Es).
        -- rewrite IH1. destruct (listenOutStream names rest None). reflexivity.
        -- destruct (listenOutStream names rest None). exact IH2.
Qed.

Lemma tasks_of_names names ticks :
  map fst (flat_map (tasks_of names) ticks) = flat_map (fun _ => names) ticks.
Proof.
  induction ticks as [|t rest IH]; simpl; [reflexivity|].
  rewrite map_app, IH. f_equal. unfold tasks_of. rewrite map_map. simpl.
  apply map_id.
Qed.

(** The reader in pipe.go (lines 108-139) against the one in helper.go
    (lines 220-258).  The text in pipe.go never looks at the scanner's
    error.  In every run the two hand a task to the pool for the same
    subscribers in the same order, and they return the same error unless
    every round went through and the scanner then stopped with an error,
    where helper.go returns that error and pipe.go returns nil.  (What a
    task then sends is another matter: the closure of pipe.go reads the
    scanner when it runs.) *)
Theorem PipeGo_listenOutStream_hides_scan_error names ticks scan_err :
  PipeGo.listenOutStream names ticks scan_err
  = PipeGo.listenOutStream names ticks None /\
  fst (PipeGo.listenOutStream names ticks scan_err)
  = map fst (fst (listenOutStream names ticks scan_err)) /\
  snd (PipeGo.listenOutStream names ticks scan_err)
  = snd (listenOutStream names ticks None) /\
  (snd (PipeGo.listenOutStream names ticks scan_err)
   <> snd (listenOutStream names ticks scan_err) ->
   Forall (passes names) ticks /\ scan_err <> None /\
   snd (listenOutStream names ticks scan_err) = scan_err /\
   snd (PipeGo.listenOutStream names ticks scan_err) = None) /\
  (Forall (passes names) ticks ->
   listenOutStream names ticks scan_err
   = (flat_map (tasks_of names) ticks, scan_err) /\
   PipeGo.listenOutStream names ticks scan_err
   = (flat_map (fun _ => names) ticks, None)).
Proof.
  rewrite !PipeGo_listenOutStream_eq. cbn [fst snd].
  pose proof (tasks_of_names names ticks) as Hnames.
  assert (Hpass : Forall (passes names) ticks -> forall se,
            listenOutStream names ticks se
            = (flat_map (tasks_of names) ticks, se)).
  { intros Hall se.
    pose proof (listenOutStream_passes names ticks [] se Hall) as H.
    rewrite app_nil_r in H. simpl in H. by rewrite app_nil_r in H. }
  split; [reflexivity|].
  assert (Hfst : fst (listenOutStream names ticks scan_err)
                 = fst (listenOutStream names ticks None)).
  { destruct (listenOutStream_scan_err names ticks scan_err)
      as [E|(_ & E1 & _)]; [by rewrite E|by rewrite E1]. }
  split; [by rewrite Hfst|]. split; [reflexivity|]. split.
  - intros Hne.
    destruct (listenOutStream_scan_err names ticks scan_err)
      as [E|(Hall & E1 & E2)].
    + exfalso. apply Hne. by rewrite E.
    + rewrite E1 in Hne |- *. rewrite E2 in Hne |- *. simpl in *.
      repeat split; auto.
  - intros Hall. split; [exact (Hpass Hall scan_err)|].
    rewrite (Hpass Hall None). simpl. by rewrite Hnames.
Qed.

(* ===================================================================== *)
(** * Shutting down more than once *)
(* ===================================================================== *)

Lemma shutdown_exact call w s pid :
  well_formed s -> all_set (self s) -> proc (self s) = Some pid ->
  shutdown call w s
  = (mkSys (self s) (close_all (registered_locs (self s)) (heap s))
           (log s ++ shutdown_log call w (self s)),
     shutdown_result call w (self s)).
Proof.
  intros Hwf Hset Hp. rewrite shutdown_eq. unfold close_then_signal.
  rewrite bind_get, Hp. unfold bind at 1. rewrite (close_exact w s Hwf Hset).
  unfold shutdown_log, shutdown_result.
  destruct (final_result w (self s)) as [r|msg|];
    try (by rewrite app_nil_r).
  unfold Signal. rewrite bind_assoc, bind_get. simpl self. rewrite Hp.
  rewrite bind_assoc, bind_emit. simpl. by rewrite <- app_assoc.
Qed.

Lemma close_all_idem (locs : list loc) (h : gmap loc Stream) :
  close_all locs (close_all locs h) = close_all locs h.
Proof.
  apply map_eq. intros l. rewrite !lookup_close_all.
  destruct (decide (l ∈ locs)); [|reflexivity].
  unfold Stream in *. by destruct (h !! l).
Qed.

(** Terminate, Interrupt and Kill can be called again (proc.go 162-244).
    On a started Proc that has all its parts and idle streams, a shutdown
    call leaves the Proc as it was and its streams idle, so a second call,
    of any of the three, runs [close] once more over streams that are
    already closed: it does not panic on them, changes no stream, and logs
    and returns what it would have as a first call at that moment. *)
Theorem shutdown_repeatable call call' w w' s pid :
  well_formed s -> all_set (self s) -> proc (self s) = Some pid ->
  let s1 := fst (shutdown call w s) in
  let s2 := fst (shutdown call' w' s1) in
  self s1 = self s /\ well_formed s1 /\
  self s2 = self s /\ heap s2 = heap s1 /\
  log s2 = log s1 ++ shutdown_log call' w' (self s) /\
  snd (shutdown call' w' s1) = shutdown_result call' w' (self s) /\
  snd (shutdown call' w' s1) = snd (shutdown call' w' s).
Proof.
  intros Hwf Hset Hp s1 s2. subst s2 s1.
  rewrite (shutdown_exact call w s pid Hwf Hset Hp). simpl fst.
  set (s1 := mkSys _ _ _).
  assert (Hwf1 : well_formed s1)
    by (apply well_formed_le; [exact Hwf|apply close_all_quiet]).
  rewrite (shutdown_exact call' w' s1 pid Hwf1 Hset Hp).
  rewrite (shutdown_exact call' w' s pid Hwf Hset Hp). simpl.
  repeat split; try reflexivity; try exact Hwf1.
  apply close_all_idem.
Qed.

Lemma shutdown_repeatable_witness :
  heap (fst (shutdown CallKill failing_world
               (fst (shutdown CallTerminate calm_world started_bound))))
  = heap (fst (shutdown CallTerminate calm_world started_bound)) /\
  snd (shutdown CallKill failing_world
         (fst (shutdown CallTerminate calm_world started_bound)))
  = shutdown_result CallKill failing_world (self started_bound).
Proof.
  destruct started_bound_ready as (Hwf & Hset & _).
  destruct (shutdown_repeatable CallTerminate CallKill calm_world failing_world
              started_bound 4242 Hwf Hset eq_refl)
    as (_ & _ & _ & H4 & _ & H6 & _).
  split; [exact H4|exact H6].
Defined.

(* ===================================================================== *)
(** * The name and the command line *)
(* ===================================================================== *)

(** Name() and CMDLine() (proc.go 264-271) read [p.options], which NewProc
    leaves at its zero value: on every Proc that NewProc returns, whatever
    command was given with WithCommand, Name() is the empty string and
    CMDLine() is the one-element list of the empty string.  On a Proc whose
    options hold the command, CMDLine() is the name followed by the
    arguments. *)
Theorem Name_CMDLine w procOptions p :
  NewProc w procOptions = inr p ->
  Proc_Name p = "" /\ CMDLine p = [""] /\
  forall name args,
    CMDLine (mkProc (proc p) (process p) (stdinPipe p) (stdinChs p)
                    (stdoutPipe p) (stdoutChs p) (stderrPipe p) (stderrChs p)
                    (group p) (workerPool p) (cancel p)
                    (WithCommand name args (options p)))
    = name :: args.
Proof.
  intros H. pose proof (NewProc_returns w procOptions p H) as Hz.
  cbv zeta in Hz. rewrite Hz. unfold CMDLine, Proc_Name. simpl.
  repeat split.
Qed.

Lemma Name_CMDLine_witness :
  NewProc calm_world echo_options = inr echo_proc /\
  Proc_Name echo_proc = "" /\ CMDLine echo_proc = [""].
Proof.
  split; [reflexivity|].
  destruct (Name_CMDLine calm_world echo_options echo_proc eq_refl)
    as (H1 & H2 & _).
  split; [exact H1|exact H2].
Defined.

(* ===================================================================== *)
(** * A Recv racing a Close *)
(* ===================================================================== *)

Ltac split_hyps :=
  repeat match goal with H : _ /\ _ |- _ => destruct H end.

Lemma receiving_step {T} (zero : T) cap0 buf0 g s s' :
  receiving_ok zero cap0 buf0 s -> step_receiving zero g s = Some s' ->
  receiving_ok zero cap0 buf0 s'.
Proof.
  destruct s as [[[lk fl] [cp bf cl]] rpc cpc].
  intros (H1 & H2 & H3 & H4 & H5 & H6 & H7) H. simpl in *. subst.
  destruct rpc as [| |[|]| |x [|]|msg];
    destruct cpc as [| |[|]| | | | | | | |cmsg];
    simpl in *; try discriminate; try contradiction;
    destruct g; simpl in H; try discriminate;
    try (destruct bf as [|y bf]; simpl in H; try discriminate);
    inversion H; subst; clear H;
    unfold receiving_ok; simpl; split_hyps; try discriminate;
    repeat split; congruence.
Qed.

Lemma receiving_schedule {T} (zero : T) cap0 buf0 gs s s' :
  receiving_ok zero cap0 buf0 s -> schedule_receiving zero gs s = Some s' ->
  receiving_ok zero cap0 buf0 s'.
Proof.
  revert s. induction gs as [|g gs IH]; intros s Hok H; simpl in H.
  - congruence.
  - destruct (step_receiving zero g s) as [s1|] eqn:E; [|discriminate].
    eapply IH; [|exact H]. eapply receiving_step; eassumption.
Qed.

Lemma receiving_progress {T} (zero : T) cap0 buf0 s :
  receiving_ok zero cap0 buf0 s ->
  (recv_closer s = CloseReturned ->
   (exists x ok, receiver s = RecvReturned x ok) \/ step_receiver zero s <> None) /\
  (((exists x ok, receiver s = RecvReturned x ok) /\ recv_closer s = CloseReturned) \/
   exists g, step_receiving zero g s <> None).
Proof.
  destruct s as [[[lk fl] [cp bf cl]] rpc cpc].
  intros (H1 & H2 & H3 & H4 & H5 & H6 & H7). simpl in *. subst.
  destruct rpc as [| |[|]| |x ok|msg];
    destruct cpc as [| |[|]| | | | | | | |cmsg];
    simpl in *; try discriminate; try contradiction;
    (split;
     [ intros E; try discriminate;
       first [ left; by do 2 eexists
             | right; simpl; try (destruct bf); simpl; discriminate ]
     | first [ left; split; [by do 2 eexists|reflexivity]
             | right; exists false; simpl; try (destruct bf); simpl; discriminate
             | right; exists true; simpl; discriminate ] ]).
Qed.

(** Recv and Close are safe together (helper.go 54-80).  Start a Recv()
    and a Close() on an open channel nobody is inside of, and let the
    scheduler interleave their atomic actions in any order.  Nobody
    panics.  A Recv that returns an item returns the oldest one buffered
    and takes it out; a Recv that reports the channel closed returns the
    zero value, does so only once the run-time channel has been closed,
    and takes nothing out of the buffer.  The receiver is never left
    parked: once Close has returned, the receiver has returned or can
    move, and as long as one of the two has not returned one of them can
    move. *)
Theorem Recv_racing_Close_is_safe {T} (zero : T) (c : Channel T) gs s :
  Locker (closed c) = false -> val (closed c) = false ->
  chan_closed (ch c) = false ->
  schedule_receiving zero gs (receiving_start c) = Some s ->
  (forall msg, receiver s <> RecvPanicked msg) /\
  (forall msg, recv_closer s <> ClosePanicked msg) /\
  (forall x, receiver s = RecvReturned x true ->
     chan_buf (ch c) = x :: chan_buf (ch (recv_shared s))) /\
  (forall x, receiver s = RecvReturned x false ->
     x = zero /\ chan_closed (ch (recv_shared s)) = true /\
     chan_buf (ch (recv_shared s)) = chan_buf (ch c)) /\
  (recv_closer s = CloseReturned ->
     chan_closed (ch (recv_shared s)) = true /\
     val (closed (recv_shared s)) = true /\
     ((exists x ok, receiver s = RecvReturned x ok) \/
      step_receiver zero s <> None)) /\
  (((exists x ok, receiver s = RecvReturned x ok) /\
    recv_closer s = CloseReturned) \/
   exists g, step_receiving zero g s <> None).
Proof.
  intros Hl Hv Hc H.
  assert (H0 : receiving_ok zero (chan_cap (ch c)) (chan_buf (ch c))
                 (receiving_start c)).
  { unfold receiving_ok. simpl. rewrite Hl, Hv, Hc. repeat split. }
  pose proof (receiving_schedule zero _ _ gs _ _ H0 H) as Hok.
  destruct (receiving_progress zero _ _ s Hok) as [Hrel Hpr].
  destruct Hok as (_ & _ & H3 & H4 & _ & H6 & H7).
  split; [|split; [|split; [|split; [|split]]]].
  - intros msg E. rewrite E in H7. exact H7.
  - intros msg E. rewrite E in H6. discriminate.
  - intros x E. rewrite E in H7. exact H7.
  - intros x E. rewrite E in H7. destruct H7 as (? & ? & ?).
    rewrite H4. auto.
  - intros E. rewrite H3, H4, E. auto.
  - exact Hpr.
Qed.

Lemma Recv_racing_Close_is_safe_witness :
  schedule_receiving 0 [false; false; false; false] (receiving_start unbuffered)
  = None /\
  exists s,
    schedule_receiving 0 close_during_recv (receiving_start unbuffered) = Some s /\
    receiver s = RecvReturned 0 false /\ recv_closer s = CloseReturned /\
    recv_shared s = unbuffered_closed /\
    forall msg, receiver s <> RecvPanicked msg.
Proof.
  split; [reflexivity|].
  exists (mkReceiving unbuffered_closed (RecvReturned 0 false) CloseReturned).
  split; [reflexivity|]. split; [reflexivity|]. split; [reflexivity|].
  split; [reflexivity|].
  exact (proj1 (Recv_racing_Close_is_safe 0 unbuffered close_during_recv
                  (mkReceiving unbuffered_closed (RecvReturned 0 false) CloseReturned)
                  eq_refl eq_refl eq_refl eq_refl)).
Defined.

(* ===================================================================== *)
(** * What the options asked for come to on a Proc built by NewProc *)
(* ===================================================================== *)

(** C1, on the Procs the program builds.  NewProc sets up the pipe and the
    empty registry of every direction asked for, but does not store the
    options in the Proc.  So before Start the bind call of a direction
    that was asked for finds it disabled: it returns nil and registers
    nothing, where the specification has it return a stream and register
    it.
    After a Start that returned nil, the child having a positive process
    id, the call panics as specified, the registry still empty. *)
Theorem bind_on_NewProc_returns_nil w procOptions p d name :
  NewProc w procOptions = inr p ->
  enabled d (apply_options procOptions) = true ->
  (pipe_of d p = true /\ chs_of d p = Some ∅ /\ PID p = -1) /\
  enabled d (options p) = false /\
  bind_of d name (fresh_sys p) = (fresh_sys p, Ret None) /\
  (forall s',
      (forall pid, cmd_Start w = inr pid -> 0 < pid) ->
      Start w (fresh_sys p) = (s', Ret None) ->
      chs_of d (self s') = Some ∅ /\
      bind_of d name s' = (s', Panic (bind_after_start name))).
Proof.
  intros HN He.
  pose proof (NewProc_returns _ _ _ HN) as Hp. cbv zeta in Hp.
  assert (Ho : options p = zero_Options) by (rewrite Hp; reflexivity).
  assert (Hpid : PID p = -1) by (rewrite Hp; reflexivity).
  assert (Hd : pipe_of d p = true /\ chs_of d p = Some ∅).
  { rewrite Hp. destruct d; simpl in He |- *; rewrite He; split; reflexivity. }
  split; [tauto|]. split; [rewrite Ho; by destruct d|]. split.
  - rewrite bind_of_eq. apply bind_pipe_disabled; [exact Hpid|].
    simpl. rewrite Ho. by destruct d.
  - intros s' Hpos HS.
    destruct (Start_returns _ _ _ HS) as (pid & Hc & _ & HP & Hself & _).
    split.
    + destruct Hd as [_ Hchs]. simpl in Hself.
      destruct Hself as [-> | ->]; destruct d; exact Hchs.
    + rewrite bind_of_eq. apply bind_pipe_started. rewrite HP.
      specialize (Hpos pid Hc). lia.
Qed.

Lemma bind_on_NewProc_returns_nil_witness :
  NewProc calm_world echo_options = inr echo_proc /\
  enabled DirStdout (apply_options echo_options) = true /\
  StdoutPipe "echo" (fresh_sys echo_proc) = (fresh_sys echo_proc, Ret None) /\
  chs_of DirStdout echo_proc = Some ∅.
Proof.
  destruct (bind_on_NewProc_returns_nil calm_world echo_options echo_proc
              DirStdout "echo" eq_refl eq_refl) as ((_ & H2 & _) & _ & H3 & _).
  split; [reflexivity|]. split; [reflexivity|]. split; [exact H3|exact H2].
Defined.

(** C5, on the Procs the program builds.  Take a Proc built by NewProc
    with the three directions asked for (so that [close] gets to its last
    step) and started.  Whatever maximal wait was asked for with
    WithMaxWaitTime, [close] reads a maximal wait of zero: it waits for
    the group and returns the group's result, as specified for a Proc
    with no maximal wait; it never waits for the child's exit against the
    time asked for and so never returns the deadline-exceeded error on
    that account.  Terminate, Interrupt and Kill return accordingly. *)
Theorem close_ignores_MaxWaitTime w procOptions p s :
  NewProc w procOptions = inr p ->
  Start w (fresh_sys p) = (s, Ret None) ->
  Stdin (apply_options procOptions) && Stdout (apply_options procOptions)
    && Stderr (apply_options procOptions) = true ->
  MaxWaitTime (options (self s)) = 0 /\
  snd (close w s)
  = (if group_stuck w then Block else Ret (first_error (group_returned w))) /\
  (exists pid,
     log (fst (close w s))
     = [EvSpawn pid; EvClosePipe DirStdin; EvClosePipe DirStdout;
        EvClosePipe DirStderr; EvCancel; EvGroupWait] ++
       (if group_stuck w then [] else [EvPoolRelease])) /\
  (forall call,
     snd (shutdown call w s)
     = if group_stuck w then Block
       else Ret (errors_Join [first_error (group_returned w);
                              proc_Signal w (signal_of call)])).
Proof.
  intros HN HS Hall.
  pose proof (NewProc_returns _ _ _ HN) as Hp. cbv zeta in Hp.
  assert (Ho : options (self (fresh_sys p)) = zero_Options)
    by (rewrite Hp; reflexivity).
  destruct (Start_zero_options _ _ _ Ho HS) as (pid & _ & ->).
  rewrite Hp. clear HN HS Ho Hp.
  destruct (Stdin (apply_options procOptions)),
           (Stdout (apply_options procOptions)),
           (Stderr (apply_options procOptions)); try discriminate Hall.
  destruct w as [? ? ? ? ? ? returned stuck ? ? ? sig].
  split; [by destruct (0 <=? pid)|].
  split; [by destruct (0 <=? pid), stuck|].
  split.
  - exists pid. by destruct (0 <=? pid), stuck.
  - intros call. by destruct (0 <=? pid), call, stuck.
Qed.

Lemma close_ignores_MaxWaitTime_witness :
  NewProc ignoring_world max_wait_options = inr new_piped /\
  MaxWaitTime (apply_options max_wait_options) = Second /\
  Start ignoring_world (fresh_sys new_piped) = (started_new_piped, Ret None) /\
  snd (close ignoring_world started_new_piped) = Ret None /\
  snd (Terminate ignoring_world started_new_piped) = Ret None.
Proof.
  destruct (close_ignores_MaxWaitTime ignoring_world max_wait_options new_piped
              started_new_piped eq_refl eq_refl eq_refl) as (_ & H2 & _ & H4).
  split; [reflexivity|]. split; [reflexivity|]. split; [reflexivity|].
  split; [exact H2|exact (H4 CallTerminate)].
Defined.
